(** * max-path: a weighted directed graph, Kahn's algorithm and the critical path

    A shallow embedding of [Wdgraph.py] (the graph store) and of the two
    algorithms of [app.py] ([kahns_algorithm], [solve_max_path]).

    - Node labels are Python strings ([string]); handles are [nat].
    - The store is polymorphic in the weight type [W]; the solver uses
      Python integers ([Z]).
    - An exception is a value of [exn]; a computation returns a [result].
    - [S.pop()] on a Python set returns an arbitrary element: the Kahn loop
      takes a function [pick] that says, for each iteration, which element
      of the frontier is popped; every theorem holds for every [pick].
    - The two [while] loops take fuel; [OutOfFuel] is the answer of the model
      when the fuel is used up, and is shown never to occur with fuel above
      the number of nodes.
    - [copy()] is about object identity: module [Heap] holds the store as
      objects in a heap (the dict, the label list, the rows and their
      [target, weight] pairs) and relates each method to its pure
      counterpart. *)

From Stdlib Require Import ZArith List Lia.
From Stdlib Require QArith.
From stdpp Require Import base option list relations gmap sets strings.

(* ===================================================================== *)
(** * Results and exceptions *)
(* ===================================================================== *)

Inductive exn : Type :=
| UnregisteredNode   (* Exception("Trying to access unregistered node value") *)
| NoEdgeExists       (* Exception(f"No edge exists between {u} and {v}") *)
| GraphHasCycle      (* Exception("Graph has a cycle") *)
| IndexError         (* a list index out of range *)
| KeyError           (* a missing dict key, or pop from an empty set *)
| ValueError         (* list.remove(x): x not in list *)
| ZeroDivisionError  (* weight / total with total == 0 *)
| TypeError          (* an object of another kind than the code expects *).

Inductive result (A : Type) : Type :=
| Ok (a : A)
| Raise (e : exn)
| OutOfFuel.

Arguments Ok {A} a.
Arguments Raise {A} e.
Arguments OutOfFuel {A}.

#[global] Instance exn_eq_dec : EqDecision exn.
Proof. solve_decision. Defined.

#[global] Instance result_ret : MRet result := fun _ a => Ok a.

#[global] Instance result_bind : MBind result := fun _ _ f r =>
  match r with
  | Ok a => f a
  | Raise e => Raise e
  | OutOfFuel => OutOfFuel
  end.

(** [xs[i]] on a Python list. *)
Definition index {A : Type} (xs : list A) (i : nat) : result A :=
  match xs !! i with
  | Some x => Ok x
  | None => Raise IndexError
  end.

(* ===================================================================== *)
(** * The graph store ([Wdgraph.py]) *)
(* ===================================================================== *)

Record Wdgraph (W : Type) : Type := MkWdgraph {
  len : nat;
  hashmap : gmap string nat;
  directmap : list string;
  adj_list : list (list (nat * W))
}.

Arguments MkWdgraph {W} _ _ _ _.
Arguments len {W} _.
Arguments hashmap {W} _.
Arguments directmap {W} _.
Arguments adj_list {W} _.

Section Store.
Context {W : Type} `{EqDecision W}.

Abbreviation graph := (Wdgraph W).
Abbreviation row := (list (nat * W)).

(** [Wdgraph()] *)
Definition empty_graph : graph := MkWdgraph 0 ∅ [] [].

Definition with_adj (g : graph) (adj : list row) : graph :=
  MkWdgraph (len g) (hashmap g) (directmap g) adj.

Definition register_node (g : graph) (u : string) : graph * nat :=
  match hashmap g !! u with
  | Some n => (g, n)
  | None =>
      let g' := MkWdgraph (len g + 1)
                          (<[u := len g]> (hashmap g))
                          (directmap g ++ [u])
                          (adj_list g ++ [[]]) in
      (g', len g' - 1)
  end.

Definition map_value (g : graph) (u : string) : result nat :=
  match hashmap g !! u with
  | Some n => Ok n
  | None => Raise UnregisteredNode
  end.

(** The [for ... enumerate] loop of [raw_set_edge]: the first pair whose
    target is [n2] gets the weight [w]; [None] when the loop falls
    through. *)
Fixpoint overwrite (n2 : nat) (w : W) (r : row) : option row :=
  match r with
  | [] => None
  | (target, weight) :: rest =>
      if decide (target = n2) then Some ((target, w) :: rest)
      else cons (target, weight) <$> overwrite n2 w rest
  end.

Definition raw_set_edge (g : graph) (n1 n2 : nat) (w : W) : result graph :=
  r ← index (adj_list g) n1;
  match overwrite n2 w r with
  | Some r' => Ok (with_adj g (<[n1 := r']> (adj_list g)))
  | None => Ok (with_adj g (<[n1 := r ++ [(n2, w)]]> (adj_list g)))
  end.

(** [set_edge] registers both labels before it can raise, so it returns
    the graph it leaves behind together with its outcome. *)
Definition set_edge (g : graph) (u v : string) (w : W) : graph * result unit :=
  let '(g1, n1) := register_node g u in
  let '(g2, n2) := register_node g1 v in
  match raw_set_edge g2 n1 n2 w with
  | Ok g3 => (g3, Ok tt)
  | Raise e => (g2, Raise e)
  | OutOfFuel => (g2, OutOfFuel)
  end.

(** The graph after [set_edge]. *)
Definition set_edge' (g : graph) (u v : string) (w : W) : graph :=
  (set_edge g u v w).1.

Fixpoint find_weight (n2 : nat) (r : row) : option W :=
  match r with
  | [] => None
  | (target, weight) :: rest =>
      if decide (target = n2) then Some weight else find_weight n2 rest
  end.

Definition get_edge (g : graph) (u v : string) : result W :=
  n1 ← map_value g u;
  n2 ← map_value g v;
  r ← index (adj_list g) n1;
  match find_weight n2 r with
  | Some weight => Ok weight
  | None => Raise NoEdgeExists
  end.

Definition all_edges (g : graph) : list (nat * W) :=
  concat (adj_list g).

(** The loop of [remove_edge] does not break: [to_remove] is the last pair
    with target [n2]. *)
Fixpoint last_match (n2 : nat) (to_remove : option (nat * W)) (r : row)
  : option (nat * W) :=
  match r with
  | [] => to_remove
  | (target, weight) :: rest =>
      last_match n2 (if decide (target = n2) then Some (target, weight)
                     else to_remove) rest
  end.

(** [xs.remove(x)]: drops the first element equal to [x]. *)
Fixpoint list_remove (x : nat * W) (xs : row) : result row :=
  match xs with
  | [] => Raise ValueError
  | y :: rest =>
      if decide (y = x) then Ok rest
      else rest' ← list_remove x rest; Ok (y :: rest')
  end.

Definition remove_edge (g : graph) (u v : string) : result graph :=
  n1 ← map_value g u;
  n2 ← map_value g v;
  r ← index (adj_list g) n1;
  match last_match n2 None r with
  | Some to_remove =>
      r' ← list_remove to_remove r;
      Ok (with_adj g (<[n1 := r']> (adj_list g)))
  | None => Raise NoEdgeExists
  end.

Definition get_outdegree (g : graph) (u : string) : result nat :=
  n ← map_value g u;
  r ← index (adj_list g) n;
  Ok (length r).

Fixpoint label_row (dm : list string) (r : row) : result (list (string * W)) :=
  match r with
  | [] => Ok []
  | (target, weight) :: rest =>
      l ← index dm target;
      rest' ← label_row dm rest;
      Ok ((l, weight) :: rest')
  end.

Definition get_outneighbors (g : graph) (u : string)
  : result (list (string * W)) :=
  n ← map_value g u;
  r ← index (adj_list g) n;
  label_row (directmap g) r.

(** The inner loop of [get_inneighbors] over one adjacency list [outs]
    of the node with handle [m]. *)
Fixpoint scan_outs (dm : list string) (n m : nat) (outs : row)
  : result (list (string * W)) :=
  match outs with
  | [] => Ok []
  | (target, weight) :: rest =>
      if decide (target = n) then
        l ← index dm m;
        rest' ← scan_outs dm n m rest;
        Ok ((l, weight) :: rest')
      else scan_outs dm n m rest
  end.

(** The outer loop, [enumerate(self.adj_list)] from index [m] on. *)
Fixpoint scan_adj (dm : list string) (n m : nat) (adj : list row)
  : result (list (string * W)) :=
  match adj with
  | [] => Ok []
  | outs :: rest =>
      here ← scan_outs dm n m outs;
      more ← scan_adj dm n (S m) rest;
      Ok (here ++ more)
  end.

Definition get_inneighbors (g : graph) (u : string)
  : result (list (string * W)) :=
  n ← map_value g u;
  scan_adj (directmap g) n 0 (adj_list g).

Definition get_nodes (g : graph) : list string := directmap g.

Definition get_edges (g : graph) : result (list (list (string * W))) :=
  mapM (M := result) (label_row (directmap g)) (adj_list g).

(** [with_incoming.add(self.directmap[node])] over all pairs. *)
Fixpoint targets_of (dm : list string) (acc : gset string) (es : row)
  : result (gset string) :=
  match es with
  | [] => Ok acc
  | (node, weight) :: rest =>
      l ← index dm node;
      targets_of dm (acc ∪ {[l]}) rest
  end.

Fixpoint with_incoming_of (dm : list string) (acc : gset string)
    (adj : list row) : result (gset string) :=
  match adj with
  | [] => Ok acc
  | edge :: rest =>
      acc' ← targets_of dm acc edge;
      with_incoming_of dm acc' rest
  end.

Definition get_nodes_without_incoming (g : graph) : result (gset string) :=
  let all_nodes : gset string := list_to_set (directmap g) in
  with_incoming ← with_incoming_of (directmap g) ∅ (adj_list g);
  Ok (all_nodes ∖ with_incoming).

(** On values [deepcopy] is the identity; the aliasing it removes is the
    subject of the module [Heap] below. *)
Definition copy (g : graph) : graph :=
  MkWdgraph (len g) (hashmap g) (directmap g) (adj_list g).

(** ** [create_probability_graph]

    [wsum] is Python's [sum] on weights and [wdiv] its true division,
    [None] where the division raises. *)
Section Probability.
Variable wsum : list W → W.
Variable wdiv : W → W → option W.

(** The inner loop reads the pair at position [i] of the live list and
    overwrites through [raw_set_edge]; [k] positions are left. *)
Fixpoint normalise_row (g : graph) (source : nat) (total : W) (i k : nat)
  : graph * result unit :=
  match k with
  | 0 => (g, Ok tt)
  | S k' =>
      match adj_list g !! source ≫= (.!! i) with
      | None => (g, Ok tt)
      | Some (target, weight) =>
          match wdiv weight total with
          | None => (g, Raise ZeroDivisionError)
          | Some q =>
              match raw_set_edge g source target q with
              | Ok g' => normalise_row g' source total (S i) k'
              | Raise e => (g, Raise e)
              | OutOfFuel => (g, OutOfFuel)
              end
          end
      end
  end.

Fixpoint normalise_from (g : graph) (source k : nat) : graph * result unit :=
  match k with
  | 0 => (g, Ok tt)
  | S k' =>
      match adj_list g !! source with
      | None => (g, Raise IndexError)
      | Some r =>
          let total := wsum (r.*2) in
          match normalise_row g source total 0 (length r) with
          | (g', Ok _) => normalise_from g' (S source) k'
          | (g', bad) => (g', bad)
          end
      end
  end.

Definition create_probability_graph (g : graph) : graph * result unit :=
  normalise_from g 0 (length (adj_list g)).
End Probability.

Definition graph_len (g : graph) : nat := len g.

End Store.

(* ===================================================================== *)
(** * Kahn's algorithm ([app.py], [kahns_algorithm]) *)
(* ===================================================================== *)

(** [S.pop()]: some element of the set leaves it.  The elements are listed
    and [choice] selects one of them, so that every element can be the one
    popped. *)
Definition set_pop (choice : nat) (S : gset string)
  : result (string * gset string) :=
  let l := elements S in
  match l !! (choice mod length l) with
  | Some n => Ok (n, S ∖ {[n]})
  | None => Raise KeyError
  end.

Section Kahn.
Context {W : Type} `{EqDecision W}.
Variable pick : nat → nat.

(** The [for m, weight in G.get_outneighbors(n)] loop; the list [outs] was
    built before the first removal. *)
Fixpoint kahn_visit (G : Wdgraph W) (S : gset string) (n : string)
    (outs : list (string * W)) : result (Wdgraph W * gset string) :=
  match outs with
  | [] => Ok (G, S)
  | (m, weight) :: rest =>
      G' ← remove_edge G n m;
      inn ← get_inneighbors G' m;
      kahn_visit G' (if inn is [] then S ∪ {[m]} else S) n rest
  end.

(** The [while len(S) != 0] loop; [i] counts the iterations done. *)
Fixpoint kahn_loop (fuel i : nat) (G : Wdgraph W) (S : gset string)
    (L : list string) : result (Wdgraph W * list string) :=
  match fuel with
  | 0 => OutOfFuel
  | Datatypes.S fuel' =>
      if decide (size S ≠ 0) then
        '(n, S1) ← set_pop (pick i) S;
        let L1 := L ++ [n] in
        outs ← get_outneighbors G n;
        '(G2, S2) ← kahn_visit G S1 n outs;
        kahn_loop fuel' (i + 1) G2 S2 L1
      else Ok (G, L)
  end.

Definition kahns_algorithm (fuel : nat) (graph : Wdgraph W)
  : result (list string) :=
  let G := copy graph in
  let L := [] in
  S ← get_nodes_without_incoming G;
  '(G', L') ← kahn_loop fuel 0 G S L;
  if all_edges G' is [] then Ok L' else Raise GraphHasCycle.

End Kahn.

(* ===================================================================== *)
(** * The critical path ([app.py], [solve_max_path]) *)
(* ===================================================================== *)

Open Scope Z_scope.

(** [dist[source]] *)
Definition dict_get (dist : gmap string Z) (k : string) : result Z :=
  match dist !! k with
  | Some x => Ok x
  | None => Raise KeyError
  end.

(** [dict(zip(sorted_nodes, [0 for i in range(n)]))]: a later pair with the
    same key replaces an earlier one. *)
Definition initial_dist (sorted_nodes : list string) (n : nat)
  : gmap string Z :=
  fold_left (fun d kv => <[kv.1 := kv.2]> d)
            (zip sorted_nodes (replicate n 0)) ∅.

(** The inner loop of the first pass: [max_dist] starts at [0]. *)
Fixpoint max_over (dist : gmap string Z) (max_dist : Z)
    (max_source : option string) (inn : list (string * Z))
  : result (Z * option string) :=
  match inn with
  | [] => Ok (max_dist, max_source)
  | (source, weight) :: rest =>
      ds ← dict_get dist source;
      let d := ds + weight in
      if decide (d > max_dist) then max_over dist d (Some source) rest
      else max_over dist max_dist max_source rest
  end.

(** [for target in sorted_nodes: ... dist[target] = max_dist] *)
Fixpoint relax (G : Wdgraph Z) (dist : gmap string Z) (nodes : list string)
  : result (gmap string Z) :=
  match nodes with
  | [] => Ok dist
  | target :: rest =>
      inn ← get_inneighbors G target;
      '(max_dist, _) ← max_over dist 0 None inn;
      relax G (<[target := max_dist]> dist) rest
  end.

(** [d > max_dist] where [max_dist] starts as [float("-inf")], here [None]. *)
Definition above (d : Z) (max_dist : option Z) : bool :=
  match max_dist with
  | None => true
  | Some x => bool_decide (d > x)
  end.

(** The inner loop of the backward pass: the weight is not looked at. *)
Fixpoint best_source (dist : gmap string Z) (max_dist : option Z)
    (max_node : option string) (inn : list (string * Z))
  : result (option Z * option string) :=
  match inn with
  | [] => Ok (max_dist, max_node)
  | (source, _) :: rest =>
      d ← dict_get dist source;
      if above d max_dist then best_source dist (Some d) (Some source) rest
      else best_source dist max_dist max_node rest
  end.

(** [G.get_inneighbors(current)] where [current] may be Python's [None],
    which is no key of [hashmap]. *)
Definition get_inneighbors_of (G : Wdgraph Z) (current : option string)
  : result (list (string * Z)) :=
  match current with
  | Some c => get_inneighbors G c
  | None => Raise UnregisteredNode
  end.

(** [while current != "s"] *)
Fixpoint walk_back (fuel : nat) (G : Wdgraph Z) (dist : gmap string Z)
    (critical_path : list (option string)) (current : option string)
  : result (list (option string)) :=
  match fuel with
  | O => OutOfFuel
  | S fuel' =>
      if decide (current ≠ Some "s") then
        inn ← get_inneighbors_of G current;
        '(_, max_node) ← best_source dist None None inn;
        walk_back fuel' G dist (critical_path ++ [max_node]) max_node
      else Ok critical_path
  end.

Section Solver.
Variable pick : nat → nat.

(** The first half of [solve_max_path]: the order and the distances. *)
Definition max_distances (fuel : nat) (G : Wdgraph Z)
  : result (gmap string Z) :=
  sorted_nodes ← kahns_algorithm pick fuel G;
  let dist := initial_dist sorted_nodes (len G) in
  relax G dist sorted_nodes.

Definition solve_max_path (fuel : nat) (G : Wdgraph Z)
  : result (Z * list (option string)) :=
  dist ← max_distances fuel G;
  critical_path ← walk_back fuel G dist [Some "t"] (Some "t");
  let critical_path := rev critical_path in
  dt ← dict_get dist "t";
  Ok (dt, critical_path).

End Solver.

(** A graph built the way [generate_graph] builds one: a [set_edge] call
    for each triple, starting from [Wdgraph()]. *)
Definition graph_of_edges (es : list (string * string * Z)) : Wdgraph Z :=
  foldl (fun g e => set_edge' g e.1.1 e.1.2 e.2) empty_graph es.

(** The graph [generate_graph] builds from the task list of [app.py]. *)
Definition demo_graph : Wdgraph Z :=
  graph_of_edges
    [ ("s", "A", 2); ("s", "B", 5); ("s", "C", 8);
      ("B", "D", 14); ("C", "D", 14);
      ("D", "E", 7); ("A", "E", 7);
      ("A", "F", 30); ("B", "F", 30);
      ("E", "G", 6); ("F", "G", 6); ("D", "G", 6);
      ("D", "H", 3);
      ("G", "t", 0); ("H", "t", 0) ].

(** Two inneighbours of ["t"] with the same distance and different
    weights on their edges into ["t"]. *)
Definition tie_graph : Wdgraph Z :=
  graph_of_edges
    [ ("s", "A", 10); ("s", "B", 10); ("A", "t", 0); ("B", "t", 100) ].



(** The cycle [a→b, b→a]. *)
Definition cyclic_graph : Wdgraph Z :=
  graph_of_edges [ ("a", "b", 1); ("b", "a", 1) ].

(* ===================================================================== *)
(** * Specification vocabulary *)
(* ===================================================================== *)

Section Vocabulary.
Context {W : Type} `{EqDecision W}.

(** At most one outgoing edge between any ordered pair of handles. *)
Definition single_edges (g : Wdgraph W) : Prop :=
  ∀ n r, adj_list g !! n = Some r → NoDup (r.*1).

(** The representation invariant of the store: the two maps are inverse
    bijections between labels and the handles below [len], every handle
    has an adjacency list, targets are handles, and no adjacency list
    names a target twice. *)
Record wf (g : Wdgraph W) : Prop := MkWf {
  wf_directmap : length (directmap g) = len g;
  wf_adj_list : length (adj_list g) = len g;
  wf_hashmap : ∀ u n, hashmap g !! u = Some n ↔ directmap g !! n = Some u;
  wf_targets : ∀ n r e, adj_list g !! n = Some r → e ∈ r → (e.1 < len g)%nat;
  wf_single : single_edges g
}.

(** The graphs a caller can build: every state reached from the empty
    graph through the operations of the store, the state an operation
    leaves when it raises included. *)
Inductive reachable (wsum : list W → W) (wdiv : W → W → option W)
  : Wdgraph W → Prop :=
| reach_empty : reachable wsum wdiv empty_graph
| reach_register g u :
    reachable wsum wdiv g → reachable wsum wdiv (register_node g u).1
| reach_set_edge g u v w :
    reachable wsum wdiv g → reachable wsum wdiv (set_edge g u v w).1
| reach_remove_edge g u v g' :
    reachable wsum wdiv g → remove_edge g u v = Ok g' →
    reachable wsum wdiv g'
| reach_probability g :
    reachable wsum wdiv g →
    reachable wsum wdiv (create_probability_graph wsum wdiv g).1
| reach_copy g :
    reachable wsum wdiv g → reachable wsum wdiv (copy g).

(** [edge g u v w]: the adjacency list of [u] holds the pair of [v] and
    [w]. *)
Definition edge (g : Wdgraph W) (u v : string) (w : W) : Prop :=
  ∃ n1 n2 r, hashmap g !! u = Some n1 ∧ hashmap g !! v = Some n2 ∧
             adj_list g !! n1 = Some r ∧ (n2, w) ∈ r.

(** [arc g u v]: the store answers [get_edge u v]. *)
Definition arc (g : Wdgraph W) (u v : string) : Prop :=
  ∃ w, get_edge g u v = Ok w.

(** A directed path of at least one edge. *)
Definition path (g : Wdgraph W) : relation string := tc (arc g).

Definition acyclic (g : Wdgraph W) : Prop := ∀ u, ¬ path g u u.

Definition has_cycle (g : Wdgraph W) : Prop := ∃ u, path g u u.

(** [u] occurs in [L] at a position before an occurrence of [v]. *)
Definition before (u v : string) (L : list string) : Prop :=
  ∃ l1 l2 l3, L = l1 ++ u :: l2 ++ v :: l3.

End Vocabulary.

(** The maximum of [0] and the elements of a list. *)
Definition max0 (xs : list Z) : Z := foldr Z.max 0 xs.

(** The sum of the weights along consecutive labels of a path. *)
Fixpoint path_weight (G : Wdgraph Z) (p : list string) : result Z :=
  match p with
  | u :: (v :: _) as rest =>
      w ← get_edge G u v;
      more ← path_weight G rest;
      Ok (w + more)
  | _ => Ok 0
  end.

(* ===================================================================== *)
(** * Notions used by the proofs *)
(* ===================================================================== *)

Section ProofNotions.
Context {W : Type} `{EqDecision W}.

(** The adjacency list [raw_set_edge] leaves in place of [r]. *)
Definition set_row (n2 : nat) (w : W) (r : list (nat * W)) : list (nat * W) :=
  match overwrite n2 w r with
  | Some r' => r'
  | None => r ++ [(n2, w)]
  end.

(** The invariant of the [while] loop of [kahns_algorithm] on the input
    [g0]: the working copy [G] has lost exactly the edges that leave a node
    already in [L]; a node is in the frontier [S] or in [L] exactly when no
    edge of [G] enters it; and [L] lists the source of an edge before its
    target. *)
Record kahn_inv (g0 G : Wdgraph W) (S : gset string) (L : list string)
  : Prop := MkKahnInv {
  ki_wf : wf G;
  ki_hashmap : hashmap G = hashmap g0;
  ki_directmap : directmap G = directmap g0;
  ki_edges : ∀ a b x,
    get_edge G a b = Ok x ↔ a ∉ L ∧ get_edge g0 a b = Ok x;
  ki_nodup : NoDup L;
  ki_ready : ∀ v,
    v ∈ S ∨ v ∈ L ↔ v ∈ directmap g0 ∧ ∀ u x, get_edge G u v ≠ Ok x;
  ki_disj : ∀ v, v ∈ S → v ∉ L;
  ki_order : ∀ u v x, get_edge g0 u v = Ok x → v ∈ L → before u v L
}.

End ProofNotions.

(** Consecutive elements of a list are related. *)
Fixpoint linked {A : Type} (R : relation A) (l : list A) : Prop :=
  match l with
  | x :: (y :: _) as rest => R x y ∧ linked R rest
  | _ => True
  end.

(** [dist[u]], read as [0] where the key is missing. *)
Definition dval (dist : gmap string Z) (u : string) : Z :=
  default 0 (dist !! u).

(** The candidates [dist[u] + w] of the first pass for the pairs of
    [inn]. *)
Definition candidates (d : string → Z) (inn : list (string * Z)) : list Z :=
  (λ uw, d uw.1 + uw.2) <$> inn.

(** The recurrence the first pass of [solve_max_path] solves at [v]. *)
Definition relaxed (G : Wdgraph Z) (dist : gmap string Z) (v : string) : Prop :=
  ∃ inn, get_inneighbors G v = Ok inn ∧
         (∀ u w, (u, w) ∈ inn → is_Some (dist !! u)) ∧
         dist !! v = Some (max0 (candidates (dval dist) inn)).



(** The frontier always pops the first of its elements. *)
Definition pop_first : nat → nat := fun _ => 0%nat.

(** Python's [sum] and true division on exact rationals, which stand for
    the floats. *)
Definition qsum (xs : list QArith_base.Q) : QArith_base.Q :=
  foldr QArith_base.Qplus (QArith_base.Qmake 0 1) xs.

Definition qdiv (x y : QArith_base.Q) : option QArith_base.Q :=
  if QArith_base.Qeq_bool y (QArith_base.Qmake 0 1) then None
  else Some (QArith_base.Qdiv x y).

#[global] Instance Q_eq_dec : EqDecision QArith_base.Q.
Proof. solve_decision. Defined.

(** Frequencies [1] and [3] out of one node, turned into probabilities. *)
Definition frequency_graph : Wdgraph QArith_base.Q :=
  (create_probability_graph qsum qdiv
     (set_edge' (set_edge' empty_graph "a" "b" (QArith_base.Qmake 1 1))
                "a" "c" (QArith_base.Qmake 3 1))).1.

(* ===================================================================== *)
(** * Objects and references: the store with aliasing *)
(* ===================================================================== *)

(** In Python a [Wdgraph] is an object whose attributes refer to a dict and
    to lists, the adjacency list refers to one list per node, and each of
    these refers to two-element lists [[target, weight]] that
    [raw_set_edge] updates in place.  Here these objects live in a heap, the
    methods that mutate are programs on the heap that follow the source
    statement by statement, and [copy] allocates what [deepcopy]
    allocates.  Labels, handles and weights are immutable values. *)

Module Heap.

(** The identity of an object. *)
Abbreviation loc := nat.

Inductive obj (W : Type) : Type :=
| Dict (d : gmap string nat)        (* a dict from labels to handles *)
| Labels (l : list string)          (* a list of labels *)
| Refs (l : list loc)               (* a list of objects *)
| Pair (target : nat) (weight : W)  (* the list [target, weight] *)
| Graph (n : nat) (hm dm adj : loc) (* a Wdgraph: len, hashmap, directmap,
                                       adj_list *).

Arguments Dict {W} d.
Arguments Labels {W} l.
Arguments Refs {W} l.
Arguments Pair {W} target weight.
Arguments Graph {W} n hm dm adj.

Abbreviation heap W := (gmap loc (obj W)).

(** The calls that mutate a graph. *)
Inductive mutation (W : Type) : Type :=
| SetEdge (u v : string) (w : W)
| RemoveEdge (u v : string)
| RegisterNode (u : string).

Arguments SetEdge {W} u v w.
Arguments RemoveEdge {W} u v.
Arguments RegisterNode {W} u.

Section Model.
Context {W : Type} `{EqDecision W}.
Local Open Scope nat_scope.

(** What the mutating calls do to a value of the store. *)
Definition apply_mutation (g : Wdgraph W) (m : mutation W) : Wdgraph W :=
  match m with
  | SetEdge u v w => (set_edge g u v w).1
  | RemoveEdge u v => match remove_edge g u v with Ok g' => g' | _ => g end
  | RegisterNode u => (register_node g u).1
  end.

Definition apply_mutations (g : Wdgraph W) (ms : list (mutation W))
  : Wdgraph W :=
  foldl apply_mutation g ms.

(** A program returns or raises, and leaves a heap in both cases. *)
Definition prog (A : Type) : Type := heap W → result A * heap W.

#[global] Instance prog_ret : MRet prog := fun _ a h => (Ok a, h).

#[global] Instance prog_bind : MBind prog := fun _ _ f m h =>
  match m h with
  | (Ok a, h') => f a h'
  | (Raise e, h') => (Raise e, h')
  | (OutOfFuel, h') => (OutOfFuel, h')
  end.

Definition raise {A : Type} (e : exn) : prog A := fun h => (Raise e, h).

Definition lift {A : Type} (r : result A) : prog A := fun h => (r, h).

(** A new object gets an identity that no object of the heap has. *)
Definition alloc (o : obj W) : prog loc :=
  fun h => let l := fresh (dom h) in (Ok l, <[l := o]> h).

Definition read (l : loc) : prog (obj W) :=
  fun h => match h !! l with
           | Some o => (Ok o, h)
           | None => (Raise TypeError, h)
           end.

Definition write (l : loc) (o : obj W) : prog unit :=
  fun h => (Ok tt, <[l := o]> h).

Definition read_dict (l : loc) : prog (gmap string nat) :=
  o ← read l; match o with Dict d => mret d | _ => raise TypeError end.

Definition read_labels (l : loc) : prog (list string) :=
  o ← read l; match o with Labels x => mret x | _ => raise TypeError end.

Definition read_refs (l : loc) : prog (list loc) :=
  o ← read l; match o with Refs x => mret x | _ => raise TypeError end.

Definition read_pair (l : loc) : prog (nat * W) :=
  o ← read l;
  match o with Pair target weight => mret (target, weight)
          | _ => raise TypeError end.

Definition read_graph (l : loc) : prog (nat * loc * loc * loc) :=
  o ← read l;
  match o with Graph n hm dm adj => mret (n, hm, dm, adj)
          | _ => raise TypeError end.

(** [Wdgraph()] *)
Definition new_graph : prog loc :=
  hm ← alloc (Dict ∅);
  dm ← alloc (Labels []);
  adj ← alloc (Refs []);
  alloc (Graph 0 hm dm adj).

Definition register_node (self : loc) (u : string) : prog nat :=
  '(n, hm, dm, adj) ← read_graph self;
  d ← read_dict hm;
  match d !! u with
  | Some k => mret k
  | None =>
      write hm (Dict (<[u := n]> d));;
      l ← read_labels dm;
      write dm (Labels (l ++ [u]));;
      write self (Graph (n + 1) hm dm adj);;
      r ← alloc (Refs []);
      rows ← read_refs adj;
      write adj (Refs (rows ++ [r]));;
      mret (n + 1 - 1)
  end.

Definition map_value (self : loc) (u : string) : prog nat :=
  '(_, hm, _, _) ← read_graph self;
  d ← read_dict hm;
  match d !! u with
  | Some k => mret k
  | None => raise UnregisteredNode
  end.

(** The loop of [raw_set_edge]: the first pair with target [n2] is updated
    in place; [false] when the loop falls through. *)
Fixpoint overwrite (n2 : nat) (w : W) (ps : list loc) : prog bool :=
  match ps with
  | [] => mret false
  | p :: rest =>
      '(target, weight) ← read_pair p;
      if decide (target = n2) then write p (Pair target w);; mret true
      else overwrite n2 w rest
  end.

Definition raw_set_edge (self : loc) (n1 n2 : nat) (w : W) : prog unit :=
  '(_, _, _, adj) ← read_graph self;
  rows ← read_refs adj;
  r ← lift (index rows n1);
  ps ← read_refs r;
  found ← overwrite n2 w ps;
  if found : bool then mret tt
  else
    p ← alloc (Pair n2 w);
    ps' ← read_refs r;
    write r (Refs (ps' ++ [p])).

Definition set_edge (self : loc) (u v : string) (w : W) : prog unit :=
  n1 ← register_node self u;
  n2 ← register_node self v;
  raw_set_edge self n1 n2 w.

Fixpoint last_match (n2 : nat) (to_remove : option (nat * W)) (ps : list loc)
  : prog (option (nat * W)) :=
  match ps with
  | [] => mret to_remove
  | p :: rest =>
      '(target, weight) ← read_pair p;
      last_match n2 (if decide (target = n2) then Some (target, weight)
                     else to_remove) rest
  end.

(** [ps.remove(x)]: the first reference to a pair equal to [x] leaves the
    list. *)
Fixpoint list_remove (x : nat * W) (ps : list loc) : prog (list loc) :=
  match ps with
  | [] => raise ValueError
  | p :: rest =>
      e ← read_pair p;
      if decide (e = x) then mret rest
      else rest' ← list_remove x rest; mret (p :: rest')
  end.

Definition remove_edge (self : loc) (u v : string) : prog unit :=
  n1 ← map_value self u;
  n2 ← map_value self v;
  '(_, _, _, adj) ← read_graph self;
  rows ← read_refs adj;
  r ← lift (index rows n1);
  ps ← read_refs r;
  to_remove ← last_match n2 None ps;
  match to_remove with
  | Some x => ps' ← list_remove x ps; write r (Refs ps')
  | None => raise NoEdgeExists
  end.

(** ** [deepcopy]

    A dict of labels and handles and a list of labels get one new object;
    a list of lists gets a new object for itself and for each list below
    it.  Within one graph no list is referred to twice (see [rep]), so that
    the memo of [deepcopy] never answers. *)
Definition deepcopy_dict (l : loc) : prog loc :=
  d ← read_dict l; alloc (Dict d).

Definition deepcopy_labels (l : loc) : prog loc :=
  x ← read_labels l; alloc (Labels x).

Definition deepcopy_pair (p : loc) : prog loc :=
  '(target, weight) ← read_pair p; alloc (Pair target weight).

Fixpoint deepcopy_each (copy_one : loc → prog loc) (ls : list loc)
  : prog (list loc) :=
  match ls with
  | [] => mret []
  | l :: rest =>
      l' ← copy_one l;
      rest' ← deepcopy_each copy_one rest;
      mret (l' :: rest')
  end.

Definition deepcopy_row (r : loc) : prog loc :=
  ps ← read_refs r;
  ps' ← deepcopy_each deepcopy_pair ps;
  alloc (Refs ps').

Definition deepcopy_adj (adj : loc) : prog loc :=
  rows ← read_refs adj;
  rows' ← deepcopy_each deepcopy_row rows;
  alloc (Refs rows').

Definition copy (self : loc) : prog loc :=
  new_graph_ ← new_graph;
  '(n, hm, dm, adj) ← read_graph self;
  '(_, hm0, dm0, adj0) ← read_graph new_graph_;
  write new_graph_ (Graph n hm0 dm0 adj0);;
  hm' ← deepcopy_dict hm;
  write new_graph_ (Graph n hm' dm0 adj0);;
  dm' ← deepcopy_labels dm;
  write new_graph_ (Graph n hm' dm' adj0);;
  adj' ← deepcopy_adj adj;
  write new_graph_ (Graph n hm' dm' adj');;
  mret new_graph_.

(** ** Observations

    The value of a graph object: what is found by following its
    references. *)
Definition pair_value (h : heap W) (p : loc) : option (nat * W) :=
  match h !! p with
  | Some (Pair target weight) => Some (target, weight)
  | _ => None
  end.

Definition row_value (h : heap W) (r : loc) : option (list (nat * W)) :=
  match h !! r with
  | Some (Refs ps) => mapM (pair_value h) ps
  | _ => None
  end.

Definition value_of (h : heap W) (self : loc) : option (Wdgraph W) :=
  match h !! self with
  | Some (Graph n hm dm adj) =>
      match h !! hm, h !! dm, h !! adj with
      | Some (Dict d), Some (Labels l), Some (Refs rows) =>
          rs ← mapM (row_value h) rows;
          Some (MkWdgraph n d l rs)
      | _, _, _ => None
      end
  | _ => None
  end.

(** A method that only reads is the method of the store on the value of
    the object; it leaves the heap as it is. *)
Definition observe {A : Type} (f : Wdgraph W → result A) (self : loc)
  : prog A :=
  fun h => (match value_of h self with
            | Some g => f g
            | None => Raise TypeError
            end, h).

Definition get_edge (self : loc) (u v : string) : prog W :=
  observe (fun g => get_edge g u v) self.

Definition get_outdegree (self : loc) (u : string) : prog nat :=
  observe (fun g => get_outdegree g u) self.

Definition get_inneighbors (self : loc) (u : string)
  : prog (list (string * W)) :=
  observe (fun g => get_inneighbors g u) self.

(** [len(graph)] *)
Definition graph_len (self : loc) : prog nat :=
  observe (fun g => Ok (len g)) self.

(** ** Sequences of mutating calls *)

Definition run_mutation (self : loc) (m : mutation W) : prog unit :=
  match m with
  | SetEdge u v w => set_edge self u v w
  | RemoveEdge u v => remove_edge self u v
  | RegisterNode u => register_node self u;; mret tt
  end.

(** The heap after a sequence of calls, each on the graph object it
    names; a call that raises leaves its heap and the sequence goes on. *)
Definition run_mutations (ms : list (loc * mutation W)) (h : heap W) : heap W :=
  foldl (fun h m => (run_mutation m.1 m.2 h).2) h ms.

(** The calls of a sequence that name the object [self]. *)
Definition calls_on (self : loc) (ms : list (loc * mutation W))
  : list (mutation W) :=
  (filter (fun m => m.1 = self) ms).*2.

(** ** The representation of a graph in the heap

    [rep h self g F]: the object [self] is a graph with the value [g]; its
    dict, its two lists, the lists [l_rows F] of its nodes and the pairs
    [l_cells F] of each of these are objects of [h] with the contents of
    [g], and they are pairwise distinct objects. *)
Definition pair_at (h : heap W) (p : loc) (e : nat * W) : Prop :=
  h !! p = Some (Pair e.1 e.2).

Definition row_at (h : heap W) (r : loc) (ps : list loc) (row : list (nat * W))
  : Prop :=
  h !! r = Some (Refs ps) ∧ Forall2 (pair_at h) ps row.

Record layout : Type := MkLayout {
  l_hm : loc; l_dm : loc; l_adj : loc;
  l_rows : list loc; l_cells : list (list loc)
}.

Definition locs (self : loc) (F : layout) : list loc :=
  self :: l_hm F :: l_dm F :: l_adj F :: l_rows F ++ concat (l_cells F).

Record rep (h : heap W) (self : loc) (g : Wdgraph W) (F : layout) : Prop :=
  MkRep {
  rep_self : h !! self = Some (Graph (len g) (l_hm F) (l_dm F) (l_adj F));
  rep_hm : h !! l_hm F = Some (Dict (hashmap g));
  rep_dm : h !! l_dm F = Some (Labels (directmap g));
  rep_adj : h !! l_adj F = Some (Refs (l_rows F));
  rep_rows : Forall3 (row_at h) (l_rows F) (l_cells F) (adj_list g);
  rep_sep : NoDup (locs self F)
}.

(** How a call on the graph [self], laid out as [F] before and as [F']
    after, relates the heaps [h] before and [h'] after: no object is lost,
    the objects outside the graph are as they were, and the objects of the
    graph are objects it had or new ones. *)
Definition call_frame (h h' : heap W) (self : loc) (F F' : layout) : Prop :=
  (∀ l, is_Some (h !! l) → is_Some (h' !! l)) ∧
  (∀ l, is_Some (h !! l) → l ∉ locs self F → h' !! l = h !! l) ∧
  (∀ l, l ∈ locs self F' → l ∈ locs self F ∨ h !! l = None).

(** [hk] has every object of [h] as [h] has it. *)
Definition keeps (h hk : heap W) : Prop :=
  ∀ l, is_Some (h !! l) → hk !! l = h !! l.

(** Two represented graphs that share no object. *)
Definition apart (h : heap W) (a : loc) (ga : Wdgraph W) (Fa : layout)
    (c : loc) (gc : Wdgraph W) (Fc : layout) : Prop :=
  rep h a ga Fa ∧ rep h c gc Fc ∧ ∀ l, l ∈ locs a Fa → l ∉ locs c Fc.

(** What the four observations of the claim answer for the object [self]
    is the same in [h'] as in [h]. *)
Definition same_observations (self : loc) (h h' : heap W) : Prop :=
  (∀ u v, (get_edge self u v h').1 = (get_edge self u v h).1) ∧
  (∀ u, (get_outdegree self u h').1 = (get_outdegree self u h).1) ∧
  (graph_len self h').1 = (graph_len self h).1 ∧
  (∀ u, (get_inneighbors self u h').1 = (get_inneighbors self u h).1).

End Model.
End Heap.

(** A heap for examples: a new graph, allocated in the empty heap, to which
    [set_edge("a", "b", 1)] was applied; the graph is the object [3]. *)
Definition demo_heap : Heap.heap Z :=
  Heap.run_mutations [(3%nat, Heap.SetEdge "a" "b" 1%Z)] (Heap.new_graph ∅).2.

Definition demo_layout : Heap.layout :=
  Heap.MkLayout 0%nat 1%nat 2%nat [4%nat; 5%nat] [[6%nat]; []].

Open Scope Z_scope.

(* ===================================================================== *)
(** * Notions used by the further properties *)
(* ===================================================================== *)

Section Dividing.
Context {W : Type}.
Variable wsum : list W → W.
Variable wdiv : W → W → option W.

(** An adjacency list with its weights divided by [total], from the
    front up to the first weight whose division raises; the flag says
    whether every division went through. *)
Fixpoint divide_row (total : W) (r : list (nat * W))
  : list (nat * W) * bool :=
  match r with
  | [] => ([], true)
  | (target, weight) :: rest =>
      match wdiv weight total with
      | None => (r, false)
      | Some q =>
          let '(rest', ok) := divide_row total rest in
          ((target, q) :: rest', ok)
      end
  end.

(** The adjacency lists divided one after the other, each by the sum of
    its own weights, up to the first division that raises. *)
Fixpoint divide_rows (rows : list (list (nat * W)))
  : list (list (nat * W)) * bool :=
  match rows with
  | [] => ([], true)
  | r :: rest =>
      match divide_row (wsum (r.*2)) r with
      | (r', true) =>
          let '(rest', ok) := divide_rows rest in (r' :: rest', ok)
      | (r', false) => (r' :: rest, false)
      end
  end.

End Dividing.

(** The frequencies [1] and [3] on the edges out of ["a"]. *)
Definition frequencies : Wdgraph QArith_base.Q :=
  set_edge' (set_edge' empty_graph "a" "b" (QArith_base.Qmake 1 1))
            "a" "c" (QArith_base.Qmake 3 1).


(** [walked G dist c chain]: the backward pass of [solve_max_path], being
    at [c], goes through the nodes of [chain] one after the other, each the
    choice of the inner loop at the node before it, and stops at ["s"]. *)
Fixpoint walked (G : Wdgraph Z) (dist : gmap string Z) (c : string)
    (chain : list string) : Prop :=
  match chain with
  | [] => c = "s"
  | u :: rest =>
      c ≠ "s" ∧
      (∃ inn md, get_inneighbors G c = Ok inn ∧
                 best_source dist None None inn = Ok (md, Some u)) ∧
      walked G dist u rest
  end.

(** Two edges in a row from ["s"] to ["t"]. *)
Definition chain_graph : Wdgraph Z :=
  graph_of_edges [ ("s", "a", 2); ("a", "t", 3) ].

(* ===================================================================== *)
(** * The task list and its graph ([app.py], [generate_graph], [main]) *)
(* ===================================================================== *)

(** An entry of [json["data"]]. *)
Record task : Type := MkTask {
  task_name : string;
  dependencies : list string;
  cost : Z
}.

(** The module-level [json["data"]]. *)
Definition json : list task :=
  [ MkTask "A" [] 2;
    MkTask "B" [] 5;
    MkTask "C" [] 8;
    MkTask "D" ["B"; "C"] 14;
    MkTask "E" ["D"; "A"] 7;
    MkTask "F" ["A"; "B"] 30;
    MkTask "G" ["E"; "F"; "D"] 6;
    MkTask "H" ["D"] 3 ].

(** [graph.set_edge(u, v, w)] as a statement: the graph it leaves, or the
    exception it raises. *)
Definition call_set_edge (graph : Wdgraph Z) (u v : string) (w : Z)
  : result (Wdgraph Z) :=
  let '(graph', outcome) := set_edge graph u v w in
  _ ← outcome; Ok graph'.

(** [for dep in dependencies: is_dependency.add(dep);
    graph.set_edge(dep, task_name, cost)] *)
Fixpoint add_dependencies (graph : Wdgraph Z) (is_dependency : gset string)
    (name : string) (c : Z) (deps : list string)
  : result (Wdgraph Z * gset string) :=
  match deps with
  | [] => Ok (graph, is_dependency)
  | dep :: rest =>
      let is_dependency := is_dependency ∪ {[dep]} in
      graph ← call_set_edge graph dep name c;
      add_dependencies graph is_dependency name c rest
  end.

(** The body of [for task in data]. *)
Definition add_task (graph : Wdgraph Z) (is_dependency : gset string)
    (t : task) : result (Wdgraph Z * gset string) :=
  '(graph, is_dependency) ←
    add_dependencies graph is_dependency (task_name t) (cost t)
                     (dependencies t);
  if decide (dependencies t = []) then
    graph ← call_set_edge graph "s" (task_name t) (cost t);
    Ok (graph, is_dependency)
  else Ok (graph, is_dependency).

Fixpoint add_tasks (graph : Wdgraph Z) (is_dependency : gset string)
    (data : list task) : result (Wdgraph Z * gset string) :=
  match data with
  | [] => Ok (graph, is_dependency)
  | t :: rest =>
      '(graph, is_dependency) ← add_task graph is_dependency t;
      add_tasks graph is_dependency rest
  end.

(** [for terminal in terminals: graph.set_edge(terminal, "t", 0)] *)
Fixpoint add_terminals (graph : Wdgraph Z) (terminals : list string)
  : result (Wdgraph Z) :=
  match terminals with
  | [] => Ok graph
  | terminal :: rest =>
      graph ← call_set_edge graph terminal "t" 0;
      add_terminals graph rest
  end.

Section Generate.
(** [list(a_set)]: the elements of the set in some order. *)
Variable list_of_set : gset string → list string.

(** [generate_graph] reads the tasks from the module-level [json]; here
    they are the argument [data]. *)
Definition generate_graph (data : list task) : result (Wdgraph Z) :=
  let all_names : gset string := list_to_set (task_name <$> data) in
  let graph := empty_graph in
  let is_dependency : gset string := ∅ in
  '(graph, is_dependency) ← add_tasks graph is_dependency data;
  let terminals := list_of_set (all_names ∖ is_dependency) in
  add_terminals graph terminals.

Variable pick : nat → nat.

(** [main], up to the [print]: the pair that is printed. *)
Definition main (fuel : nat) : result (Z * list (option string)) :=
  graph ← generate_graph json;
  solve_max_path pick fuel graph.

End Generate.

(** The pair of labels [(a, b)] is one that the task [t] sets an edge
    for. *)
Definition touches (t : task) (a b : string) : Prop :=
  b = task_name t ∧
  (a ∈ dependencies t ∨ (dependencies t = [] ∧ a = "s")).

(** Every dependency of a task is the name of a task earlier in the
    list; [seen] holds the names before [data]. *)
Fixpoint in_dependency_order (seen : list string) (data : list task) : Prop :=
  match data with
  | [] => True
  | t :: rest =>
      (∀ d, d ∈ dependencies t → d ∈ seen) ∧
      in_dependency_order (seen ++ [task_name t]) rest
  end.

(** The set read in the order of [elements]. *)
Definition elements_order : gset string → list string := elements.

(** Every registered label is an end of some edge. *)
Definition covered (g : Wdgraph Z) : Prop :=
  ∀ z, is_Some (hashmap g !! z) →
       ∃ a b x, get_edge g a b = Ok x ∧ (z = a ∨ z = b).

(** The graph [generate_graph] has built when the loop over the tasks of
    [json] ends, and the dependencies it has seen. *)
Definition json_tasks_graph : Wdgraph Z :=
  graph_of_edges
    [ ("s", "A", 2); ("s", "B", 5); ("s", "C", 8);
      ("B", "D", 14); ("C", "D", 14);
      ("D", "E", 7); ("A", "E", 7);
      ("A", "F", 30); ("B", "F", 30);
      ("E", "G", 6); ("F", "G", 6); ("D", "G", 6);
      ("D", "H", 3) ].

Definition json_dependencies : gset string :=
  list_to_set ["A"; "B"; "C"; "D"; "E"; "F"].

(* ===================================================================== *)
(** * [kahns_algorithm] on graph objects *)
(* ===================================================================== *)

(** [kahns_algorithm] as a program on the heap of [Heap]: its argument is
    a graph object, [G = graph.copy()] is a second object, and
    [G.remove_edge] mutates that one. *)
Module HeapApp.
Section Kahn.
Context {W : Type} `{EqDecision W}.
Variable pick : nat → nat.
Local Open Scope nat_scope.

Definition get_nodes_without_incoming (self : Heap.loc)
  : Heap.prog (gset string) :=
  Heap.observe (W := W) get_nodes_without_incoming self.

Definition get_outneighbors (self : Heap.loc) (u : string)
  : Heap.prog (list (string * W)) :=
  Heap.observe (fun g => get_outneighbors g u) self.

Definition all_edges (self : Heap.loc) : Heap.prog (list (nat * W)) :=
  Heap.observe (fun g => Ok (all_edges g)) self.

Fixpoint kahn_visit (G : Heap.loc) (S : gset string) (n : string)
    (outs : list (string * W)) : Heap.prog (gset string) :=
  match outs with
  | [] => mret S
  | (m, weight) :: rest =>
      Heap.remove_edge (W := W) G n m;;
      inn ← Heap.get_inneighbors G m;
      kahn_visit G (if inn is [] then S ∪ {[m]} else S) n rest
  end.

Fixpoint kahn_loop (fuel i : nat) (G : Heap.loc) (S : gset string)
    (L : list string) : Heap.prog (list string) :=
  match fuel with
  | 0 => Heap.lift OutOfFuel
  | Datatypes.S fuel' =>
      if decide (size S ≠ 0) then
        '(n, S1) ← Heap.lift (set_pop (pick i) S);
        let L1 := L ++ [n] in
        outs ← get_outneighbors G n;
        S2 ← kahn_visit G S1 n outs;
        kahn_loop fuel' (i + 1) G S2 L1
      else mret L
  end.

Definition kahns_algorithm (fuel : nat) (graph : Heap.loc)
  : Heap.prog (list string) :=
  G ← Heap.copy graph;
  let L := [] in
  S ← get_nodes_without_incoming G;
  L' ← kahn_loop fuel 0 G S L;
  edges ← all_edges G;
  if edges is [] then mret L' else Heap.raise GraphHasCycle.

(** [get_nodes] returns the list object of the graph itself. *)
Definition get_nodes (self : Heap.loc) : Heap.prog Heap.loc :=
  '(_, _, dm, _) ← Heap.read_graph (W := W) self;
  mret dm.

(** The working copy [c] of [kahns_algorithm] in the heap [h'], started
    in the heap [h]: a graph of its own, made of objects that [h] did not
    have, beside the objects of [h], which are as they were. *)
Definition working_copy (h h' : Heap.heap W) (c : Heap.loc)
    (G : Wdgraph W) (F : Heap.layout) : Prop :=
  Heap.rep h' c G F ∧ Heap.keeps h h' ∧
  ∀ l, l ∈ Heap.locs c F → h !! l = None.

(** The answers of the loops of [kahns_algorithm] in [Kahn] without the
    graph, which here is in the heap. *)
Definition visit_answer (r : result (Wdgraph W * gset string))
  : result (gset string) :=
  match r with
  | Ok (_, frontier) => Ok frontier
  | Raise e => Raise e
  | OutOfFuel => OutOfFuel
  end.

Definition loop_answer (r : result (Wdgraph W * list string))
  : result (list string) :=
  match r with
  | Ok (_, order) => Ok order
  | Raise e => Raise e
  | OutOfFuel => OutOfFuel
  end.

End Kahn.
End HeapApp.

(* ===================================================================== *)
(** * Results *)
(* ===================================================================== *)

Lemma bind_Ok {A B : Type} (r : result A) (f : A → result B) (b : B) :
  r ≫= f = Ok b ↔ ∃ a, r = Ok a ∧ f a = Ok b.
Proof.
  destruct r as [a|e|]; simpl; split.
  - intros Hf. by exists a.
  - by intros (a' & [= <-] & Hf).
  - done.
  - by intros (a' & [=] & _).
  - done.
  - by intros (a' & [=] & _).
Qed.

Lemma index_Ok {A : Type} (xs : list A) (i : nat) (x : A) :
  index xs i = Ok x ↔ xs !! i = Some x.
Proof. unfold index. destruct (xs !! i); naive_solver. Qed.

Lemma elem_of_concat {A : Type} (x : A) (ls : list (list A)) :
  x ∈ concat ls ↔ ∃ l, x ∈ l ∧ l ∈ ls.
Proof.
  induction ls as [|l0 ls IH]; simpl.
  - split; [by intros ?%elem_of_nil | by intros (l & _ & ?%elem_of_nil)].
  - rewrite elem_of_app, IH. split.
    + intros [?|(l & ? & ?)]; [exists l0; split; [done|left]|].
      exists l. split; [done|by right].
    + intros (l & Hx & [->|Hl]%elem_of_cons); [by left|]. right. by exists l.
Qed.

Lemma index_lookup {A : Type} (xs : list A) (i : nat) (x : A) :
  xs !! i = Some x → index xs i = Ok x.
Proof. by intros ?%index_Ok. Qed.

(** Inverts the hypotheses that say a monadic computation returned. *)
Ltac inv_ok :=
  repeat match goal with
  | H : _ ≫= _ = Ok _ |- _ => apply bind_Ok in H as (? & ? & H)
  | H : index _ _ = Ok _ |- _ => apply index_Ok in H
  | H : Ok _ = Ok _ |- _ => injection H as H
  | H : Raise _ = Ok _ |- _ => discriminate H
  | H : OutOfFuel = Ok _ |- _ => discriminate H
  end.

(* ===================================================================== *)
(** * Adjacency lists *)
(* ===================================================================== *)

Section Rows.
Context {W : Type} `{EqDecision W}.
Implicit Types (r : list (nat * W)) (w : W) (n : nat).

Lemma find_weight_Some r n w :
  find_weight n r = Some w → (n, w) ∈ r.
Proof.
  induction r as [|[t x] r IH]; simpl; [done|].
  case_decide; subst.
  - intros [= ->]. left.
  - intros ?. right. auto.
Qed.

Lemma find_weight_None r n :
  find_weight n r = None ↔ n ∉ r.*1.
Proof.
  induction r as [|[t x] r IH]; simpl.
  - split; [intros _; apply not_elem_of_nil | done].
  - rewrite not_elem_of_cons. case_decide; subst; naive_solver.
Qed.

Lemma find_weight_elem r n w :
  NoDup (r.*1) → (n, w) ∈ r → find_weight n r = Some w.
Proof.
  induction r as [|[t x] r IH]; simpl.
  - by intros _ ?%elem_of_nil.
  - intros [Hnotin Hnd]%NoDup_cons [Heq|Hin]%elem_of_cons.
    + injection Heq as <- <-. by rewrite decide_True.
    + rewrite decide_False; [auto|].
      intros ->. apply Hnotin. by apply (list_elem_of_fmap_2 fst) in Hin.
Qed.

Lemma find_weight_iff r n w :
  NoDup (r.*1) → find_weight n r = Some w ↔ (n, w) ∈ r.
Proof. split; [apply find_weight_Some | by apply find_weight_elem]. Qed.

Lemma overwrite_None r n w :
  overwrite n w r = None ↔ n ∉ r.*1.
Proof.
  induction r as [|[t x] r IH]; simpl.
  - split; [intros _; apply not_elem_of_nil | done].
  - rewrite not_elem_of_cons. case_decide; subst; [naive_solver|].
    rewrite fmap_None. naive_solver.
Qed.

Lemma overwrite_targets r r' n w :
  overwrite n w r = Some r' → r'.*1 = r.*1.
Proof.
  revert r'. induction r as [|[t x] r IH]; simpl; intros r'; [done|].
  case_decide; subst.
  - by intros [= <-].
  - intros (r0 & Hr0 & ->)%fmap_Some. simpl. f_equal. auto.
Qed.

Lemma overwrite_length r r' n w :
  overwrite n w r = Some r' → length r' = length r.
Proof.
  intros Hr%overwrite_targets.
  by rewrite <-(length_fmap fst r'), Hr, length_fmap.
Qed.

Lemma find_weight_overwrite r r' n w k :
  overwrite n w r = Some r' →
  find_weight k r' = if decide (k = n) then Some w else find_weight k r.
Proof.
  revert r'. induction r as [|[t x] r IH]; simpl; intros r'; [done|].
  destruct (decide (t = n)) as [->|Hne].
  - intros [= <-]. simpl. repeat case_decide; congruence.
  - intros (r0 & Hr0 & ->)%fmap_Some. simpl.
    rewrite (IH _ Hr0). repeat case_decide; congruence.
Qed.

Lemma find_weight_app r r2 k :
  find_weight k (r ++ r2) =
  match find_weight k r with Some w => Some w | None => find_weight k r2 end.
Proof.
  induction r as [|[t x] r IH]; simpl; [done|]. by case_decide.
Qed.

Lemma last_match_app r n acc t w :
  last_match n acc (r ++ [(t, w)]) =
  if decide (t = n) then Some (t, w) else last_match n acc r.
Proof.
  revert acc. induction r as [|[t' x] r IH]; simpl; intros acc; [done|].
  by rewrite IH.
Qed.

Lemma last_match_None r n :
  last_match n None r = None ↔ n ∉ r.*1.
Proof.
  induction r as [|[t x] r IH] using rev_ind.
  - split; [intros _; apply not_elem_of_nil | done].
  - rewrite last_match_app, fmap_app, not_elem_of_app. simpl.
    rewrite list_elem_of_singleton. case_decide; subst; naive_solver.
Qed.

Lemma last_match_Some r n e :
  last_match n None r = Some e → e ∈ r ∧ e.1 = n.
Proof.
  revert e. induction r as [|[t x] r IH] using rev_ind; intros e; [done|].
  rewrite last_match_app. case_decide; subst.
  - intros [= <-]. split; [|done]. apply elem_of_app. right. left.
  - intros [Hin Heq]%IH. split; [|done]. apply elem_of_app. by left.
Qed.

(** What [xs.remove(e)] leaves, for an element of the list: the list
    without the first occurrence of [e]. *)
Lemma list_remove_elem r e :
  e ∈ r → ∃ r1 r2, r = r1 ++ e :: r2 ∧ list_remove e r = Ok (r1 ++ r2).
Proof.
  induction r as [|y r IH]; [by intros ?%elem_of_nil|].
  intros Hin. simpl. destruct (decide (y = e)) as [->|Hne].
  - by exists [], r.
  - apply elem_of_cons in Hin as [->|Hin]; [done|].
    destruct (IH Hin) as (r1 & r2 & -> & ->). by exists (y :: r1), r2.
Qed.

Lemma find_weight_set_row r n w k :
  find_weight k (set_row n w r) =
  if decide (k = n) then Some w else find_weight k r.
Proof.
  unfold set_row. destruct (overwrite n w r) as [r'|] eqn:Hov.
  - by apply find_weight_overwrite.
  - apply overwrite_None, find_weight_None in Hov.
    rewrite find_weight_app. simpl.
    destruct (decide (k = n)) as [->|Hne].
    + rewrite Hov. by rewrite decide_True.
    + rewrite decide_False by congruence. by destruct (find_weight k r).
Qed.

Lemma set_row_targets r n w :
  (set_row n w r).*1 = if decide (n ∈ r.*1) then r.*1 else r.*1 ++ [n].
Proof.
  unfold set_row. destruct (overwrite n w r) as [r'|] eqn:Hov.
  - rewrite decide_True.
    + by eapply overwrite_targets.
    + destruct (decide (n ∈ r.*1)) as [|Hn]; [done|].
      apply (overwrite_None r n w) in Hn. congruence.
  - apply overwrite_None in Hov. rewrite decide_False by done.
    by rewrite fmap_app.
Qed.

Lemma set_row_NoDup r n w : NoDup (r.*1) → NoDup ((set_row n w r).*1).
Proof.
  intros Hnd. rewrite set_row_targets. case_decide; [done|].
  apply NoDup_app. split_and!; [done| |apply NoDup_singleton].
  intros k Hk ->%list_elem_of_singleton. done.
Qed.

Lemma set_row_length r n w :
  n ∈ r.*1 → length (set_row n w r) = length r.
Proof.
  intros Hn. rewrite <-(length_fmap fst), set_row_targets.
  rewrite decide_True by done. by rewrite length_fmap.
Qed.

Lemma set_row_target_bound r n w (k : nat) :
  (n < k)%nat → (∀ e, e ∈ r → (e.1 < k)%nat) →
  ∀ e, e ∈ set_row n w r → (e.1 < k)%nat.
Proof.
  intros Hn Hr e He. apply (list_elem_of_fmap_2 fst) in He.
  rewrite set_row_targets in He. case_decide.
  - apply list_elem_of_fmap in He as (e' & -> & He'). auto.
  - apply elem_of_app in He as [He|He].
    + apply list_elem_of_fmap in He as (e' & -> & He'). auto.
    + apply list_elem_of_singleton in He. by rewrite He.
Qed.

Lemma find_weight_remove r1 r2 e k :
  NoDup ((r1 ++ e :: r2).*1) →
  find_weight k (r1 ++ r2) =
  if decide (k = e.1) then None else find_weight k (r1 ++ e :: r2).
Proof.
  intros Hnd. rewrite !find_weight_app. destruct e as [t x]. simpl.
  rewrite fmap_app in Hnd. simpl in Hnd.
  apply NoDup_app in Hnd as (Hnd1 & Hdisj & [Hnotin Hnd2]%NoDup_cons).
  destruct (decide (k = t)) as [->|Hne].
  - rewrite (proj2 (find_weight_None r1 t)).
    + by apply find_weight_None.
    + intros Hin. apply (Hdisj _ Hin). left.
  - rewrite (decide_False (P := t = k)) by congruence. done.
Qed.

Lemma remove_NoDup r1 r2 e :
  NoDup ((r1 ++ e :: r2).*1) → NoDup ((r1 ++ r2).*1).
Proof.
  rewrite !fmap_app. simpl. rewrite !NoDup_app, NoDup_cons.
  intros (Hnd1 & Hdisj & Hnotin & Hnd2). split_and!; try done.
  intros k Hk Hk2. apply (Hdisj _ Hk). by right.
Qed.

End Rows.

(* ===================================================================== *)
(** * The representation invariant *)
(* ===================================================================== *)

Section Graphs.
Context {W : Type} `{EqDecision W}.
Implicit Types (g : Wdgraph W) (u v a b : string) (w x : W).

Lemma wf_empty : wf (empty_graph (W := W)).
Proof.
  split; simpl; try done.
Qed.

Lemma wf_handle_lt g u n : wf g → hashmap g !! u = Some n → (n < len g)%nat.
Proof.
  intros Hwf Hu. apply (wf_hashmap g Hwf) in Hu.
  apply lookup_lt_Some in Hu. by rewrite (wf_directmap g Hwf) in Hu.
Qed.

Lemma wf_handle_row g u n :
  wf g → hashmap g !! u = Some n → ∃ r, adj_list g !! n = Some r.
Proof.
  intros Hwf Hu. apply lookup_lt_is_Some_2.
  rewrite (wf_adj_list g Hwf). by eapply wf_handle_lt.
Qed.

Lemma wf_hashmap_inj g u v n :
  wf g → hashmap g !! u = Some n → hashmap g !! v = Some n → u = v.
Proof.
  intros Hwf Hu%(wf_hashmap g Hwf) Hv%(wf_hashmap g Hwf). congruence.
Qed.

Lemma wf_registered g u :
  wf g → u ∈ directmap g ↔ is_Some (hashmap g !! u).
Proof.
  intros Hwf. rewrite list_elem_of_lookup. split.
  - intros [n Hn]. exists n. by apply (wf_hashmap g Hwf).
  - intros [n Hn]. exists n. by apply (wf_hashmap g Hwf).
Qed.

Lemma wf_directmap_NoDup g : wf g → NoDup (directmap g).
Proof.
  intros Hwf. apply NoDup_alt. intros i j u Hi Hj.
  apply (wf_hashmap g Hwf) in Hi, Hj. congruence.
Qed.

(** ** [register_node] *)

Lemma register_node_known g u n :
  hashmap g !! u = Some n → register_node g u = (g, n).
Proof. unfold register_node. by intros ->. Qed.

Lemma register_node_fresh g u :
  hashmap g !! u = None →
  register_node g u =
    (MkWdgraph (len g + 1) (<[u := len g]> (hashmap g))
               (directmap g ++ [u]) (adj_list g ++ [[]]), len g).
Proof.
  unfold register_node. intros ->. simpl. f_equal. lia.
Qed.

Lemma register_node_wf g u : wf g → wf (register_node g u).1.
Proof.
  intros Hwf. destruct (hashmap g !! u) as [n|] eqn:Hu.
  { by rewrite (register_node_known _ _ _ Hu). }
  rewrite (register_node_fresh _ _ Hu). simpl.
  destruct Hwf as [Hdm Hadj Hhm Htg Hsg]. split; simpl.
  - rewrite length_app. simpl. lia.
  - rewrite length_app. simpl. lia.
  - intros a n. destruct (decide (a = u)) as [->|Hne].
    + rewrite lookup_insert_eq. split.
      * intros [= <-]. rewrite lookup_app_r by lia.
        by rewrite Hdm, Nat.sub_diag.
      * intros Hn. destruct (decide (n < len g)%nat) as [Hlt|Hge].
        -- rewrite lookup_app_l in Hn by lia. apply Hhm in Hn. congruence.
        -- rewrite lookup_app_r in Hn by lia. rewrite Hdm in Hn.
           destruct (n - len g)%nat as [|k] eqn:Hk; [f_equal; lia|].
           by destruct k.
    + rewrite lookup_insert_ne by done. rewrite Hhm. split.
      * intros Hn. by apply lookup_app_l_Some.
      * intros Hn. destruct (decide (n < len g)%nat) as [Hlt|Hge].
        -- by rewrite lookup_app_l in Hn by lia.
        -- rewrite lookup_app_r in Hn by lia. rewrite Hdm in Hn.
           destruct (n - len g)%nat as [|k] eqn:Hk; [naive_solver|].
           by destruct k.
  - intros n r e Hn He.
    destruct (decide (n < len g)%nat) as [Hlt|Hge].
    + rewrite lookup_app_l in Hn by lia. specialize (Htg n r e Hn He). lia.
    + rewrite lookup_app_r in Hn by lia. rewrite Hadj in Hn.
      destruct (n - len g)%nat as [|k] eqn:Hk.
      * injection Hn as <-. by apply elem_of_nil in He.
      * by destruct k.
  - intros n r Hn. simpl in Hn.
    destruct (decide (n < len g)%nat) as [Hlt|Hge].
    + rewrite lookup_app_l in Hn by lia. by eapply Hsg.
    + rewrite lookup_app_r in Hn by lia. rewrite Hadj in Hn.
      destruct (n - len g)%nat as [|k] eqn:Hk.
      * injection Hn as <-. constructor.
      * by destruct k.
Qed.

Lemma register_node_lookup g u :
  hashmap (register_node g u).1 !! u = Some (register_node g u).2.
Proof.
  destruct (hashmap g !! u) as [n|] eqn:Hu.
  - by rewrite (register_node_known _ _ _ Hu).
  - rewrite (register_node_fresh _ _ Hu). simpl. apply lookup_insert_eq.
Qed.

Lemma register_node_mono g u a n :
  hashmap g !! a = Some n → hashmap (register_node g u).1 !! a = Some n.
Proof.
  intros Ha. destruct (hashmap g !! u) as [k|] eqn:Hu.
  - by rewrite (register_node_known _ _ _ Hu).
  - rewrite (register_node_fresh _ _ Hu). simpl.
    rewrite lookup_insert_ne; [done|]. intros ->. congruence.
Qed.

(** ** [get_edge] *)

Lemma get_edge_Ok g a b x :
  get_edge g a b = Ok x ↔
  ∃ na nb r, hashmap g !! a = Some na ∧ hashmap g !! b = Some nb ∧
             adj_list g !! na = Some r ∧ find_weight nb r = Some x.
Proof.
  unfold get_edge, map_value, index. split.
  - destruct (hashmap g !! a) as [na|] eqn:Ha; [|done].
    destruct (hashmap g !! b) as [nb|] eqn:Hb; [|done]. simpl.
    destruct (adj_list g !! na) as [r|] eqn:Hr; [|done]. simpl.
    destruct (find_weight nb r) as [y|] eqn:Hy; [|done].
    intros [= ->]. by exists na, nb, r.
  - intros (na & nb & r & -> & -> & Hr & Hx). simpl.
    rewrite Hr. simpl. by rewrite Hx.
Qed.

Lemma get_edge_edge g a b x :
  wf g → get_edge g a b = Ok x ↔ edge g a b x.
Proof.
  intros Hwf. rewrite get_edge_Ok. unfold edge. split.
  - intros (na & nb & r & Ha & Hb & Hr & Hx). exists na, nb, r.
    by apply find_weight_Some in Hx.
  - intros (na & nb & r & Ha & Hb & Hr & Hx). exists na, nb, r.
    split_and!; try done.
    apply find_weight_elem; [|done]. by eapply (wf_single g Hwf).
Qed.

Lemma get_edge_registered g a b x :
  get_edge g a b = Ok x →
  is_Some (hashmap g !! a) ∧ is_Some (hashmap g !! b).
Proof. rewrite get_edge_Ok. naive_solver. Qed.

(** Registering a node neither adds nor removes an edge. *)
Lemma register_node_get_edge g u a b x :
  wf g →
  get_edge (register_node g u).1 a b = Ok x ↔ get_edge g a b = Ok x.
Proof.
  intros Hwf. destruct (hashmap g !! u) as [k|] eqn:Hu.
  { by rewrite (register_node_known _ _ _ Hu). }
  rewrite (register_node_fresh _ _ Hu). simpl.
  rewrite !get_edge_Ok. simpl.
  pose proof (wf_adj_list g Hwf) as Hadj. split.
  - intros (na & nb & r & Ha & Hb & Hr & Hx).
    destruct (decide (a = u)) as [->|Hau].
    { rewrite lookup_insert_eq in Ha. injection Ha as <-.
      rewrite lookup_app_r in Hr by lia.
      rewrite Hadj, Nat.sub_diag in Hr. injection Hr as <-. done. }
    rewrite lookup_insert_ne in Ha by done.
    pose proof (wf_handle_lt _ _ _ Hwf Ha) as Hlt.
    rewrite lookup_app_l in Hr by lia.
    pose proof (find_weight_Some _ _ _ Hx) as Hin.
    pose proof (wf_targets g Hwf _ _ _ Hr Hin) as Hlt2. simpl in Hlt2.
    destruct (decide (b = u)) as [->|Hbu].
    { rewrite lookup_insert_eq in Hb. injection Hb as <-. lia. }
    rewrite lookup_insert_ne in Hb by done.
    by exists na, nb, r.
  - intros (na & nb & r & Ha & Hb & Hr & Hx). exists na, nb, r.
    rewrite !lookup_insert_ne by congruence.
    split_and!; try done. by apply lookup_app_l_Some.
Qed.

(** ** Replacing one adjacency list *)

Lemma wf_with_row g n r' :
  wf g → (∀ e, e ∈ r' → (e.1 < len g)%nat) → NoDup (r'.*1) →
  wf (with_adj g (<[n := r']> (adj_list g))).
Proof.
  intros [Hdm Hadj Hhm Htg Hsg] Hbound Hnd. split; simpl; try done.
  - by rewrite length_insert.
  - intros k r e Hk He. destruct (decide (k = n)) as [->|Hne].
    + apply list_lookup_insert_Some in Hk as [(_ & <- & _)|[? _]]; [auto|done].
    + rewrite list_lookup_insert_ne in Hk by done. by eapply Htg.
  - intros k r Hk. simpl in Hk. destruct (decide (k = n)) as [->|Hne].
    + apply list_lookup_insert_Some in Hk as [(_ & <- & _)|[? _]]; done.
    + rewrite list_lookup_insert_ne in Hk by done. by eapply Hsg.
Qed.

Lemma get_edge_with_row g n r r' a b x :
  wf g → adj_list g !! n = Some r →
  get_edge (with_adj g (<[n := r']> (adj_list g))) a b = Ok x ↔
  ∃ na nb, hashmap g !! a = Some na ∧ hashmap g !! b = Some nb ∧
    if decide (na = n) then find_weight nb r' = Some x
    else get_edge g a b = Ok x.
Proof.
  intros Hwf Hn. rewrite get_edge_Ok. simpl. split.
  - intros (na & nb & r0 & Ha & Hb & Hr & Hx). exists na, nb.
    split_and!; try done. case_decide as Hna.
    + subst na. rewrite list_lookup_insert_eq in Hr.
      * by injection Hr as <-.
      * by eapply lookup_lt_Some.
    + rewrite list_lookup_insert_ne in Hr by done.
      apply get_edge_Ok. by exists na, nb, r0.
  - intros (na & nb & Ha & Hb & Hx). case_decide as Hna.
    + subst na. exists n, nb, r'. split_and!; try done.
      apply list_lookup_insert_eq. by eapply lookup_lt_Some.
    + apply get_edge_Ok in Hx as (na' & nb' & r0 & Ha' & Hb' & Hr & Hx).
      assert (na' = na) as -> by congruence.
      assert (nb' = nb) as -> by congruence.
      exists na, nb, r0. split_and!; try done.
      by rewrite list_lookup_insert_ne.
Qed.

(** ** [raw_set_edge] and [set_edge] *)

Lemma raw_set_edge_row g n1 n2 w r :
  adj_list g !! n1 = Some r →
  raw_set_edge g n1 n2 w =
    Ok (with_adj g (<[n1 := set_row n2 w r]> (adj_list g))).
Proof.
  intros Hr. unfold raw_set_edge, set_row. rewrite (index_lookup _ _ _ Hr).
  simpl. by destruct (overwrite n2 w r).
Qed.

(** [set_edge] on a well-formed graph: it returns, the graph stays
    well-formed, the edge [u]→[v] has weight [w], and every other edge is
    as it was. *)
Lemma set_edge_spec g u v w :
  wf g →
  ∃ g', set_edge g u v w = (g', Ok tt) ∧ wf g' ∧
    ∀ a b x, get_edge g' a b = Ok x ↔
      (a = u ∧ b = v ∧ x = w) ∨ (¬ (a = u ∧ b = v) ∧ get_edge g a b = Ok x).
Proof.
  intros Hwf. unfold set_edge.
  pose proof (register_node_wf g u Hwf) as Hwf1.
  pose proof (register_node_lookup g u) as Hu1.
  pose proof (λ a b x, register_node_get_edge g u a b x Hwf) as He1.
  destruct (register_node g u) as [g1 n1]. simpl in *.
  pose proof (register_node_wf g1 v Hwf1) as Hwf2.
  pose proof (register_node_lookup g1 v) as Hv2.
  pose proof (register_node_mono g1 v u n1 Hu1) as Hu2.
  pose proof (λ a b x, register_node_get_edge g1 v a b x Hwf1) as He2.
  destruct (register_node g1 v) as [g2 n2]. simpl in *.
  destruct (wf_handle_row _ _ _ Hwf2 Hu2) as [r Hr].
  rewrite (raw_set_edge_row _ _ _ _ _ Hr).
  eexists. split; [done|]. split.
  - apply wf_with_row; [done| |].
    + apply set_row_target_bound; [by eapply wf_handle_lt|].
      intros e He. by eapply (wf_targets g2 Hwf2).
    + apply set_row_NoDup. by eapply (wf_single g2 Hwf2).
  - intros a b x. rewrite (get_edge_with_row _ _ _ _ _ _ _ Hwf2 Hr). split.
    + intros (na & nb & Ha & Hb & Hx). case_decide as Hna.
      * subst na. assert (a = u) as -> by by eapply wf_hashmap_inj.
        rewrite find_weight_set_row in Hx. case_decide as Hnb.
        -- subst nb. assert (b = v) as -> by by eapply wf_hashmap_inj.
           left. naive_solver.
        -- right. split; [intros [_ ->]; congruence|].
           apply He1, He2, get_edge_Ok. by exists n1, nb, r.
      * right. split; [intros [-> _]; congruence|]. by apply He1, He2.
    + intros [(-> & -> & ->)|[Hne Hx]].
      * exists n1, n2. split_and!; try done. rewrite decide_True by done.
        rewrite find_weight_set_row. by rewrite decide_True.
      * apply He1, He2 in Hx.
        pose proof Hx as (na & nb & r0 & Ha & Hb & Hr0 & Hx0)%get_edge_Ok.
        exists na, nb. split_and!; try done. case_decide as Hna; [|done].
        subst na. assert (r0 = r) as -> by congruence.
        rewrite find_weight_set_row. rewrite decide_False; [done|].
        intros ->. apply Hne. split; by eapply wf_hashmap_inj.
Qed.

Lemma set_edge'_wf g u v w : wf g → wf (set_edge' g u v w).
Proof.
  intros Hwf. unfold set_edge'.
  destruct (set_edge_spec g u v w Hwf) as (g' & -> & Hwf' & _). done.
Qed.

(** Overwriting an existing edge leaves the out-degree as it was. *)
Lemma set_edge_outdegree g u v w x :
  wf g → get_edge g u v = Ok x →
  get_outdegree (set_edge' g u v w) u = get_outdegree g u.
Proof.
  intros Hwf (n1 & n2 & r & Hu & Hv & Hr & Hx)%get_edge_Ok.
  unfold set_edge', set_edge.
  rewrite (register_node_known _ _ _ Hu), (register_node_known _ _ _ Hv).
  rewrite (raw_set_edge_row _ _ _ _ _ Hr). simpl.
  unfold get_outdegree, map_value. simpl. rewrite Hu. simpl.
  rewrite (index_lookup _ _ (set_row n2 w r)).
  - rewrite (index_lookup _ _ _ Hr). simpl. f_equal.
    apply set_row_length. apply find_weight_Some in Hx.
    by apply (list_elem_of_fmap_2 fst) in Hx.
  - apply list_lookup_insert_eq. by eapply lookup_lt_Some.
Qed.

(** ** [remove_edge] *)

Lemma remove_edge_Ok g u v g' :
  remove_edge g u v = Ok g' →
  ∃ n1 n2 r1 e r2,
    hashmap g !! u = Some n1 ∧ hashmap g !! v = Some n2 ∧
    adj_list g !! n1 = Some (r1 ++ e :: r2) ∧ e.1 = n2 ∧
    g' = with_adj g (<[n1 := r1 ++ r2]> (adj_list g)).
Proof.
  unfold remove_edge, map_value, index.
  destruct (hashmap g !! u) as [n1|] eqn:Hu; [|done].
  destruct (hashmap g !! v) as [n2|] eqn:Hv; [|done]. simpl.
  destruct (adj_list g !! n1) as [r|] eqn:Hr; [|done]. simpl.
  destruct (last_match n2 None r) as [e|] eqn:He; [|done].
  apply last_match_Some in He as [Hin Heq].
  destruct (list_remove_elem _ _ Hin) as (r1 & r2 & -> & ->). simpl.
  intros [= <-]. by exists n1, n2, r1, e, r2.
Qed.

Lemma remove_edge_wf g u v g' : wf g → remove_edge g u v = Ok g' → wf g'.
Proof.
  intros Hwf (n1 & n2 & r1 & e & r2 & Hu & Hv & Hr & He & ->)%remove_edge_Ok.
  apply wf_with_row; [done| |].
  - intros e' He'. eapply (wf_targets g Hwf _ _ _ Hr).
    apply elem_of_app in He' as [?|?]; apply elem_of_app; [by left|].
    right. by right.
  - eapply remove_NoDup. by eapply (wf_single g Hwf).
Qed.

(** Removing an existing edge: it returns, labels and handles stay, and
    exactly that edge is gone. *)
Lemma remove_edge_spec g u v x :
  wf g → get_edge g u v = Ok x →
  ∃ g', remove_edge g u v = Ok g' ∧ wf g' ∧
    hashmap g' = hashmap g ∧ directmap g' = directmap g ∧ len g' = len g ∧
    ∀ a b y, get_edge g' a b = Ok y ↔
      ¬ (a = u ∧ b = v) ∧ get_edge g a b = Ok y.
Proof.
  intros Hwf (n1 & n2 & r & Hu & Hv & Hr & Hx)%get_edge_Ok.
  assert (∃ g', remove_edge g u v = Ok g') as [g' Hrem].
  { unfold remove_edge, map_value. rewrite Hu, Hv. simpl.
    rewrite (index_lookup _ _ _ Hr). simpl.
    destruct (last_match n2 None r) as [e|] eqn:He.
    - apply last_match_Some in He as [Hin _].
      destruct (list_remove_elem _ _ Hin) as (r1 & r2 & _ & ->). simpl. eauto.
    - apply last_match_None in He. apply find_weight_Some in Hx.
      apply (list_elem_of_fmap_2 fst) in Hx. done. }
  exists g'. split; [done|]. split; [by eapply remove_edge_wf|].
  apply remove_edge_Ok in Hrem
    as (n1' & n2' & r1 & e & r2 & Hu' & Hv' & Hr' & He & ->).
  assert (n1' = n1) as -> by congruence.
  assert (n2' = n2) as -> by congruence.
  assert (r = r1 ++ e :: r2) as -> by congruence.
  split_and!; try done.
  pose proof (wf_single g Hwf _ _ Hr) as Hnd.
  intros a b y. rewrite (get_edge_with_row _ _ _ _ _ _ _ Hwf Hr). split.
  - intros (na & nb & Ha & Hb & Hy). case_decide as Hna.
    + subst na. assert (a = u) as -> by by eapply wf_hashmap_inj.
      rewrite (find_weight_remove _ _ _ _ Hnd) in Hy.
      case_decide as Hnb; [done|]. split.
      * intros [_ ->]. congruence.
      * apply get_edge_Ok. by exists n1, nb, (r1 ++ e :: r2).
    + split; [|done]. intros [-> _]. congruence.
  - intros [Hne Hy].
    pose proof Hy as (na & nb & r0 & Ha & Hb & Hr0 & Hy0)%get_edge_Ok.
    exists na, nb. split_and!; try done. case_decide as Hna; [|done].
    subst na. assert (r0 = r1 ++ e :: r2) as -> by congruence.
    rewrite (find_weight_remove _ _ _ _ Hnd). rewrite decide_False; [done|].
    intros ->. apply Hne. split; eapply wf_hashmap_inj; eauto. congruence.
Qed.

(** ** [create_probability_graph] *)

Lemma raw_set_edge_wf g n1 n2 w g' :
  wf g → (n2 < len g)%nat → raw_set_edge g n1 n2 w = Ok g' → wf g'.
Proof.
  intros Hwf Hn2 Hg'. destruct (adj_list g !! n1) as [r|] eqn:Hr.
  - rewrite (raw_set_edge_row _ _ _ _ _ Hr) in Hg'. injection Hg' as <-.
    apply wf_with_row; [done| |].
    + apply set_row_target_bound; [done|].
      intros e He. by eapply (wf_targets g Hwf).
    + apply set_row_NoDup. by eapply (wf_single g Hwf).
  - unfold raw_set_edge, index in Hg'. by rewrite Hr in Hg'.
Qed.

Lemma normalise_row_wf wdiv g source total i k :
  wf g → wf (normalise_row wdiv g source total i k).1.
Proof.
  revert g i. induction k as [|k IH]; intros g i Hwf; simpl; [done|].
  destruct (adj_list g !! source) as [r|] eqn:Hr; simpl; [|done].
  destruct (r !! i) as [[target weight]|] eqn:Hi; [|done].
  destruct (wdiv weight total) as [q|]; [|done].
  destruct (raw_set_edge g source target q) as [g'| |] eqn:Hset; try done.
  apply IH. eapply raw_set_edge_wf; [done| |done].
  apply list_elem_of_lookup_2 in Hi.
  apply (wf_targets g Hwf _ _ _ Hr Hi).
Qed.

Lemma normalise_from_wf wsum wdiv g source k :
  wf g → wf (normalise_from wsum wdiv g source k).1.
Proof.
  revert g source. induction k as [|k IH]; intros g source Hwf; simpl; [done|].
  destruct (adj_list g !! source) as [r|] eqn:Hr; [|done].
  pose proof (normalise_row_wf wdiv g source (wsum r.*2) 0 (length r) Hwf)
    as Hwf'.
  destruct (normalise_row wdiv g source (wsum r.*2) 0 (length r))
    as [g' [[]| |]]; simpl in *; try done.
  by apply IH.
Qed.

Lemma create_probability_graph_wf wsum wdiv g :
  wf g → wf (create_probability_graph wsum wdiv g).1.
Proof. apply normalise_from_wf. Qed.

Lemma copy_wf g : wf g → wf (copy g).
Proof. by intros []. Qed.

(** Every graph built through the operations of the store satisfies the
    representation invariant. *)
Lemma reachable_wf wsum wdiv g : reachable wsum wdiv g → wf g.
Proof.
  induction 1 as [|g u _ IH|g u v w _ IH|g u v g' _ IH Hrem|g _ IH|g _ IH].
  - apply wf_empty.
  - by apply register_node_wf.
  - by apply set_edge'_wf.
  - by eapply remove_edge_wf.
  - by apply create_probability_graph_wf.
  - by apply copy_wf.
Qed.

(** ** The neighbour queries *)

Lemma label_row_spec (dm : list string) (r : list (nat * W)) :
  (∀ e, e ∈ r → (e.1 < length dm)%nat) →
  ∃ outs, label_row dm r = Ok outs ∧
    (∀ l x, (l, x) ∈ outs ↔ ∃ t, dm !! t = Some l ∧ (t, x) ∈ r) ∧
    (NoDup dm → NoDup (r.*1) → NoDup (outs.*1)).
Proof.
  induction r as [|[t x] r IH]; intros Hb; simpl.
  - exists []. split; [done|]. split; [|constructor].
    intros l y. split; [by intros ?%elem_of_nil|].
    by intros (? & _ & ?%elem_of_nil).
  - destruct IH as (outs & -> & Hmem & Hnd).
    { intros e He. apply Hb. by right. }
    destruct (lookup_lt_is_Some_2 dm t) as [l Hl].
    { apply (Hb (t, x)). left. }
    rewrite (index_lookup _ _ _ Hl). simpl.
    exists ((l, x) :: outs). split; [done|]. split.
    + intros l' y. rewrite elem_of_cons, Hmem. split.
      * intros [[= -> ->]|(t' & Ht' & Hin)].
        -- exists t. split; [done|]. left.
        -- exists t'. split; [done|]. by right.
      * intros (t' & Ht' & [[= -> ->]|Hin]%elem_of_cons).
        -- left. congruence.
        -- right. by exists t'.
    + intros Hdm [Hnotin Hr]%NoDup_cons. simpl. apply NoDup_cons.
      split; [|by apply Hnd].
      intros (o & Ho1 & Ho)%list_elem_of_fmap. destruct o as [l' y].
      simpl in Ho1. subst l'. apply Hmem in Ho as (t' & Ht' & Hin).
      assert (t' = t) as -> by exact (NoDup_lookup _ _ _ _ Hdm Ht' Hl).
      apply Hnotin. by apply (list_elem_of_fmap_2 fst) in Hin.
Qed.

Lemma get_outneighbors_spec g n n1 :
  wf g → hashmap g !! n = Some n1 →
  ∃ outs, get_outneighbors g n = Ok outs ∧ NoDup (outs.*1) ∧
    ∀ m x, (m, x) ∈ outs ↔ get_edge g n m = Ok x.
Proof.
  intros Hwf Hn. destruct (wf_handle_row _ _ _ Hwf Hn) as [r Hr].
  destruct (label_row_spec (directmap g) r) as (outs & Hout & Hmem & Hnd).
  { intros e He. rewrite (wf_directmap g Hwf).
    by eapply (wf_targets g Hwf). }
  exists outs. unfold get_outneighbors, map_value. rewrite Hn. simpl.
  rewrite (index_lookup _ _ _ Hr). simpl. split; [done|]. split.
  - apply Hnd; [by apply wf_directmap_NoDup | by eapply (wf_single g Hwf)].
  - intros m x. rewrite Hmem, (get_edge_edge _ _ _ _ Hwf). unfold edge. split.
    + intros (t & Ht & Hin). exists n1, t, r. split_and!; try done.
      by apply (wf_hashmap g Hwf).
    + intros (n1' & n2 & r' & Hn' & Hm & Hr' & Hin).
      assert (n1' = n1) as -> by congruence.
      assert (r' = r) as -> by congruence.
      exists n2. split; [|done]. by apply (wf_hashmap g Hwf).
Qed.

Lemma scan_outs_spec (dm : list string) (n m : nat) (outs : list (nat * W)) l :
  dm !! m = Some l →
  ∃ here, scan_outs dm n m outs = Ok here ∧
    ∀ u x, (u, x) ∈ here ↔ u = l ∧ (n, x) ∈ outs.
Proof.
  intros Hl. induction outs as [|[t y] outs (here & IH & Hmem)]; simpl.
  - exists []. split; [done|]. intros u x.
    split; [by intros ?%elem_of_nil | by intros [_ ?%elem_of_nil]].
  - case_decide as Ht.
    + subst t. rewrite (index_lookup _ _ _ Hl), IH. simpl.
      exists ((l, y) :: here). split; [done|]. intros u x.
      rewrite !elem_of_cons, Hmem. naive_solver.
    + exists here. split; [done|]. intros u x.
      rewrite elem_of_cons, Hmem. naive_solver.
Qed.

Lemma scan_adj_spec (dm : list string) (n k : nat) (adj : list (list (nat * W))) :
  (k + length adj ≤ length dm)%nat →
  ∃ inn, scan_adj dm n k adj = Ok inn ∧
    ∀ u x, (u, x) ∈ inn ↔
      ∃ i r, adj !! i = Some r ∧ dm !! (k + i)%nat = Some u ∧ (n, x) ∈ r.
Proof.
  revert k. induction adj as [|outs adj IH]; intros k Hlen; simpl.
  - exists []. split; [done|]. intros u x. split; [by intros ?%elem_of_nil|].
    by intros (i & r & Hi & _).
  - simpl in Hlen. destruct (lookup_lt_is_Some_2 dm k) as [l Hl]; [lia|].
    destruct (scan_outs_spec dm n k outs l Hl) as (here & -> & Hhere).
    destruct (IH (S k)) as (more & -> & Hmore); [lia|]. simpl.
    exists (here ++ more). split; [done|]. intros u x.
    rewrite elem_of_app, Hhere, Hmore. split.
    + intros [[-> Hin]|(i & r & Hi & Hu & Hin)].
      * exists 0%nat, outs. by rewrite Nat.add_0_r.
      * exists (S i), r. by rewrite Nat.add_succ_r.
    + intros ([|i] & r & Hi & Hu & Hin); simpl in Hi.
      * injection Hi as <-. rewrite Nat.add_0_r in Hu. left.
        split; [congruence|done].
      * right. exists i, r. by rewrite Nat.add_succ_r in Hu.
Qed.

Lemma get_inneighbors_spec g m n :
  wf g → hashmap g !! m = Some n →
  ∃ inn, get_inneighbors g m = Ok inn ∧
    ∀ u x, (u, x) ∈ inn ↔ get_edge g u m = Ok x.
Proof.
  intros Hwf Hm.
  destruct (scan_adj_spec (directmap g) n 0 (adj_list g)) as (inn & Hinn & Hmem).
  { rewrite (wf_directmap g Hwf), (wf_adj_list g Hwf). lia. }
  exists inn. unfold get_inneighbors, map_value. rewrite Hm. simpl.
  split; [done|]. intros u x.
  rewrite Hmem, (get_edge_edge _ _ _ _ Hwf). unfold edge. split.
  - intros (i & r & Hi & Hu & Hin). exists i, n, r. split_and!; try done.
    by apply (wf_hashmap g Hwf).
  - intros (n1 & n2 & r & Hu & Hm' & Hr & Hin).
    assert (n2 = n) as -> by congruence.
    exists n1, r. split_and!; try done. by apply (wf_hashmap g Hwf).
Qed.

Lemma get_inneighbors_unregistered g m :
  hashmap g !! m = None → get_inneighbors g m = Raise UnregisteredNode.
Proof. intros Hm. unfold get_inneighbors, map_value. by rewrite Hm. Qed.

Lemma targets_of_spec (dm : list string) acc (es : list (nat * W)) :
  (∀ e, e ∈ es → (e.1 < length dm)%nat) →
  ∃ S : gset string, targets_of dm acc es = Ok S ∧
    ∀ l, l ∈ S ↔ l ∈ acc ∨ ∃ e, e ∈ es ∧ dm !! e.1 = Some l.
Proof.
  revert acc. induction es as [|[t y] es IH]; intros acc Hb; simpl.
  - exists acc. split; [done|]. intros l. split; [by left|].
    intros [?|(e & ?%elem_of_nil & _)]; done.
  - destruct (lookup_lt_is_Some_2 dm t) as [l Hl].
    { apply (Hb (t, y)). left. }
    rewrite (index_lookup _ _ _ Hl). simpl.
    destruct (IH (acc ∪ {[l]})) as (S & -> & HS).
    { intros e He. apply Hb. by right. }
    exists S. split; [done|]. intros l'.
    rewrite HS, elem_of_union, elem_of_singleton. split.
    + intros [[?| ->]|(e & He & Hl')]; [by left| |].
      * right. exists (t, y). split; [left|done].
      * right. exists e. split; [by right|done].
    + intros [?|(e & [->|He]%elem_of_cons & Hl')].
      * left. by left.
      * left. right. simpl in Hl'. congruence.
      * right. by exists e.
Qed.

Lemma with_incoming_of_spec (dm : list string) acc (adj : list (list (nat * W))) :
  (∀ r e, r ∈ adj → e ∈ r → (e.1 < length dm)%nat) →
  ∃ S : gset string, with_incoming_of dm acc adj = Ok S ∧
    ∀ l, l ∈ S ↔ l ∈ acc ∨ ∃ r e, r ∈ adj ∧ e ∈ r ∧ dm !! e.1 = Some l.
Proof.
  revert acc. induction adj as [|r0 adj IH]; intros acc Hb; simpl.
  - exists acc. split; [done|]. intros l. split; [by left|].
    intros [?|(r & e & ?%elem_of_nil & _)]; done.
  - destruct (targets_of_spec dm acc r0) as (S0 & -> & HS0).
    { intros e He. apply (Hb r0); [left|done]. }
    simpl. destruct (IH S0) as (S & -> & HS).
    { intros r e Hr He. apply (Hb r); [by right|done]. }
    exists S. split; [done|]. intros l. rewrite HS, HS0. split.
    + intros [[?|(e & He & Hl)]|(r & e & Hr & He & Hl)]; [by left| |].
      * right. exists r0, e. split; [left|done].
      * right. exists r, e. split; [by right|done].
    + intros [?|(r & e & [->|Hr]%elem_of_cons & He & Hl)].
      * left. by left.
      * left. right. by exists e.
      * right. by exists r, e.
Qed.

Lemma get_nodes_without_incoming_spec g :
  wf g →
  ∃ S : gset string, get_nodes_without_incoming g = Ok S ∧
    ∀ v, v ∈ S ↔ v ∈ directmap g ∧ ∀ u x, get_edge g u v ≠ Ok x.
Proof.
  intros Hwf.
  destruct (with_incoming_of_spec (directmap g) ∅ (adj_list g))
    as (WI & HWI & Hmem).
  { intros r e (n & Hn)%list_elem_of_lookup He.
    rewrite (wf_directmap g Hwf). by eapply (wf_targets g Hwf). }
  unfold get_nodes_without_incoming. rewrite HWI. simpl.
  eexists. split; [done|]. intros v.
  rewrite elem_of_difference, elem_of_list_to_set, Hmem.
  split; intros [Hv Hno]; (split; [done|]).
  - intros u x (n1 & n2 & r & Hu & Hv' & Hr & Hin)%(get_edge_edge _ _ _ _ Hwf).
    apply Hno. right. exists r, (n2, x). split_and!; [|done|].
    + by eapply list_elem_of_lookup_2.
    + by apply (wf_hashmap g Hwf).
  - intros [?%not_elem_of_empty|(r & [t x] & (n1 & Hr)%list_elem_of_lookup & He & Hl)];
      [done|]. simpl in Hl.
    destruct (lookup_lt_is_Some_2 (directmap g) n1) as [u Hu].
    { rewrite (wf_directmap g Hwf), <-(wf_adj_list g Hwf).
      by eapply lookup_lt_Some. }
    apply (Hno u x), (get_edge_edge _ _ _ _ Hwf). exists n1, t, r.
    split_and!; try done; by apply (wf_hashmap g Hwf).
Qed.

Lemma all_edges_cons g e es :
  wf g → all_edges g = e :: es → ∃ a b x, get_edge g a b = Ok x.
Proof.
  intros Hwf Hc. unfold all_edges in Hc. destruct e as [t x].
  assert ((t, x) ∈ concat (adj_list g)) as Hin by (rewrite Hc; left).
  apply elem_of_concat in Hin as (r & Hin & (n1 & Hr)%list_elem_of_lookup).
  destruct (lookup_lt_is_Some_2 (directmap g) n1) as [a Ha].
  { rewrite (wf_directmap g Hwf), <-(wf_adj_list g Hwf).
    by eapply lookup_lt_Some. }
  destruct (lookup_lt_is_Some_2 (directmap g) t) as [b Hb].
  { rewrite (wf_directmap g Hwf). apply (wf_targets g Hwf _ _ _ Hr Hin). }
  exists a, b, x. apply (get_edge_edge _ _ _ _ Hwf).
  exists n1, t, r. split_and!; try done; by apply (wf_hashmap g Hwf).
Qed.

Lemma all_edges_nil g :
  wf g → all_edges g = [] ↔ ∀ a b x, get_edge g a b ≠ Ok x.
Proof.
  intros Hwf. split.
  - intros Hnil a b x (n1 & n2 & r & _ & _ & Hr & Hin)%(get_edge_edge _ _ _ _ Hwf).
    assert ((n2, x) ∈ concat (adj_list g)) as Hc.
    { apply elem_of_concat. exists r. split; [done|].
      by eapply list_elem_of_lookup_2. }
    unfold all_edges in Hnil. rewrite Hnil in Hc. by apply elem_of_nil in Hc.
  - intros Hno. destruct (all_edges g) as [|e es] eqn:Hc; [done|].
    destruct (all_edges_cons g e es Hwf Hc) as (a & b & x & Hx).
    by destruct (Hno a b x).
Qed.

End Graphs.

(* ===================================================================== *)
(** * Orders and cycles *)
(* ===================================================================== *)

Section Chains.
Context {A : Type} `{EqDecision A}.
Implicit Types (R : relation A) (l : list A).

Lemma linked_cons R x l :
  linked R (x :: l) ↔ match l with [] => True | y :: _ => R x y ∧ linked R l end.
Proof. by destruct l. Qed.

Lemma linked_app_r R l1 l2 : linked R (l1 ++ l2) → linked R l2.
Proof.
  induction l1 as [|x l1 IH]; [done|]. simpl app. rewrite linked_cons.
  destruct (l1 ++ l2) eqn:Heq; [|naive_solver].
  apply app_eq_nil in Heq as [_ ->]. done.
Qed.

Lemma linked_app_l R l1 x l2 : linked R (l1 ++ x :: l2) → linked R (l1 ++ [x]).
Proof.
  induction l1 as [|y l1 IH]; [done|]. simpl app. rewrite !linked_cons.
  destruct l1 as [|z l1]; simpl in *; naive_solver.
Qed.

(** A linked list of at least two elements is a path from its first to
    its last element. *)
Lemma linked_tc R x l y : linked R (x :: l ++ [y]) → tc R x y.
Proof.
  revert x. induction l as [|z l IH]; intros x; simpl.
  - intros [Hxy _]. by apply tc_once.
  - intros [Hxz Hl]. eapply tc_l; [done|]. by apply IH.
Qed.

Lemma not_NoDup_split l :
  ¬ NoDup l → ∃ x l1 l2 l3, l = l1 ++ x :: l2 ++ x :: l3.
Proof.
  induction l as [|a l IH]; intros Hnd.
  - destruct Hnd. constructor.
  - destruct (decide (a ∈ l)) as [Hin|Hnotin].
    + apply list_elem_of_split in Hin as (l2 & l3 & ->). by exists a, [], l2, l3.
    + destruct IH as (x & l1 & l2 & l3 & ->).
      { intros Hl. apply Hnd. by constructor. }
      by exists x, (a :: l1), l2, l3.
Qed.

(** In a finite relation where every node with a successor has a
    predecessor, a single edge yields a cycle. *)
Lemma backward_chain_cycle R (dm : list A) a0 b0 :
  (∀ a b, R a b → a ∈ dm) →
  (∀ a b, R a b → ∃ u, R u a) →
  R a0 b0 → ∃ c, tc R c c.
Proof.
  intros Hsrc Hpred Hab.
  assert (∀ k, ∃ x l, length l = k ∧ linked R (x :: l) ∧
            (∀ y, y ∈ x :: l → y ∈ dm) ∧ ∃ b, R x b) as Hchain.
  { induction k as [|k (x & l & Hlen & Hl & Hin & b & Hxb)].
    - exists a0, []. split_and!; try done; [|by exists b0].
      intros y ->%list_elem_of_singleton. by eapply Hsrc.
    - destruct (Hpred _ _ Hxb) as [u Hu]. exists u, (x :: l).
      split_and!; [by rewrite <-Hlen|done| |by exists x].
      intros y [->|Hy]%elem_of_cons; [by eapply Hsrc|auto]. }
  destruct (Hchain (length dm)) as (x & l & Hlen & Hl & Hin & _).
  destruct (not_NoDup_split (x :: l)) as (c & l1 & l2 & l3 & Heq).
  { intros Hnd. apply NoDup_submseteq in Hin; [|done].
    apply submseteq_length in Hin. simpl in Hin. lia. }
  exists c. rewrite Heq in Hl. apply linked_app_r in Hl.
  apply (linked_tc R c l2 c).
  change (c :: l2 ++ [c]) with ((c :: l2) ++ [c]).
  apply (linked_app_l R (c :: l2) c l3). done.
Qed.

Lemma before_lookup (u v : A) l :
  (∃ l1 l2 l3, l = l1 ++ u :: l2 ++ v :: l3) ↔
  ∃ i j, l !! i = Some u ∧ l !! j = Some v ∧ (i < j)%nat.
Proof.
  split.
  - intros (l1 & l2 & l3 & ->).
    exists (length l1), (length l1 + S (length l2))%nat. split_and!; [| |lia].
    + by rewrite list_lookup_middle.
    + rewrite lookup_app_r by lia.
      replace (length l1 + S (length l2) - length l1)%nat
        with (S (length l2)) by lia.
      simpl. by rewrite list_lookup_middle.
  - intros (i & j & Hi & Hj & Hlt).
    apply list_elem_of_split_length in Hi as (l1 & l' & -> & ->).
    rewrite lookup_app_r in Hj by lia.
    destruct (j - length l1)%nat as [|k] eqn:Hk; [lia|]. simpl in Hj.
    apply list_elem_of_split_length in Hj as (l2 & l3 & -> & _).
    by exists l1, l2, l3.
Qed.

(** A relation that agrees with the positions of a duplicate-free list
    has no cycle. *)
Lemma ordered_acyclic R l :
  NoDup l →
  (∀ u v, R u v → ∃ i j, l !! i = Some u ∧ l !! j = Some v ∧ (i < j)%nat) →
  ∀ c, ¬ tc R c c.
Proof.
  intros Hnd Hord.
  assert (∀ u v, tc R u v →
            ∃ i j, l !! i = Some u ∧ l !! j = Some v ∧ (i < j)%nat) as Htc.
  { induction 1 as [u v Huv|u m v Hum _ (j' & k & Hj' & Hk & Hlt)]; [auto|].
    destruct (Hord _ _ Hum) as (i & j & Hi & Hj & Hlt').
    assert (j' = j) as -> by exact (NoDup_lookup _ _ _ _ Hnd Hj' Hj).
    exists i, k. split_and!; try done. lia. }
  intros c (i & j & Hi & Hj & Hlt)%Htc.
  assert (i = j) by exact (NoDup_lookup _ _ _ _ Hnd Hi Hj). lia.
Qed.

End Chains.

(* ===================================================================== *)
(** * Kahn's algorithm *)
(* ===================================================================== *)

Lemma set_pop_spec (choice : nat) (S : gset string) :
  size S ≠ 0%nat → ∃ n, set_pop choice S = Ok (n, S ∖ {[n]}) ∧ n ∈ S.
Proof.
  intros Hsize. unfold set_pop.
  assert (length (elements S) ≠ 0)%nat as Hlen by done.
  destruct (lookup_lt_is_Some_2 (elements S) (choice mod length (elements S)))
    as [n Hn].
  { by apply Nat.mod_upper_bound. }
  rewrite Hn. exists n. split; [done|].
  apply elem_of_elements. by eapply list_elem_of_lookup_2.
Qed.

Section KahnProofs.
Context {W : Type} `{EqDecision W}.
Variable pick : nat → nat.
Implicit Types (g G : Wdgraph W) (S : gset string) (L : list string).

Lemma copy_eq g : copy g = g.
Proof. by destruct g. Qed.

(** Whether an edge enters [v] can be decided by asking the store. *)
Lemma entering_dec g v :
  wf g → v ∈ directmap g →
  (∀ u x, get_edge g u v ≠ Ok x) ∨ (∃ u x, get_edge g u v = Ok x).
Proof.
  intros Hwf [n Hn]%(wf_registered _ _ Hwf).
  destruct (get_inneighbors_spec g v n Hwf Hn) as (inn & _ & Hmem).
  destruct inn as [|[u x] inn].
  - left. intros u x Hux%Hmem. by apply elem_of_nil in Hux.
  - right. exists u, x. apply Hmem. left.
Qed.

(** The [for] loop over the out-neighbours of [n]: every edge from [n] to
    a listed node goes, and a listed node that no edge enters any more
    joins the frontier. *)
Lemma kahn_visit_spec G S n (outs : list (string * W)) :
  wf G → NoDup (outs.*1) →
  (∀ m x, (m, x) ∈ outs → get_edge G n m = Ok x) →
  ∃ G' S', kahn_visit G S n outs = Ok (G', S') ∧ wf G' ∧
    hashmap G' = hashmap G ∧ directmap G' = directmap G ∧
    (∀ a b y, get_edge G' a b = Ok y ↔
       ¬ (a = n ∧ b ∈ outs.*1) ∧ get_edge G a b = Ok y) ∧
    (∀ v, v ∈ S' ↔
       v ∈ S ∨ (v ∈ outs.*1 ∧ ∀ u y, get_edge G' u v ≠ Ok y)).
Proof.
  revert G S. induction outs as [|[m x] outs IH]; intros G S Hwf Hnd Hout.
  - exists G, S. simpl. split_and!; try done.
    + intros a b y. split; [|naive_solver]. intros Hy. split; [|done].
      by intros [_ ?%elem_of_nil].
    + intros v. split; [by left|]. by intros [?|[?%elem_of_nil _]].
  - simpl in Hnd. apply NoDup_cons in Hnd as [Hm Hnd].
    assert (get_edge G n m = Ok x) as Hnm by (apply Hout; left).
    destruct (remove_edge_spec G n m x Hwf Hnm)
      as (G1 & Hrem & Hwf1 & Hhm1 & Hdm1 & _ & Hed1).
    destruct (get_edge_registered _ _ _ _ Hnm) as [_ [k Hk]].
    rewrite <-Hhm1 in Hk.
    destruct (get_inneighbors_spec G1 m k Hwf1 Hk) as (inn & Hinn & Hmem).
    destruct (IH G1 (if inn is [] then S ∪ {[m]} else S) Hwf1 Hnd)
      as (G' & S' & Hvisit & Hwf' & Hhm' & Hdm' & Hed' & HS').
    { intros m' x' Hin. apply Hed1. split; [|apply Hout; by right].
      intros [_ ->]. apply Hm. by apply (list_elem_of_fmap_2 fst) in Hin. }
    exists G', S'. simpl. rewrite Hrem. simpl. rewrite Hinn. simpl.
    split_and!; try done; try congruence.
    + intros a b y. rewrite Hed', Hed1, elem_of_cons. naive_solver.
    + assert ((∀ u y, get_edge G' u m ≠ Ok y) ↔ inn = []) as Hinn_nil.
      { split.
        - intros Hno. destruct inn as [|[u y] inn]; [done|]. exfalso.
          apply (Hno u y), Hed'. split; [|apply Hmem; left].
          by intros [_ ?].
        - intros -> u y [_ Huy%Hmem]%Hed'. by apply elem_of_nil in Huy. }
      intros v. rewrite HS', elem_of_cons. split.
      * intros [Hv|[Hv Hno]]; [|right; split; [by right|done]].
        destruct inn as [|e inn]; [|by left].
        apply elem_of_union in Hv as [Hv| ->%elem_of_singleton]; [by left|].
        right. split; [by left|]. by apply Hinn_nil.
      * intros [Hv|[[->|Hv] Hno]]; [left| |by right; split].
        -- destruct inn; [by apply elem_of_union_l|done].
        -- left. apply Hinn_nil in Hno. rewrite Hno.
           by apply elem_of_union_r, elem_of_singleton.
Qed.

Lemma before_snoc (u v n : string) L : before u v L → before u v (L ++ [n]).
Proof.
  intros (l1 & l2 & l3 & ->). exists l1, l2, (l3 ++ [n]).
  by rewrite <-app_assoc, <-!app_comm_cons, <-app_assoc.
Qed.

Lemma kahn_inv_length g0 G S L : wf g0 →
  kahn_inv g0 G S L → (length L ≤ length (directmap g0))%nat.
Proof.
  intros Hwf Hinv. apply submseteq_length, NoDup_submseteq.
  - apply (ki_nodup _ _ _ _ Hinv).
  - intros v Hv. apply (ki_ready _ _ _ _ Hinv v). by right.
Qed.

(** One iteration of the [while] loop keeps the invariant. *)
Lemma kahn_step_inv g0 G S L n (outs : list (string * W)) G2 S2 :
  wf g0 → kahn_inv g0 G S L → n ∈ S →
  get_outneighbors G n = Ok outs →
  kahn_visit G (S ∖ {[n]}) n outs = Ok (G2, S2) →
  kahn_inv g0 G2 S2 (L ++ [n]).
Proof.
  intros Hwf0 [Hwf Hhm Hdm Hed Hnd Hready Hdisj Hord] HnS Houts Hvisit.
  assert (n ∈ directmap g0 ∧ ∀ u x, get_edge G u n ≠ Ok x) as [Hndm Hnin].
  { apply Hready. by left. }
  assert (is_Some (hashmap G !! n)) as [k Hk].
  { rewrite Hhm. by apply (wf_registered _ _ Hwf0). }
  destruct (get_outneighbors_spec G n k Hwf Hk) as (outs' & Houts' & Hnd' & Hmem).
  assert (outs' = outs) as -> by congruence.
  destruct (kahn_visit_spec G (S ∖ {[n]}) n outs Hwf Hnd')
    as (G' & S' & Hvisit' & Hwf2 & Hhm2 & Hdm2 & Hed2 & HS2).
  { intros m x. apply Hmem. }
  assert (G' = G2 ∧ S' = S2) as [-> ->] by (split; congruence).
  assert (∀ b, b ∈ outs.*1 ↔ ∃ y, get_edge G n b = Ok y) as Hout_iff.
  { intros b. split.
    - intros ([b' y] & -> & Hin)%list_elem_of_fmap. exists y. by apply Hmem.
    - intros [y Hy%Hmem]. by apply (list_elem_of_fmap_2 fst) in Hy. }
  split.
  - done.
  - congruence.
  - congruence.
  - intros a b x. rewrite Hed2, Hed, not_elem_of_app, list_elem_of_singleton.
    split.
    + intros (Hne & HaL & Hx). split_and!; try done. intros ->.
      apply Hne. split; [done|]. apply Hout_iff. exists x. by apply Hed.
    + intros ((HaL & Han) & Hx). split_and!; try done. by intros [-> _].
  - apply NoDup_app. split_and!; [done| |apply NoDup_singleton].
    intros v Hv ->%list_elem_of_singleton. by apply (Hdisj n).
  - intros v. rewrite HS2, elem_of_app, list_elem_of_singleton,
      elem_of_difference, elem_of_singleton. split.
    + intros [[[HvS Hvn]|[Hv Hno]]|[HvL| ->]].
      * destruct (proj1 (Hready v)) as [Hvdm Hvin]; [by left|].
        split; [done|]. intros u x [_ Hux]%Hed2. by eapply Hvin.
      * split; [|done]. apply Hout_iff in Hv as [y Hy].
        apply Hed in Hy as [_ Hy].
        apply get_edge_registered in Hy as [_ Hv].
        by apply (wf_registered _ _ Hwf0).
      * destruct (proj1 (Hready v)) as [Hvdm Hvin]; [by right|].
        split; [done|]. intros u x [_ Hux]%Hed2. by eapply Hvin.
      * split; [done|]. intros u x [_ Hux]%Hed2. by eapply Hnin.
    + intros [Hvdm Hvin].
      destruct (entering_dec G v Hwf) as [Hno|(u & x & Hux)].
      { by rewrite Hdm. }
      * destruct (proj2 (Hready v)) as [HvS|HvL]; [done| |by right; left].
        destruct (decide (v = n)) as [->|Hvn]; [by right; right|].
        by left; left.
      * left. right. split; [|done].
        destruct (decide (u = n)) as [->|Hun].
        -- apply Hout_iff. by exists x.
        -- exfalso. apply (Hvin u x), Hed2. split; [|done]. by intros [-> _].
  - intros v. rewrite HS2, elem_of_difference, elem_of_singleton,
      not_elem_of_app, list_elem_of_singleton.
    intros [[HvS Hvn]|[Hv Hno]]; [split; [by apply Hdisj|done]|].
    apply Hout_iff in Hv as [y Hy].
    assert (¬ (v ∈ S ∨ v ∈ L)) as Hnot.
    { intros Hv%Hready. destruct Hv as [_ Hv]. by eapply Hv. }
    split; [naive_solver|]. intros ->. by eapply Hnin.
  - intros u v x Hux [HvL| ->%list_elem_of_singleton]%elem_of_app.
    + apply before_snoc. by eapply Hord.
    + destruct (decide (u ∈ L)) as [HuL|HuL].
      * apply list_elem_of_split in HuL as (l1 & l2 & ->).
        exists l1, l2, []. by rewrite <-app_assoc.
      * exfalso. apply (Hnin u x), Hed. done.
Qed.

(** The [while] loop returns when the fuel exceeds the number of nodes
    not yet listed, with the invariant and an empty frontier. *)
Lemma kahn_loop_spec g0 fuel i G S L :
  wf g0 → kahn_inv g0 G S L →
  (length (directmap g0) - length L < fuel)%nat →
  ∃ G' L', kahn_loop pick fuel i G S L = Ok (G', L') ∧ kahn_inv g0 G' ∅ L'.
Proof.
  intros Hwf0. revert i G S L.
  induction fuel as [|fuel IH]; intros i G S L Hinv Hfuel; [lia|].
  simpl. case_decide as Hsize.
  - destruct (set_pop_spec (pick i) S Hsize) as (n & -> & HnS). simpl.
    assert (is_Some (hashmap G !! n)) as [k Hk].
    { rewrite (ki_hashmap _ _ _ _ Hinv). apply (wf_registered _ _ Hwf0).
      apply (ki_ready _ _ _ _ Hinv n). by left. }
    destruct (get_outneighbors_spec G n k (ki_wf _ _ _ _ Hinv) Hk)
      as (outs & Houts & Hnd & Hmem).
    rewrite Houts. simpl.
    destruct (kahn_visit_spec G (S ∖ {[n]}) n outs (ki_wf _ _ _ _ Hinv) Hnd)
      as (G2 & S2 & Hvisit & _).
    { intros m x. apply Hmem. }
    rewrite Hvisit. simpl.
    pose proof (kahn_step_inv g0 G S L n outs G2 S2 Hwf0 Hinv HnS Houts Hvisit)
      as Hinv2.
    apply IH; [done|].
    pose proof (kahn_inv_length _ _ _ _ Hwf0 Hinv2) as Hlen.
    rewrite length_app in *. simpl in *. lia.
  - exists G, L. split; [done|].
    assert (S = ∅) as ->; [|done].
    apply leibniz_equiv, size_empty_iff.
    destruct (size S); [done|]. by destruct Hsize.
Qed.

(** Whatever the fuel, a loop that returns has kept the invariant and
    emptied the frontier. *)
Lemma kahn_loop_inv g0 fuel i G S L G' L' :
  wf g0 → kahn_inv g0 G S L →
  kahn_loop pick fuel i G S L = Ok (G', L') → kahn_inv g0 G' ∅ L'.
Proof.
  intros Hwf0. revert i G S L.
  induction fuel as [|fuel IH]; intros i G S L Hinv Hloop; [done|].
  simpl in Hloop. case_decide as Hsize.
  - destruct (set_pop_spec (pick i) S Hsize) as (n & Hpop & HnS).
    rewrite Hpop in Hloop. simpl in Hloop.
    destruct (get_outneighbors G n) as [outs| |] eqn:Houts; try done.
    simpl in Hloop.
    destruct (kahn_visit G (S ∖ {[n]}) n outs) as [[G2 S2]| |] eqn:Hvisit;
      try done.
    simpl in Hloop. eapply IH; [|done]. by eapply kahn_step_inv.
  - injection Hloop as <- <-.
    assert (S = ∅) as ->; [|done].
    apply leibniz_equiv, size_empty_iff.
    destruct (size S); [done|]. by destruct Hsize.
Qed.

Lemma kahn_inv_init g0 S :
  wf g0 → get_nodes_without_incoming g0 = Ok S → kahn_inv g0 g0 S [].
Proof.
  intros Hwf HS.
  destruct (get_nodes_without_incoming_spec g0 Hwf) as (S' & HS' & Hmem).
  assert (S' = S) as -> by congruence.
  split; try done.
  - intros a b x. split; [|naive_solver]. intros Hx. split; [|done].
    apply not_elem_of_nil.
  - constructor.
  - intros v. rewrite <-Hmem. split; [|by left].
    by intros [?|?%elem_of_nil].
  - intros v _. apply not_elem_of_nil.
  - by intros u v x _ ?%elem_of_nil.
Qed.

(** With an empty frontier, a remaining edge lies on a cycle. *)
Lemma residual_cycle g0 G L a b x :
  wf g0 → kahn_inv g0 G ∅ L → get_edge G a b = Ok x → has_cycle g0.
Proof.
  intros Hwf0 Hinv Hab.
  destruct (backward_chain_cycle (arc G) (directmap g0) a b) as [c Hc].
  - intros a' b' [y Hy]. apply (wf_registered _ _ Hwf0).
    rewrite <-(ki_hashmap _ _ _ _ Hinv).
    by apply get_edge_registered in Hy as [? _].
  - intros a' b' [y Hy].
    assert (a' ∈ directmap g0) as Hdm.
    { apply (wf_registered _ _ Hwf0). rewrite <-(ki_hashmap _ _ _ _ Hinv).
      by apply get_edge_registered in Hy as [? _]. }
    destruct (entering_dec G a' (ki_wf _ _ _ _ Hinv)) as [Hno|(u & z & Hu)].
    + by rewrite (ki_directmap _ _ _ _ Hinv).
    + exfalso. destruct (proj2 (ki_ready _ _ _ _ Hinv a')) as [HS|HL]; [done| |].
      * by apply not_elem_of_empty in HS.
      * apply (ki_edges _ _ _ _ Hinv) in Hy as [HaL _]. done.
    + exists u. by exists z.
  - by exists x.
  - exists c. eapply tc_congruence with (f := id); [|exact Hc].
    intros u v [y Hy]. exists y. by apply (ki_edges _ _ _ _ Hinv) in Hy as [_ ?].
Qed.

(** A returned order shows that the graph has no cycle. *)
Lemma topological_order_acyclic g0 L :
  NoDup L → (∀ u v x, get_edge g0 u v = Ok x → before u v L) → acyclic g0.
Proof.
  intros Hnd Hord c. revert c. apply (ordered_acyclic (arc g0) L Hnd).
  intros u v [x Hx]. apply before_lookup. by eapply Hord.
Qed.

(** A returned list holds every node once and puts the source of every
    edge before its target. *)
Lemma kahn_Ok g0 fuel L :
  wf g0 → kahns_algorithm pick fuel g0 = Ok L →
  L ≡ₚ directmap g0 ∧ ∀ u v x, get_edge g0 u v = Ok x → before u v L.
Proof.
  intros Hwf. unfold kahns_algorithm. rewrite copy_eq.
  destruct (get_nodes_without_incoming g0) as [S| |] eqn:HS; try done.
  simpl. destruct (kahn_loop pick fuel 0 g0 S []) as [[G' L']| |] eqn:Hloop;
    try done.
  simpl. destruct (all_edges G') as [|e es] eqn:Hall; [|done].
  intros [= ->].
  pose proof (kahn_loop_inv g0 fuel 0 g0 S [] G' L Hwf
                (kahn_inv_init _ _ Hwf HS) Hloop) as Hinv.
  pose proof (proj1 (all_edges_nil G' (ki_wf _ _ _ _ Hinv)) Hall) as Hno.
  assert (∀ v, v ∈ L ↔ v ∈ directmap g0) as HL.
  { intros v. split.
    - intros Hv. apply (ki_ready _ _ _ _ Hinv v). by right.
    - intros Hv. destruct (proj2 (ki_ready _ _ _ _ Hinv v)) as [HvS|HvL];
        [|by apply not_elem_of_empty in HvS|done].
      split; [done|]. intros u x. apply Hno. }
  split.
  - apply NoDup_Permutation;
      [apply (ki_nodup _ _ _ _ Hinv)|by apply wf_directmap_NoDup|done].
  - intros u v x Hx. eapply (ki_order _ _ _ _ Hinv); [done|].
    apply HL, (wf_registered _ _ Hwf).
    by apply get_edge_registered in Hx as [_ ?].
Qed.

Lemma kahn_Ok_acyclic g0 fuel L :
  wf g0 → kahns_algorithm pick fuel g0 = Ok L → acyclic g0.
Proof.
  intros Hwf [Hperm Hord]%kahn_Ok; [|done].
  apply (topological_order_acyclic g0 L); [|done].
  rewrite Hperm. by apply wf_directmap_NoDup.
Qed.

(** The outcome of [kahns_algorithm] on a well-formed graph, with fuel
    above the number of nodes: either a list, or the cycle error, and then
    the graph does have a cycle. *)
Lemma kahn_outcome g0 fuel :
  wf g0 → (len g0 < fuel)%nat →
  (∃ L, kahns_algorithm pick fuel g0 = Ok L) ∨
  (kahns_algorithm pick fuel g0 = Raise GraphHasCycle ∧ has_cycle g0).
Proof.
  intros Hwf Hfuel. unfold kahns_algorithm. rewrite copy_eq.
  destruct (get_nodes_without_incoming_spec g0 Hwf) as (S & HS & _).
  rewrite HS. simpl.
  destruct (kahn_loop_spec g0 fuel 0 g0 S [] Hwf (kahn_inv_init _ _ Hwf HS))
    as (G' & L' & -> & Hinv).
  { rewrite (wf_directmap g0 Hwf). simpl. lia. }
  simpl. destruct (all_edges G') as [|e es] eqn:Hall.
  - left. by exists L'.
  - right. split; [done|].
    destruct (all_edges_cons G' e es (ki_wf _ _ _ _ Hinv) Hall)
      as (a & b & x & Hx).
    by eapply residual_cycle.
Qed.

(** On a graph without cycle the algorithm returns. *)
Lemma kahn_acyclic_Ok g0 fuel :
  wf g0 → acyclic g0 → (len g0 < fuel)%nat →
  ∃ L, kahns_algorithm pick fuel g0 = Ok L.
Proof.
  intros Hwf Hac Hfuel.
  destruct (kahn_outcome g0 fuel Hwf Hfuel) as [?|[_ [c Hc]]]; [done|].
  by destruct (Hac c).
Qed.

(** On a graph with a cycle the algorithm raises. *)
Lemma kahn_cycle_Raise g0 fuel :
  wf g0 → has_cycle g0 → (len g0 < fuel)%nat →
  kahns_algorithm pick fuel g0 = Raise GraphHasCycle.
Proof.
  intros Hwf [c Hc] Hfuel.
  destruct (kahn_outcome g0 fuel Hwf Hfuel) as [[L HL]|[? _]]; [|done].
  by destruct (kahn_Ok_acyclic g0 fuel L Hwf HL c).
Qed.

End KahnProofs.

(* ===================================================================== *)
(** * The store with aliasing: [copy] gives an independent graph *)
(* ===================================================================== *)

Section ListFacts.
Context {A B C : Type}.

Lemma Forall3_pointwise (P : A → B → C → Prop) l k k' :
  Forall3 P l k k' ↔
  length l = length k ∧ length l = length k' ∧
  ∀ i x y z, l !! i = Some x → k !! i = Some y → k' !! i = Some z → P x y z.
Proof.
  split.
  - intros HF. split_and!.
    + by eapply Forall3_length_lm.
    + by eapply Forall3_length_lr.
    + intros i x y z Hx Hy Hz. by eapply Forall3_lookup_lmr.
  - revert k k'. induction l as [|x l IH]; intros k k' (Hk & Hk' & HP).
    + destruct k, k'; try done. constructor.
    + destruct k as [|y k], k' as [|z k']; try done.
      constructor; [by apply (HP 0%nat)|].
      apply IH. split_and!; [by injection Hk|by injection Hk'|].
      intros i x' y' z' Hx Hy Hz. by apply (HP (S i)).
Qed.

Lemma NoDup_concat_lookup (ls : list (list A)) i l :
  NoDup (concat ls) → ls !! i = Some l → NoDup l.
Proof.
  revert i. induction ls as [|l0 ls IH]; intros i Hnd Hi; [done|].
  simpl in Hnd. apply NoDup_app in Hnd as (Hnd0 & _ & Hnd).
  destruct i as [|i]; simpl in Hi; [by injection Hi as <-|by eapply IH].
Qed.

Lemma elem_of_concat_lookup (ls : list (list A)) i l x :
  ls !! i = Some l → x ∈ l → x ∈ concat ls.
Proof.
  intros Hi Hx. apply elem_of_concat. exists l. split; [done|].
  by eapply list_elem_of_lookup_2.
Qed.

Lemma NoDup_concat_disjoint (ls : list (list A)) i j l1 l2 x :
  NoDup (concat ls) → ls !! i = Some l1 → ls !! j = Some l2 → i ≠ j →
  x ∈ l1 → x ∉ l2.
Proof.
  revert i j. induction ls as [|l0 ls IH]; intros i j Hnd Hi Hj Hne Hx Hx2;
    [done|].
  simpl in Hnd. apply NoDup_app in Hnd as (_ & Hdisj & Hnd).
  destruct i as [|i], j as [|j]; simpl in *; try done.
  - injection Hi as <-. apply (Hdisj x Hx). by eapply elem_of_concat_lookup.
  - injection Hj as <-. apply (Hdisj x Hx2). by eapply elem_of_concat_lookup.
  - eapply (IH i j); eauto.
Qed.

Lemma concat_insert_middle (ls : list (list A)) i l l' :
  ls !! i = Some l →
  concat ls = concat (take i ls) ++ l ++ concat (drop (S i) ls) ∧
  concat (<[i := l']> ls) = concat (take i ls) ++ l' ++ concat (drop (S i) ls).
Proof.
  intros Hi. split.
  - rewrite <-(take_drop_middle ls i l Hi) at 1.
    by rewrite concat_app.
  - rewrite insert_take_drop by by eapply lookup_lt_Some.
    by rewrite concat_app.
Qed.

End ListFacts.

(** Looks an object up in a heap written as a chain of updates. *)
Ltac heap_lookup :=
  repeat first [ rewrite lookup_insert_eq
               | rewrite lookup_insert_ne by (done || congruence) ];
  try done.

Section HeapFacts.
Context {W : Type} `{EqDecision W}.
Local Open Scope nat_scope.
Implicit Types (h : Heap.heap W) (g : Wdgraph W) (F : Heap.layout)
  (l r p self : Heap.loc).

Lemma prog_bind_Ok {A B : Type} (m : Heap.prog A) (f : A → Heap.prog B)
    h a h' :
  m h = (Ok a, h') → (m ≫= f) h = f a h'.
Proof. intros Hm. unfold mbind, Heap.prog_bind. by rewrite Hm. Qed.

Lemma prog_bind_Raise {A B : Type} (m : Heap.prog A) (f : A → Heap.prog B)
    h e h' :
  m h = (Raise e, h') → (m ≫= f) h = (Raise e, h').
Proof. intros Hm. unfold mbind, Heap.prog_bind. by rewrite Hm. Qed.

Lemma read_graph_Ok h l n hm dm adj :
  h !! l = Some (Heap.Graph n hm dm adj) →
  Heap.read_graph l h = (Ok (n, hm, dm, adj), h).
Proof.
  intros Hl. unfold Heap.read_graph, Heap.read, mbind, Heap.prog_bind.
  by rewrite Hl.
Qed.

Lemma read_dict_Ok h l d :
  h !! l = Some (Heap.Dict d) → Heap.read_dict l h = (Ok d, h).
Proof.
  intros Hl. unfold Heap.read_dict, Heap.read, mbind, Heap.prog_bind.
  by rewrite Hl.
Qed.

Lemma read_labels_Ok h l x :
  h !! l = Some (Heap.Labels x) → Heap.read_labels l h = (Ok x, h).
Proof.
  intros Hl. unfold Heap.read_labels, Heap.read, mbind, Heap.prog_bind.
  by rewrite Hl.
Qed.

Lemma read_refs_Ok h l x :
  h !! l = Some (Heap.Refs x) → Heap.read_refs l h = (Ok x, h).
Proof.
  intros Hl. unfold Heap.read_refs, Heap.read, mbind, Heap.prog_bind.
  by rewrite Hl.
Qed.

Lemma read_pair_Ok h l t x :
  h !! l = Some (Heap.Pair t x) → Heap.read_pair l h = (Ok (t, x), h).
Proof.
  intros Hl. unfold Heap.read_pair, Heap.read, mbind, Heap.prog_bind.
  by rewrite Hl.
Qed.

Lemma alloc_Ok h (o : Heap.obj W) :
  ∃ l, Heap.alloc o h = (Ok l, <[l := o]> h) ∧ h !! l = None.
Proof.
  exists (fresh (dom h)). split; [done|].
  pose proof (is_fresh (dom h)) as Hf.
  destruct (h !! fresh (dom h)) as [o'|] eqn:Hl; [|done].
  destruct Hf. apply elem_of_dom. by exists o'.
Qed.

(** ** The representation *)

Lemma rep_rows_lookup h self g F i row :
  Heap.rep h self g F → adj_list g !! i = Some row →
  ∃ r ps, Heap.l_rows F !! i = Some r ∧ Heap.l_cells F !! i = Some ps ∧
          Heap.row_at h r ps row.
Proof.
  intros Hrep Hi. destruct (Forall3_lookup_r _ _ _ _ _ _ (Heap.rep_rows _ _ _ _ Hrep) Hi)
    as (r & ps & Hr & Hps & Hrow).
  by exists r, ps.
Qed.

Lemma rep_rows_None h self g F i :
  Heap.rep h self g F → adj_list g !! i = None → Heap.l_rows F !! i = None.
Proof.
  intros Hrep Hi. apply lookup_ge_None. apply lookup_ge_None in Hi.
  rewrite (Forall3_length_lr _ _ _ _ (Heap.rep_rows _ _ _ _ Hrep)). done.
Qed.

Lemma rep_dom h self g F l :
  Heap.rep h self g F → l ∈ Heap.locs self F → is_Some (h !! l).
Proof.
  intros [Hself Hhm Hdm Hadj Hrows _]. unfold Heap.locs.
  rewrite !elem_of_cons, elem_of_app.
  intros [->|[->|[->|[->|[Hl|Hl]]]]]; try by eexists.
  - apply list_elem_of_lookup in Hl as [i Hi].
    destruct (Forall3_lookup_l _ _ _ _ _ _ Hrows Hi) as (ps & row & _ & _ & Hr & _).
    by eexists.
  - apply elem_of_concat in Hl as (ps & Hl & [i Hi]%list_elem_of_lookup).
    destruct (Forall3_lookup_m _ _ _ _ _ _ Hrows Hi) as (r & row & _ & _ & _ & Hps).
    apply list_elem_of_lookup in Hl as [j Hj].
    destruct (Forall2_lookup_l _ _ _ _ _ Hps Hj) as (e & _ & He). by eexists.
Qed.

Lemma pairs_frame h h' (ps : list Heap.loc) (row : list (nat * W)) :
  Forall2 (Heap.pair_at h) ps row → (∀ p, p ∈ ps → h' !! p = h !! p) →
  Forall2 (Heap.pair_at h') ps row.
Proof.
  intros Hps Hps'. apply Forall2_same_length_lookup.
  apply Forall2_same_length_lookup in Hps as [Hlen Hps]. split; [done|].
  intros i p e Hp He. unfold Heap.pair_at. rewrite Hps'.
  - by apply (Hps i).
  - by eapply list_elem_of_lookup_2.
Qed.

Lemma row_at_frame h h' r ps row :
  Heap.row_at h r ps row → h' !! r = h !! r → (∀ p, p ∈ ps → h' !! p = h !! p) →
  Heap.row_at h' r ps row.
Proof.
  intros [Hr Hps] Hr' Hps'. split; [congruence|].
  apply Forall2_same_length_lookup.
  apply Forall2_same_length_lookup in Hps as [Hlen Hps]. split; [done|].
  intros i p e Hp He. unfold Heap.pair_at. rewrite Hps'.
  - by apply (Hps i).
  - by eapply list_elem_of_lookup_2.
Qed.

(** A heap that agrees with [h] on the objects of a graph represents the
    same graph. *)
Lemma rep_frame h h' self g F :
  Heap.rep h self g F → (∀ l, l ∈ Heap.locs self F → h' !! l = h !! l) →
  Heap.rep h' self g F.
Proof.
  intros [Hself Hhm Hdm Hadj Hrows Hsep] Hsame. unfold Heap.locs in Hsame.
  split; try done.
  - rewrite Hsame; [done|]. set_solver.
  - rewrite Hsame; [done|]. set_solver.
  - rewrite Hsame; [done|]. set_solver.
  - rewrite Hsame; [done|]. set_solver.
  - apply Forall3_pointwise. apply Forall3_pointwise in Hrows as (? & ? & Hrows).
    split_and!; try done. intros i r ps row Hr Hps Hrow.
    eapply row_at_frame; [by eapply Hrows| |].
    + apply Hsame. do 4 right. apply elem_of_app. left.
      by eapply list_elem_of_lookup_2.
    + intros p Hp. apply Hsame. do 4 right. apply elem_of_app. right.
      by eapply elem_of_concat_lookup.
Qed.

Lemma row_value_Some h r ps row :
  Heap.row_at h r ps row → Heap.row_value h r = Some row.
Proof.
  intros [Hr Hps]. unfold Heap.row_value. rewrite Hr. apply mapM_Some.
  eapply Forall2_impl; [done|]. intros p [t x] Hp. unfold Heap.pair_value.
  by rewrite Hp.
Qed.

(** The value of a represented graph object is the graph it represents. *)
Lemma rep_value h self g F : Heap.rep h self g F → Heap.value_of h self = Some g.
Proof.
  intros [Hself Hhm Hdm Hadj Hrows _]. unfold Heap.value_of.
  rewrite Hself, Hhm, Hdm, Hadj.
  assert (mapM (Heap.row_value h) (Heap.l_rows F) = Some (adj_list g)) as ->.
  { apply mapM_Some. apply Forall3_pointwise in Hrows as (Hl1 & Hl2 & Hrows).
    apply Forall2_same_length_lookup. split; [done|].
    intros i r row Hr Hrow.
    destruct (lookup_lt_is_Some_2 (Heap.l_cells F) i) as [ps Hps].
    { rewrite <-Hl1. by eapply lookup_lt_Some. }
    eapply row_value_Some. by eapply Hrows. }
  simpl. by destruct g.
Qed.

Lemma call_frame_refl h self F : Heap.call_frame h h self F F.
Proof. split_and!; [done|done|]. intros l ?. by left. Qed.

Lemma call_frame_trans h h1 h2 self F F1 F2 :
  Heap.call_frame h h1 self F F1 → Heap.call_frame h1 h2 self F1 F2 →
  Heap.call_frame h h2 self F F2.
Proof.
  intros (Hdom1 & Hout1 & Hin1) (Hdom2 & Hout2 & Hin2). split_and!.
  - intros l Hl. auto.
  - intros l Hl Hnotin. rewrite Hout2, Hout1; auto.
    intros [?|Hnone]%Hin1; [done|]. rewrite Hnone in Hl. by destruct Hl.
  - intros l [[?|Hnone]%Hin1|Hnone]%Hin2; [by left|by right|].
    right. destruct (h !! l) eqn:Hl; [|done].
    destruct (Hdom1 l) as [? Hsome]; [by eexists|]. congruence.
Qed.

Lemma write_Ok h l (o : Heap.obj W) : Heap.write l o h = (Ok tt, <[l := o]> h).
Proof. done. Qed.

Lemma insert_frame (X : list Heap.loc) h l (o : Heap.obj W) x :
  x ∈ X → l ∉ X → <[l := o]> h !! x = h !! x.
Proof. intros Hx Hl. apply lookup_insert_ne. by intros ->. Qed.

(** What the separation of the objects of a graph says piece by piece. *)
Lemma sep_facts self F :
  NoDup (Heap.locs self F) →
  self ≠ Heap.l_hm F ∧ self ≠ Heap.l_dm F ∧ self ≠ Heap.l_adj F ∧
  Heap.l_hm F ≠ Heap.l_dm F ∧ Heap.l_hm F ≠ Heap.l_adj F ∧
  Heap.l_dm F ≠ Heap.l_adj F ∧
  self ∉ Heap.l_rows F ++ concat (Heap.l_cells F) ∧
  Heap.l_hm F ∉ Heap.l_rows F ++ concat (Heap.l_cells F) ∧
  Heap.l_dm F ∉ Heap.l_rows F ++ concat (Heap.l_cells F) ∧
  Heap.l_adj F ∉ Heap.l_rows F ++ concat (Heap.l_cells F) ∧
  NoDup (Heap.l_rows F ++ concat (Heap.l_cells F)).
Proof.
  unfold Heap.locs. rewrite !NoDup_cons, !not_elem_of_cons. naive_solver.
Qed.

(** How the objects of a graph change with its layout. *)
Lemma locs_new_row self F r :
  Heap.locs self (Heap.MkLayout (Heap.l_hm F) (Heap.l_dm F) (Heap.l_adj F)
                    (Heap.l_rows F ++ [r]) (Heap.l_cells F ++ [[]]))
  ≡ₚ r :: Heap.locs self F.
Proof.
  unfold Heap.locs. simpl. rewrite concat_app. simpl. rewrite app_nil_r.
  rewrite <-app_assoc. simpl.
  rewrite <-(Permutation_middle (Heap.l_rows F)).
  by rewrite !(Permutation_swap r).
Qed.

Lemma locs_new_cell self F i ps p :
  Heap.l_cells F !! i = Some ps →
  Heap.locs self (Heap.MkLayout (Heap.l_hm F) (Heap.l_dm F) (Heap.l_adj F)
                    (Heap.l_rows F) (<[i := ps ++ [p]]> (Heap.l_cells F)))
  ≡ₚ p :: Heap.locs self F.
Proof.
  intros Hi. unfold Heap.locs. simpl.
  destruct (concat_insert_middle (Heap.l_cells F) i ps (ps ++ [p]) Hi)
    as [-> ->].
  rewrite <-!app_assoc. simpl.
  rewrite <-(Permutation_middle ps), <-(Permutation_middle (concat _)).
  rewrite <-(Permutation_middle (Heap.l_rows F)).
  by rewrite !(Permutation_swap p).
Qed.

Lemma locs_less_cell self F i ps1 p ps2 :
  Heap.l_cells F !! i = Some (ps1 ++ p :: ps2) →
  p :: Heap.locs self (Heap.MkLayout (Heap.l_hm F) (Heap.l_dm F)
                         (Heap.l_adj F) (Heap.l_rows F)
                         (<[i := ps1 ++ ps2]> (Heap.l_cells F)))
  ≡ₚ Heap.locs self F.
Proof.
  intros Hi. unfold Heap.locs. simpl.
  destruct (concat_insert_middle (Heap.l_cells F) i _ (ps1 ++ ps2) Hi)
    as [-> ->].
  rewrite <-!app_assoc. simpl.
  rewrite <-(Permutation_middle ps1 _ p), <-(Permutation_middle (concat _) _ p).
  rewrite <-(Permutation_middle (Heap.l_rows F) _ p).
  by rewrite !(Permutation_swap p).
Qed.

(** ** [register_node] *)

Lemma register_node_heap h self g F u :
  Heap.rep h self g F →
  ∃ h' F', Heap.register_node self u h = (Ok (register_node g u).2, h') ∧
    Heap.rep h' self (register_node g u).1 F' ∧
    Heap.call_frame h h' self F F'.
Proof.
  intros Hrep. pose proof Hrep as [Hself Hhm Hdm Hadj Hrows Hsep].
  pose proof (sep_facts _ _ Hsep)
    as (Hn1 & Hn2 & Hn3 & Hn4 & Hn5 & Hn6 & Hs1 & Hs2 & Hs3 & Hs4 & Hnd).
  unfold Heap.register_node.
  rewrite (prog_bind_Ok _ _ _ _ _ (read_graph_Ok _ _ _ _ _ _ Hself)).
  rewrite (prog_bind_Ok _ _ _ _ _ (read_dict_Ok _ _ _ Hhm)).
  destruct (hashmap g !! u) as [k|] eqn:Hu.
  { rewrite (register_node_known _ _ _ Hu). exists h, F.
    split_and!; [done|done|apply call_frame_refl]. }
  rewrite (register_node_fresh _ _ Hu). simpl.
  rewrite (prog_bind_Ok _ _ _ _ _ (write_Ok _ _ _)).
  set (h1 := <[Heap.l_hm F := _]> h).
  assert (h1 !! Heap.l_dm F = Some (Heap.Labels (directmap g))) as Hdm1.
  { unfold h1. heap_lookup. }
  rewrite (prog_bind_Ok _ _ _ _ _ (read_labels_Ok _ _ _ Hdm1)).
  rewrite (prog_bind_Ok _ _ _ _ _ (write_Ok _ _ _)).
  rewrite (prog_bind_Ok _ _ _ _ _ (write_Ok _ _ _)).
  set (h3 := <[self := _]> (<[Heap.l_dm F := _]> h1)).
  destruct (alloc_Ok h3 (Heap.Refs [])) as (r & Hr & Hfresh).
  rewrite (prog_bind_Ok _ _ _ _ _ Hr).
  assert (h !! r = None ∧ r ≠ self ∧ r ≠ Heap.l_dm F ∧ r ≠ Heap.l_hm F)
    as (Hrh & Hrs & Hrd & Hrm).
  { unfold h3, h1 in Hfresh.
    apply lookup_insert_None in Hfresh as [Hfresh ?].
    apply lookup_insert_None in Hfresh as [Hfresh ?].
    apply lookup_insert_None in Hfresh as [Hfresh ?]. done. }
  assert (r ∉ Heap.locs self F) as Hrlocs.
  { intros [o Ho]%(rep_dom _ _ _ _ _ Hrep). congruence. }
  assert (r ≠ Heap.l_adj F) as Hra by (intros ->; congruence).
  assert (<[r := Heap.Refs []]> h3 !! Heap.l_adj F =
            Some (Heap.Refs (Heap.l_rows F))) as Hadj4.
  { unfold h3, h1. heap_lookup. }
  rewrite (prog_bind_Ok _ _ _ _ _ (read_refs_Ok _ _ _ Hadj4)).
  rewrite (prog_bind_Ok _ _ _ _ _ (write_Ok _ _ _)).
  set (h5 := <[Heap.l_adj F := _]> (<[r := _]> h3)).
  exists h5, (Heap.MkLayout (Heap.l_hm F) (Heap.l_dm F) (Heap.l_adj F)
                (Heap.l_rows F ++ [r]) (Heap.l_cells F ++ [[]])).
  assert (∀ l, l ∈ Heap.l_rows F ++ concat (Heap.l_cells F) → h5 !! l = h !! l)
    as Hold.
  { intros l Hl. unfold h5, h3, h1.
    rewrite !(insert_frame (Heap.l_rows F ++ concat (Heap.l_cells F)));
      try done.
    intros ?. apply Hrlocs. unfold Heap.locs. by do 4 right. }
  split; [unfold mret, Heap.prog_ret; do 2 f_equal; lia|]. split.
  - split; simpl.
    + unfold h5, h3. heap_lookup.
    + unfold h5, h3, h1. heap_lookup.
    + unfold h5, h3. heap_lookup.
    + unfold h5. heap_lookup.
    + apply Forall3_app.
      * apply Forall3_pointwise.
        apply Forall3_pointwise in Hrows as (? & ? & Hrows).
        split_and!; try done. intros i r' ps row Hr' Hps Hrow.
        eapply row_at_frame; [by eapply Hrows| |].
        -- apply Hold, elem_of_app. left. by eapply list_elem_of_lookup_2.
        -- intros p Hp. apply Hold, elem_of_app. right.
           by eapply elem_of_concat_lookup.
      * constructor; [|constructor]. split; [|constructor].
        unfold h5. heap_lookup.
    + rewrite locs_new_row. by apply NoDup_cons.
  - split_and!.
    + intros l Hl. unfold h5, h3, h1.
      rewrite !lookup_insert_is_Some'. auto 10.
    + intros l Hl Hnotin. unfold Heap.locs in Hnotin.
      rewrite !not_elem_of_cons in Hnotin.
      destruct Hnotin as (? & ? & ? & ? & _).
      assert (l ≠ r) by (intros ->; rewrite Hrh in Hl; by destruct Hl).
      unfold h5, h3, h1. heap_lookup.
    + intros l. rewrite locs_new_row.
      intros [->|?]%elem_of_cons; [by right|by left].
Qed.

(** ** [raw_set_edge] and [set_edge] *)

Lemma rows_update h h' (rows : list Heap.loc) cells (adj : list (list (nat * W)))
    i r ps ps' row' :
  Forall3 (Heap.row_at h) rows cells adj →
  rows !! i = Some r → cells !! i = Some ps →
  Heap.row_at h' r ps' row' →
  (∀ j rj psj, j ≠ i → rows !! j = Some rj → cells !! j = Some psj →
     h' !! rj = h !! rj ∧ ∀ p, p ∈ psj → h' !! p = h !! p) →
  Forall3 (Heap.row_at h') rows (<[i := ps']> cells) (<[i := row']> adj).
Proof.
  intros (Hl1 & Hl2 & Hrows)%Forall3_pointwise Hr Hps Hrow' Hother.
  apply Forall3_pointwise. rewrite !length_insert. split_and!; try done.
  intros j rj psj rowj Hrj Hpsj Hrowj.
  destruct (decide (j = i)) as [->|Hne].
  - rewrite list_lookup_insert_eq in Hpsj by by eapply lookup_lt_Some.
    rewrite list_lookup_insert_eq in Hrowj
      by (rewrite <-Hl2; by eapply lookup_lt_Some).
    by simplify_eq.
  - rewrite list_lookup_insert_ne in Hpsj by done.
    rewrite list_lookup_insert_ne in Hrowj by done.
    destruct (Hother j rj psj Hne Hrj Hpsj) as [Hsame Hsames].
    eapply row_at_frame; [by eapply Hrows|done|done].
Qed.

Lemma other_rows_apart (rows : list Heap.loc) (cells : list (list Heap.loc))
    i j r ps rj psj :
  NoDup (rows ++ concat cells) →
  rows !! i = Some r → cells !! i = Some ps → j ≠ i →
  rows !! j = Some rj → cells !! j = Some psj →
  rj ≠ r ∧ rj ∉ ps ∧ ∀ p, p ∈ psj → p ≠ r ∧ p ∉ ps.
Proof.
  intros (Hrows & Hdisj & Hcells)%NoDup_app Hr Hps Hne Hrj Hpsj. split_and!.
  - intros ->. apply Hne. exact (NoDup_lookup _ _ _ _ Hrows Hrj Hr).
  - intros Hin. apply (Hdisj rj); [by eapply list_elem_of_lookup_2|].
    exact (elem_of_concat_lookup cells i ps rj Hps Hin).
  - intros p Hp. split.
    + intros ->. apply (Hdisj r); [by eapply list_elem_of_lookup_2|].
      exact (elem_of_concat_lookup cells j psj r Hpsj Hp).
    + exact (NoDup_concat_disjoint cells j i psj ps p Hcells Hpsj Hps Hne Hp).
Qed.

(** The loop of [raw_set_edge] on the pairs of one adjacency list. *)
Lemma overwrite_heap h (ps : list Heap.loc) (row : list (nat * W)) n2 w :
  Forall2 (Heap.pair_at h) ps row → NoDup ps →
  match overwrite n2 w row with
  | Some row' =>
      ∃ p t, p ∈ ps ∧
        Heap.overwrite n2 w ps h = (Ok true, <[p := Heap.Pair t w]> h) ∧
        Forall2 (Heap.pair_at (<[p := Heap.Pair t w]> h)) ps row'
  | None => Heap.overwrite n2 w ps h = (Ok false, h)
  end.
Proof.
  induction 1 as [|p [t x] ps row Hp Hps IH]; intros Hnd; simpl; [done|].
  apply NoDup_cons in Hnd as [Hnotin Hnd].
  rewrite (prog_bind_Ok _ _ _ _ _ (read_pair_Ok _ _ _ _ Hp)).
  cbn [fst snd]. destruct (decide (t = n2)) as [->|Hne].
  - exists p, n2. split; [left|]. split; [done|].
    constructor; [unfold Heap.pair_at; heap_lookup|].
    eapply pairs_frame; [done|]. intros p' Hp'.
    apply lookup_insert_ne. by intros ->.
  - specialize (IH Hnd). destruct (overwrite n2 w row) as [row'|]; simpl.
    + destruct IH as (p0 & t0 & Hp0 & Hov & Hrow'). exists p0, t0.
      split; [by right|]. split; [done|]. constructor; [|done].
      unfold Heap.pair_at. rewrite lookup_insert_ne; [done|].
      by intros ->.
    + done.
Qed.

Lemma lift_Ok {A : Type} (a : A) h : Heap.lift (Ok a) h = (Ok a, h).
Proof. done. Qed.

(** [raw_set_edge] on the heap does to the represented graph what
    [raw_set_edge] on values does; when that raises, the heap is as it
    was. *)
Lemma raw_set_edge_heap h self g F n1 n2 w :
  Heap.rep h self g F →
  ∃ h' F', (Heap.raw_set_edge self n1 n2 w h).2 = h' ∧
    Heap.rep h' self
      (match raw_set_edge g n1 n2 w with Ok g' => g' | _ => g end) F' ∧
    Heap.call_frame h h' self F F'.
Proof.
  intros Hrep. pose proof Hrep as [Hself Hhm Hdm Hadj Hrows Hsep].
  pose proof (sep_facts _ _ Hsep)
    as (Hn1 & Hn2 & Hn3 & Hn4 & Hn5 & Hn6 & Hs1 & Hs2 & Hs3 & Hs4 & Hnd).
  unfold Heap.raw_set_edge.
  rewrite (prog_bind_Ok _ _ _ _ _ (read_graph_Ok _ _ _ _ _ _ Hself)).
  rewrite (prog_bind_Ok _ _ _ _ _ (read_refs_Ok _ _ _ Hadj)).
  destruct (adj_list g !! n1) as [row|] eqn:Hrow.
  2:{ pose proof (rep_rows_None _ _ _ _ _ Hrep Hrow) as Hnone.
      unfold raw_set_edge, index. rewrite Hrow. simpl.
      rewrite (prog_bind_Raise _ _ _ IndexError h).
      - exists h, F. split_and!; [done|done|apply call_frame_refl].
      - unfold Heap.lift, index. by rewrite Hnone. }
  destruct (rep_rows_lookup _ _ _ _ _ _ Hrep Hrow) as (r & ps & Hr & Hps & Hrps).
  rewrite (raw_set_edge_row _ _ _ _ _ Hrow).
  rewrite (index_lookup _ _ _ Hr).
  rewrite (prog_bind_Ok _ _ _ _ _ (lift_Ok _ _)).
  destruct Hrps as [Hhr Hpairs].
  rewrite (prog_bind_Ok _ _ _ _ _ (read_refs_Ok _ _ _ Hhr)).
  assert (r ∈ Heap.l_rows F ++ concat (Heap.l_cells F)) as Hrin.
  { apply elem_of_app. left. by eapply list_elem_of_lookup_2. }
  assert (∀ p, p ∈ ps → p ∈ Heap.l_rows F ++ concat (Heap.l_cells F)) as Hpin.
  { intros p Hp. apply elem_of_app. right.
    exact (elem_of_concat_lookup _ _ _ _ Hps Hp). }
  assert (NoDup ps) as Hndps.
  { apply NoDup_app in Hnd as (_ & _ & Hnd).
    exact (NoDup_concat_lookup _ _ _ Hnd Hps). }
  assert (∀ p, p ∈ ps → p ≠ r) as Hpr.
  { intros p Hp ->. apply NoDup_app in Hnd as (_ & Hdisj & _).
    apply (Hdisj r); [by eapply list_elem_of_lookup_2|].
    exact (elem_of_concat_lookup _ _ _ _ Hps Hp). }
  pose proof (overwrite_heap h ps row n2 w Hpairs Hndps) as Hov.
  unfold set_row. destruct (overwrite n2 w row) as [row'|] eqn:Hpure.
  - destruct Hov as (p & t & Hp & Hov & Hrow').
    rewrite (prog_bind_Ok _ _ _ _ _ Hov). simpl.
    exists (<[p := Heap.Pair t w]> h), F.
    assert (∀ l, l ∈ Heap.locs self F → l ≠ p →
              <[p := Heap.Pair t w]> h !! l = h !! l) as Hsame.
    { intros l _ Hl. by apply lookup_insert_ne. }
    assert (p ∉ [self; Heap.l_hm F; Heap.l_dm F; Heap.l_adj F]) as Hpout.
    { rewrite !not_elem_of_cons. specialize (Hpin p Hp).
      split_and!; try (intros ->; done). apply not_elem_of_nil. }
    rewrite !not_elem_of_cons in Hpout. destruct Hpout as (? & ? & ? & ? & _).
    split; [done|]. split.
    + split; simpl; try (heap_lookup; fail).
      * replace (Heap.l_cells F) with (<[n1 := ps]> (Heap.l_cells F))
          by by apply list_insert_id.
        eapply rows_update; try done.
        -- split; [|done]. rewrite lookup_insert_ne; [done|].
           by apply Hpr.
        -- intros j rj psj Hne Hrj Hpsj.
           destruct (other_rows_apart _ _ n1 j r ps rj psj Hnd Hr Hps Hne Hrj Hpsj)
             as (Hrjr & Hrjps & Hpsjps).
           split.
           ++ apply lookup_insert_ne. by intros ->.
           ++ intros p' Hp'. apply lookup_insert_ne. intros Heq.
              destruct (Hpsjps p' Hp') as [_ Hn]. apply Hn.
              by rewrite <-Heq.
    + split_and!.
      * intros l Hl. rewrite lookup_insert_is_Some'. by right.
      * intros l Hl Hnotin. apply lookup_insert_ne. intros ->.
        apply Hnotin. unfold Heap.locs. do 4 right. by apply Hpin.
      * intros l ?. by left.
  - rewrite (prog_bind_Ok _ _ _ _ _ Hov). simpl.
    destruct (alloc_Ok h (Heap.Pair n2 w)) as (p & Hp & Hfresh).
    rewrite (prog_bind_Ok _ _ _ _ _ Hp).
    assert (p ∉ Heap.locs self F) as Hplocs.
    { intros [o Ho]%(rep_dom _ _ _ _ _ Hrep). congruence. }
    assert (p ≠ r) as Hpr' by (intros ->; congruence).
    assert (<[p := Heap.Pair n2 w]> h !! r = Some (Heap.Refs ps)) as Hhr'.
    { by rewrite lookup_insert_ne. }
    rewrite (prog_bind_Ok _ _ _ _ _ (read_refs_Ok _ _ _ Hhr')).
    rewrite write_Ok. simpl.
    set (h' := <[r := _]> (<[p := _]> h)).
    exists h', (Heap.MkLayout (Heap.l_hm F) (Heap.l_dm F) (Heap.l_adj F)
                  (Heap.l_rows F) (<[n1 := ps ++ [p]]> (Heap.l_cells F))).
    assert (p ∉ [self; Heap.l_hm F; Heap.l_dm F; Heap.l_adj F] ∧
            r ∉ [self; Heap.l_hm F; Heap.l_dm F; Heap.l_adj F]) as [Hpout Hrout].
    { unfold Heap.locs in Hplocs. rewrite !not_elem_of_cons in *.
      split_and!; try tauto; try (intros ->; done); apply not_elem_of_nil. }
    rewrite !not_elem_of_cons in Hpout, Hrout.
    destruct Hpout as (? & ? & ? & ? & _). destruct Hrout as (? & ? & ? & ? & _).
    assert (∀ l, l ∈ Heap.locs self F → l ≠ r → h' !! l = h !! l) as Hsame.
    { intros l Hl Hlr. unfold h'. rewrite !lookup_insert_ne; [done| |done].
      intros ->. done. }
    split; [done|]. split.
    + split; simpl; try (unfold h'; heap_lookup; fail).
      * eapply rows_update; try done.
        -- split; [unfold h'; heap_lookup|].
           apply Forall2_app.
           ++ eapply pairs_frame; [done|]. intros p' Hp'. apply Hsame.
              ** unfold Heap.locs. do 4 right. by apply Hpin.
              ** by apply Hpr.
           ++ constructor; [|constructor]. unfold Heap.pair_at, h'. simpl.
              heap_lookup.
        -- intros j rj psj Hne Hrj Hpsj.
           destruct (other_rows_apart _ _ n1 j r ps rj psj Hnd Hr Hps Hne Hrj Hpsj)
             as (Hrjr & Hrjps & Hpsjps).
           split.
           ++ apply Hsame; [|done]. unfold Heap.locs. do 4 right.
              apply elem_of_app. left. by eapply list_elem_of_lookup_2.
           ++ intros p' Hp'. apply Hsame; [|by destruct (Hpsjps p' Hp')].
              unfold Heap.locs. do 4 right. apply elem_of_app. right.
              exact (elem_of_concat_lookup _ _ _ _ Hpsj Hp').
      * rewrite (locs_new_cell self F n1 ps p Hps). by apply NoDup_cons.
    + split_and!.
      * intros l Hl. unfold h'. rewrite !lookup_insert_is_Some'. auto.
      * intros l Hl Hnotin. unfold h'.
        rewrite !lookup_insert_ne; [done| |].
        -- intros ->. rewrite Hfresh in Hl. by destruct Hl.
        -- intros ->. apply Hnotin. unfold Heap.locs. by do 4 right.
      * intros l. rewrite (locs_new_cell self F n1 ps p Hps).
        intros [->|?]%elem_of_cons; [by right|by left].
Qed.

Lemma set_edge_heap h self g F u v w :
  Heap.rep h self g F →
  ∃ h' F', (Heap.set_edge self u v w h).2 = h' ∧
    Heap.rep h' self (set_edge g u v w).1 F' ∧
    Heap.call_frame h h' self F F'.
Proof.
  intros Hrep. unfold Heap.set_edge, set_edge.
  destruct (register_node_heap h self g F u Hrep) as (h1 & F1 & Hreg1 & Hrep1 & Hfr1).
  rewrite (prog_bind_Ok _ _ _ _ _ Hreg1).
  destruct (register_node g u) as [g1 n1]. simpl in *.
  destruct (register_node_heap h1 self g1 F1 v Hrep1)
    as (h2 & F2 & Hreg2 & Hrep2 & Hfr2).
  rewrite (prog_bind_Ok _ _ _ _ _ Hreg2).
  destruct (register_node g1 v) as [g2 n2]. simpl in *.
  destruct (raw_set_edge_heap h2 self g2 F2 n1 n2 w Hrep2)
    as (h3 & F3 & Hraw & Hrep3 & Hfr3).
  exists h3, F3. split; [done|]. split.
  - by destruct (raw_set_edge g2 n1 n2 w).
  - eapply call_frame_trans; [|done]. by eapply call_frame_trans.
Qed.

(** ** [remove_edge] *)

Lemma map_value_heap h self g F u :
  Heap.rep h self g F → Heap.map_value self u h = (map_value g u, h).
Proof.
  intros [Hself Hhm _ _ _ _]. unfold Heap.map_value, map_value.
  rewrite (prog_bind_Ok _ _ _ _ _ (read_graph_Ok _ _ _ _ _ _ Hself)).
  rewrite (prog_bind_Ok _ _ _ _ _ (read_dict_Ok _ _ _ Hhm)).
  by destruct (hashmap g !! u).
Qed.

Lemma last_match_heap h (ps : list Heap.loc) (row : list (nat * W)) n2 acc :
  Forall2 (Heap.pair_at h) ps row →
  Heap.last_match n2 acc ps h = (Ok (last_match n2 acc row), h).
Proof.
  intros Hps. revert acc.
  induction Hps as [|p [t x] ps row Hp Hps IH]; intros acc; simpl; [done|].
  rewrite (prog_bind_Ok _ _ _ _ _ (read_pair_Ok _ _ _ _ Hp)). apply IH.
Qed.

Lemma list_remove_heap h (ps : list Heap.loc) (row : list (nat * W)) x :
  Forall2 (Heap.pair_at h) ps row →
  match list_remove x row with
  | Ok row' =>
      ∃ ps1 p ps2, ps = ps1 ++ p :: ps2 ∧
        Heap.list_remove x ps h = (Ok (ps1 ++ ps2), h) ∧
        Forall2 (Heap.pair_at h) (ps1 ++ ps2) row'
  | Raise e => Heap.list_remove x ps h = (Raise e, h)
  | OutOfFuel => False
  end.
Proof.
  induction 1 as [|p [t y] ps row Hp Hps IH]; simpl; [done|].
  rewrite (prog_bind_Ok _ _ _ _ _ (read_pair_Ok _ _ _ _ Hp)). cbn [fst snd].
  destruct (decide ((t, y) = x)) as [Heq|Hne].
  - exists [], p, ps. done.
  - destruct (list_remove x row) as [row'|e|]; simpl; [| |done].
    + destruct IH as (ps1 & p0 & ps2 & -> & Hrem & Hrow').
      exists (p :: ps1), p0, ps2. split; [done|].
      rewrite (prog_bind_Ok _ _ _ _ _ Hrem). split; [done|]. by constructor.
    + by rewrite (prog_bind_Raise _ _ _ _ _ IH).
Qed.

Lemma remove_edge_heap h self g F u v :
  Heap.rep h self g F →
  ∃ h' F', (Heap.remove_edge self u v h).2 = h' ∧
    Heap.rep h' self
      (match remove_edge g u v with Ok g' => g' | _ => g end) F' ∧
    Heap.call_frame h h' self F F'.
Proof.
  intros Hrep. pose proof Hrep as [Hself Hhm Hdm Hadj Hrows Hsep].
  pose proof (sep_facts _ _ Hsep)
    as (Hn1 & Hn2 & Hn3 & Hn4 & Hn5 & Hn6 & Hs1 & Hs2 & Hs3 & Hs4 & Hnd).
  pose proof (call_frame_refl h self F) as Hrefl.
  unfold Heap.remove_edge, remove_edge.
  pose proof (map_value_heap h self g F u Hrep) as Hmu.
  destruct (map_value g u) as [n1| |]; simpl;
    [|rewrite (prog_bind_Raise _ _ _ _ _ Hmu); by exists h, F|].
  2:{ unfold mbind, Heap.prog_bind. rewrite Hmu. by exists h, F. }
  rewrite (prog_bind_Ok _ _ _ _ _ Hmu).
  pose proof (map_value_heap h self g F v Hrep) as Hmv.
  destruct (map_value g v) as [n2| |]; simpl;
    [|rewrite (prog_bind_Raise _ _ _ _ _ Hmv); by exists h, F|].
  2:{ unfold mbind, Heap.prog_bind. rewrite Hmv. by exists h, F. }
  rewrite (prog_bind_Ok _ _ _ _ _ Hmv).
  rewrite (prog_bind_Ok _ _ _ _ _ (read_graph_Ok _ _ _ _ _ _ Hself)).
  rewrite (prog_bind_Ok _ _ _ _ _ (read_refs_Ok _ _ _ Hadj)).
  destruct (adj_list g !! n1) as [row|] eqn:Hrow.
  2:{ pose proof (rep_rows_None _ _ _ _ _ Hrep Hrow) as Hnone.
      unfold index. rewrite Hrow. simpl.
      rewrite (prog_bind_Raise _ _ _ IndexError h); [by exists h, F|].
      unfold Heap.lift, index. by rewrite Hnone. }
  destruct (rep_rows_lookup _ _ _ _ _ _ Hrep Hrow) as (r & ps & Hr & Hps & Hrps).
  rewrite (index_lookup _ _ _ Hrow), (index_lookup _ _ _ Hr). simpl.
  rewrite (prog_bind_Ok _ _ _ _ _ (lift_Ok _ _)).
  destruct Hrps as [Hhr Hpairs].
  rewrite (prog_bind_Ok _ _ _ _ _ (read_refs_Ok _ _ _ Hhr)).
  rewrite (prog_bind_Ok _ _ _ _ _ (last_match_heap _ _ _ _ _ Hpairs)).
  destruct (last_match n2 None row) as [x|]; [|by exists h, F].
  pose proof (list_remove_heap h ps row x Hpairs) as Hrem.
  destruct (list_remove x row) as [row'|e|]; simpl; [| |done].
  2:{ rewrite (prog_bind_Raise _ _ _ _ _ Hrem). by exists h, F. }
  destruct Hrem as (ps1 & p & ps2 & -> & Hrem & Hrow').
  rewrite (prog_bind_Ok _ _ _ _ _ Hrem). rewrite write_Ok. simpl.
  set (h' := <[r := _]> h).
  exists h', (Heap.MkLayout (Heap.l_hm F) (Heap.l_dm F) (Heap.l_adj F)
                (Heap.l_rows F) (<[n1 := ps1 ++ ps2]> (Heap.l_cells F))).
  assert (r ∈ Heap.l_rows F ++ concat (Heap.l_cells F)) as Hrin.
  { apply elem_of_app. left. by eapply list_elem_of_lookup_2. }
  assert (r ∉ [self; Heap.l_hm F; Heap.l_dm F; Heap.l_adj F]) as Hrout.
  { rewrite !not_elem_of_cons.
    split_and!; try (intros ->; done). apply not_elem_of_nil. }
  rewrite !not_elem_of_cons in Hrout. destruct Hrout as (? & ? & ? & ? & _).
  assert (∀ p', p' ∈ ps1 ++ p :: ps2 → p' ≠ r) as Hpr.
  { intros p' Hp' ->. apply NoDup_app in Hnd as (_ & Hdisj & _).
    apply (Hdisj r); [by eapply list_elem_of_lookup_2|].
    exact (elem_of_concat_lookup _ _ _ _ Hps Hp'). }
  pose proof (locs_less_cell self F n1 ps1 p ps2 Hps) as Hperm.
  split; [done|]. split.
  - split; simpl; try (unfold h'; heap_lookup; fail).
    + eapply rows_update; try done.
      * split; [unfold h'; heap_lookup|].
        eapply pairs_frame; [done|]. intros p' Hp'.
        apply lookup_insert_ne. intros Heq. apply (Hpr p'); [|done].
        apply elem_of_app in Hp' as [?|?]; apply elem_of_app; [by left|].
        right. by right.
      * intros j rj psj Hne Hrj Hpsj.
        destruct (other_rows_apart _ _ n1 j r _ rj psj Hnd Hr Hps Hne Hrj Hpsj)
          as (Hrjr & Hrjps & Hpsjps).
        split.
        -- by apply lookup_insert_ne.
        -- intros p' Hp'. apply lookup_insert_ne. intros Heq.
           destruct (Hpsjps p' Hp') as [Hn _]. by apply Hn.
    + rewrite <-Hperm in Hsep. by apply NoDup_cons in Hsep as [_ ?].
  - split_and!.
    + intros l Hl. unfold h'. rewrite lookup_insert_is_Some'. by right.
    + intros l Hl Hnotin. apply lookup_insert_ne. intros ->.
      apply Hnotin. unfold Heap.locs. by do 4 right.
    + intros l Hl. left. rewrite <-Hperm. by right.
Qed.

(** ** Any mutating call *)

Lemma run_mutation_heap h self g F (m : Heap.mutation W) :
  Heap.rep h self g F →
  ∃ F', Heap.rep (Heap.run_mutation self m h).2 self (Heap.apply_mutation g m) F' ∧
        Heap.call_frame h (Heap.run_mutation self m h).2 self F F'.
Proof.
  intros Hrep. destruct m as [u v w|u v|u]; simpl.
  - destruct (set_edge_heap h self g F u v w Hrep) as (h' & F' & <- & ? & ?).
    by exists F'.
  - destruct (remove_edge_heap h self g F u v Hrep) as (h' & F' & <- & ? & ?).
    by exists F'.
  - destruct (register_node_heap h self g F u Hrep) as (h' & F' & Hreg & ? & ?).
    rewrite (prog_bind_Ok _ _ _ _ _ Hreg). by exists F'.
Qed.

(** ** [deepcopy] and [copy] *)

Lemma keeps_refl h : Heap.keeps h h.
Proof. by intros l _. Qed.

Lemma keeps_insert h hk l (o : Heap.obj W) :
  Heap.keeps h hk → h !! l = None → Heap.keeps h (<[l := o]> hk).
Proof.
  intros Hk Hl l' Hl'. rewrite lookup_insert_ne; [by apply Hk|].
  intros ->. rewrite Hl in Hl'. by destruct Hl'.
Qed.

Lemma keeps_subseteq h hk hk' : Heap.keeps h hk → hk ⊆ hk' → Heap.keeps h hk'.
Proof.
  intros Hk Hsub l [o Ho]. rewrite Ho.
  eapply lookup_weaken; [|done]. rewrite Hk; [done|by eexists].
Qed.

Lemma keeps_None h hk l : Heap.keeps h hk → hk !! l = None → h !! l = None.
Proof.
  intros Hk Hl. destruct (h !! l) as [o|] eqn:Ho; [|done].
  rewrite Hk in Hl by by eexists. congruence.
Qed.

Lemma pairs_weaken h h' (ps : list Heap.loc) (row : list (nat * W)) :
  Forall2 (Heap.pair_at h) ps row → h ⊆ h' → Forall2 (Heap.pair_at h') ps row.
Proof.
  intros Hps Hsub. eapply Forall2_impl; [done|].
  intros p e Hp. by eapply lookup_weaken.
Qed.

Lemma row_at_weaken h h' r ps (row : list (nat * W)) :
  Heap.row_at h r ps row → h ⊆ h' → Heap.row_at h' r ps row.
Proof.
  intros [Hr Hps] Hsub. split; [by eapply lookup_weaken|].
  by eapply pairs_weaken.
Qed.

Lemma deepcopy_pair_heap h p (e : nat * W) :
  Heap.pair_at h p e →
  ∃ p', Heap.deepcopy_pair p h = (Ok p', <[p' := Heap.Pair e.1 e.2]> h) ∧
        h !! p' = None.
Proof.
  intros Hp. unfold Heap.deepcopy_pair.
  rewrite (prog_bind_Ok _ _ _ _ _ (read_pair_Ok _ _ _ _ Hp)).
  apply alloc_Ok.
Qed.

Lemma deepcopy_pairs_heap h (ps : list Heap.loc) (row : list (nat * W)) :
  Forall2 (Heap.pair_at h) ps row →
  ∃ ps' h', Heap.deepcopy_each Heap.deepcopy_pair ps h = (Ok ps', h') ∧
    Forall2 (Heap.pair_at h') ps' row ∧ NoDup ps' ∧
    (∀ l, l ∈ ps' → h !! l = None) ∧ h ⊆ h'.
Proof.
  revert h ps.
  induction row as [|e row IH]; intros h ps Hps.
  - apply Forall2_nil_inv_r in Hps as ->. exists [], h. simpl.
    split_and!; [done|constructor|constructor|by intros l ?%elem_of_nil|done].
  - apply Forall2_cons_inv_r in Hps as (p & ps0 & Hp & Hps & ->). simpl.
    destruct (deepcopy_pair_heap h p e Hp) as (p' & Hcopy & Hfresh).
    rewrite (prog_bind_Ok _ _ _ _ _ Hcopy).
    set (h1 := <[p' := Heap.Pair e.1 e.2]> h).
    assert (h ⊆ h1) as Hsub1 by by apply insert_subseteq.
    destruct (IH h1 ps0 (pairs_weaken _ _ _ _ Hps Hsub1))
      as (ps' & h2 & Hrest & Hps' & Hnd & Hfr & Hsub2).
    rewrite (prog_bind_Ok _ _ _ _ _ Hrest).
    exists (p' :: ps'), h2. split_and!.
    + done.
    + constructor; [|done]. eapply lookup_weaken; [|done].
      unfold h1. apply lookup_insert_eq.
    + apply NoDup_cons. split; [|done]. intros Hin%Hfr.
      unfold h1 in Hin. by rewrite lookup_insert_eq in Hin.
    + intros l [->|Hl%Hfr]%elem_of_cons; [done|].
      by eapply lookup_weaken_None.
    + by etrans.
Qed.

Lemma deepcopy_row_heap h r ps (row : list (nat * W)) :
  Heap.row_at h r ps row →
  ∃ r' ps' h', Heap.deepcopy_row r h = (Ok r', h') ∧
    Heap.row_at h' r' ps' row ∧ NoDup (r' :: ps') ∧
    (∀ l, l ∈ r' :: ps' → h !! l = None ∧ is_Some (h' !! l)) ∧ h ⊆ h'.
Proof.
  intros [Hr Hps]. unfold Heap.deepcopy_row.
  rewrite (prog_bind_Ok _ _ _ _ _ (read_refs_Ok _ _ _ Hr)).
  destruct (deepcopy_pairs_heap h ps row Hps)
    as (ps' & h1 & Hcopy & Hps' & Hnd & Hfr & Hsub).
  rewrite (prog_bind_Ok _ _ _ _ _ Hcopy).
  destruct (alloc_Ok h1 (Heap.Refs ps')) as (r' & -> & Hfresh).
  assert (∀ p, p ∈ ps' → is_Some (h1 !! p)) as Hdom.
  { intros p [i Hi]%list_elem_of_lookup.
    destruct (Forall2_lookup_l _ _ _ _ _ Hps' Hi) as (e & _ & He). by eexists. }
  assert (r' ∉ ps') as Hnotin.
  { intros [o Ho]%Hdom. congruence. }
  exists r', ps', (<[r' := Heap.Refs ps']> h1). split_and!.
  - done.
  - split; [apply lookup_insert_eq|].
    eapply pairs_weaken; [done|]. by apply insert_subseteq.
  - by apply NoDup_cons.
  - intros l [->|Hl]%elem_of_cons.
    + split; [by eapply lookup_weaken_None|]. rewrite lookup_insert_eq. by eexists.
    + split; [by apply Hfr|]. rewrite lookup_insert_is_Some'. right. by apply Hdom.
  - etrans; [done|]. by apply insert_subseteq.
Qed.

Lemma deepcopy_rows_heap h (rows : list Heap.loc) cells
    (adj : list (list (nat * W))) :
  Forall3 (Heap.row_at h) rows cells adj →
  ∃ rows' cells' h',
    Heap.deepcopy_each Heap.deepcopy_row rows h = (Ok rows', h') ∧
    Forall3 (Heap.row_at h') rows' cells' adj ∧
    NoDup (rows' ++ concat cells') ∧
    (∀ l, l ∈ rows' ++ concat cells' → h !! l = None ∧ is_Some (h' !! l)) ∧
    h ⊆ h'.
Proof.
  intros Hrows. revert h rows cells Hrows.
  induction adj as [|row adj IH]; intros h rows cells Hrows.
  - inversion Hrows; subst. exists [], [], h. simpl.
    split_and!; [done|constructor|constructor|by intros l ?%elem_of_nil|done].
  - inversion Hrows as [|r ps row0 rows0 cells0 adj0 Hrow Hrest]; subst.
    simpl.
    destruct (deepcopy_row_heap h r ps row Hrow)
      as (r' & ps' & h1 & Hcopy & Hrow' & Hnd1 & Hfr1 & Hsub1).
    rewrite (prog_bind_Ok _ _ _ _ _ Hcopy).
    assert (Forall3 (Heap.row_at h1) rows0 cells0 adj) as Hrest1.
    { eapply Forall3_impl; [done|]. intros ??? Hx. by eapply row_at_weaken. }
    destruct (IH h1 rows0 cells0 Hrest1)
      as (rows' & cells' & h2 & Hcopies & Hrows' & Hnd2 & Hfr2 & Hsub2).
    rewrite (prog_bind_Ok _ _ _ _ _ Hcopies).
    exists (r' :: rows'), (ps' :: cells'), h2. split_and!.
    + done.
    + constructor; [by eapply row_at_weaken|done].
    + simpl.
      assert ((r' :: rows') ++ ps' ++ concat cells'
                ≡ₚ (r' :: ps') ++ (rows' ++ concat cells')) as ->.
      { simpl. f_equiv. rewrite !app_assoc. f_equiv. apply Permutation_app_comm. }
      apply NoDup_app. split_and!; [done| |done].
      intros l Hl1 Hl2. destruct (Hfr1 l Hl1) as [_ [o Ho]].
      destruct (Hfr2 l Hl2) as [Hnone _]. congruence.
    + intros l Hl.
      assert (l ∈ (r' :: ps') ++ (rows' ++ concat cells')) as Hl'.
      { simpl in Hl. rewrite !elem_of_cons, !elem_of_app in *.
        rewrite elem_of_cons. tauto. }
      apply elem_of_app in Hl' as [Hl'|Hl'].
      * destruct (Hfr1 l Hl') as [? [o Ho]]. split; [done|].
        exists o. by eapply lookup_weaken.
      * destruct (Hfr2 l Hl') as [? ?]. split; [|done].
        by eapply lookup_weaken_None.
    + by etrans.
Qed.

Lemma new_graph_heap h :
  ∃ c hm dm adj,
    Heap.new_graph h =
      (Ok c, <[c := Heap.Graph 0 hm dm adj]>
               (<[adj := Heap.Refs []]>
                  (<[dm := Heap.Labels []]> (<[hm := Heap.Dict ∅]> h)))) ∧
    NoDup [c; hm; dm; adj] ∧
    (∀ l, l ∈ [c; hm; dm; adj] → h !! l = None).
Proof.
  unfold Heap.new_graph.
  destruct (alloc_Ok h (Heap.Dict ∅)) as (hm & Hhm & Fhm).
  rewrite (prog_bind_Ok _ _ _ _ _ Hhm).
  destruct (alloc_Ok (<[hm := Heap.Dict ∅]> h) (Heap.Labels []))
    as (dm & Hdm & Fdm).
  rewrite (prog_bind_Ok _ _ _ _ _ Hdm).
  destruct (alloc_Ok (<[dm := Heap.Labels []]> (<[hm := Heap.Dict ∅]> h))
              (Heap.Refs [])) as (adj & Hadj & Fadj).
  rewrite (prog_bind_Ok _ _ _ _ _ Hadj).
  destruct (alloc_Ok (<[adj := Heap.Refs []]>
              (<[dm := Heap.Labels []]> (<[hm := Heap.Dict ∅]> h)))
              (Heap.Graph 0 hm dm adj)) as (c & Hc & Fc).
  exists c, hm, dm, adj. split; [done|].
  apply lookup_insert_None in Fdm as [Fdm ?].
  apply lookup_insert_None in Fadj as [Fadj ?].
  apply lookup_insert_None in Fadj as [Fadj ?].
  apply lookup_insert_None in Fc as [Fc ?].
  apply lookup_insert_None in Fc as [Fc ?].
  apply lookup_insert_None in Fc as [Fc ?].
  split.
  - rewrite !NoDup_cons, !not_elem_of_cons.
    split_and!; try done; try apply not_elem_of_nil; try constructor;
      by apply not_eq_sym.
  - intros l. rewrite !elem_of_cons.
    intros [->|[->|[->|[->|?%elem_of_nil]]]]; done.
Qed.

(** [Wdgraph()] gives a represented empty graph made of new objects. *)
Lemma new_graph_rep h :
  ∃ c h' F, Heap.new_graph h = (Ok c, h') ∧
    Heap.rep h' c empty_graph F ∧ Heap.keeps h h' ∧
    (∀ l, l ∈ Heap.locs c F → h !! l = None).
Proof.
  destruct (new_graph_heap h) as (c & hm & dm & adj & Hnew & Hnd & Hfr).
  eexists c, _, (Heap.MkLayout hm dm adj [] []). split; [done|].
  pose proof Hnd as Hnd'.
  rewrite !NoDup_cons, !not_elem_of_cons in Hnd'.
  destruct Hnd' as ((? & ? & ? & _) & (? & ? & _) & (? & _) & _).
  split_and!.
  - split; simpl.
    + heap_lookup.
    + heap_lookup.
    + heap_lookup.
    + heap_lookup.
    + constructor.
    + unfold Heap.locs. simpl. done.
  - repeat apply keeps_insert; try apply keeps_refl; apply Hfr;
      rewrite !elem_of_cons; auto.
  - unfold Heap.locs. simpl. done.
Qed.

Lemma deepcopy_dict_heap h l d :
  h !! l = Some (Heap.Dict d) →
  ∃ l', Heap.deepcopy_dict l h = (Ok l', <[l' := Heap.Dict d]> h) ∧
        h !! l' = None.
Proof.
  intros Hl. unfold Heap.deepcopy_dict.
  rewrite (prog_bind_Ok _ _ _ _ _ (read_dict_Ok _ _ _ Hl)). apply alloc_Ok.
Qed.

Lemma deepcopy_labels_heap h l x :
  h !! l = Some (Heap.Labels x) →
  ∃ l', Heap.deepcopy_labels l h = (Ok l', <[l' := Heap.Labels x]> h) ∧
        h !! l' = None.
Proof.
  intros Hl. unfold Heap.deepcopy_labels.
  rewrite (prog_bind_Ok _ _ _ _ _ (read_labels_Ok _ _ _ Hl)). apply alloc_Ok.
Qed.

Lemma deepcopy_adj_heap h adj (rows : list Heap.loc) cells
    (rs : list (list (nat * W))) :
  h !! adj = Some (Heap.Refs rows) → Forall3 (Heap.row_at h) rows cells rs →
  ∃ adj' rows' cells' h',
    Heap.deepcopy_adj adj h = (Ok adj', h') ∧
    h' !! adj' = Some (Heap.Refs rows') ∧
    Forall3 (Heap.row_at h') rows' cells' rs ∧
    NoDup (adj' :: rows' ++ concat cells') ∧
    (∀ l, l ∈ adj' :: rows' ++ concat cells' → h !! l = None) ∧ h ⊆ h'.
Proof.
  intros Hadj Hrows. unfold Heap.deepcopy_adj.
  rewrite (prog_bind_Ok _ _ _ _ _ (read_refs_Ok _ _ _ Hadj)).
  destruct (deepcopy_rows_heap h rows cells rs Hrows)
    as (rows' & cells' & h1 & Hcopy & Hrows' & Hnd & Hfr & Hsub).
  rewrite (prog_bind_Ok _ _ _ _ _ Hcopy).
  destruct (alloc_Ok h1 (Heap.Refs rows')) as (adj' & -> & Hfresh).
  assert (adj' ∉ rows' ++ concat cells') as Hnotin.
  { intros [_ [o Ho]]%Hfr. congruence. }
  assert (h1 ⊆ <[adj' := Heap.Refs rows']> h1) as Hsub' by by apply insert_subseteq.
  exists adj', rows', cells', (<[adj' := Heap.Refs rows']> h1). split_and!.
  - done.
  - apply lookup_insert_eq.
  - eapply Forall3_impl; [done|]. intros ??? Hx. by eapply row_at_weaken.
  - by apply NoDup_cons.
  - intros l [->|Hl]%elem_of_cons; [by eapply lookup_weaken_None|].
    by apply Hfr.
  - by etrans.
Qed.

(** [copy] returns a graph object with the value of [self] that is made
    of new objects only, and leaves every object of the heap as it was. *)
Lemma copy_heap h self g F :
  Heap.rep h self g F →
  ∃ c h' Fc, Heap.copy self h = (Ok c, h') ∧
    Heap.rep h' c g Fc ∧ Heap.keeps h h' ∧
    (∀ l, l ∈ Heap.locs c Fc → h !! l = None).
Proof.
  intros Hrep.
  assert (∀ hk, Heap.keeps h hk → Heap.rep hk self g F) as Hkeep.
  { intros hk Hk. eapply rep_frame; [done|]. intros l Hl. apply Hk.
    by eapply rep_dom. }
  unfold Heap.copy.
  destruct (new_graph_heap h) as (c & hm0 & dm0 & adj0 & Hnew & Hnd0 & Hfr0).
  rewrite (prog_bind_Ok _ _ _ _ _ Hnew).
  set (h1 := <[c := _]> _) in *.
  assert (h !! c = None) as Hc by (apply Hfr0; left).
  assert (Heap.keeps h h1) as Hk1.
  { unfold h1. repeat apply keeps_insert; try apply keeps_refl; apply Hfr0;
      rewrite !elem_of_cons; auto. }
  rewrite (prog_bind_Ok _ _ _ _ _
             (read_graph_Ok _ _ _ _ _ _ (Heap.rep_self _ _ _ _ (Hkeep _ Hk1)))).
  assert (h1 !! c = Some (Heap.Graph 0 hm0 dm0 adj0)) as Hc1
    by (unfold h1; apply lookup_insert_eq).
  rewrite (prog_bind_Ok _ _ _ _ _ (read_graph_Ok _ _ _ _ _ _ Hc1)).
  rewrite (prog_bind_Ok _ _ _ _ _ (write_Ok _ _ _)).
  set (h2 := <[c := _]> h1).
  assert (Heap.keeps h h2) as Hk2 by by apply keeps_insert.
  destruct (deepcopy_dict_heap h2 _ _ (Heap.rep_hm _ _ _ _ (Hkeep _ Hk2)))
    as (hm' & Hcopy1 & Fhm).
  rewrite (prog_bind_Ok _ _ _ _ _ Hcopy1).
  rewrite (prog_bind_Ok _ _ _ _ _ (write_Ok _ _ _)).
  set (h4 := <[c := _]> (<[hm' := _]> h2)).
  assert (hm' ≠ c) as Hn1.
  { intros ->. unfold h2 in Fhm. by rewrite lookup_insert_eq in Fhm. }
  assert (Heap.keeps h h4) as Hk4.
  { unfold h4. apply keeps_insert; [|done]. apply keeps_insert; [done|].
    by eapply keeps_None. }
  destruct (deepcopy_labels_heap h4 _ _ (Heap.rep_dm _ _ _ _ (Hkeep _ Hk4)))
    as (dm' & Hcopy2 & Fdm).
  rewrite (prog_bind_Ok _ _ _ _ _ Hcopy2).
  rewrite (prog_bind_Ok _ _ _ _ _ (write_Ok _ _ _)).
  set (h6 := <[c := _]> (<[dm' := _]> h4)).
  assert (dm' ≠ c ∧ dm' ≠ hm') as [Hn2 Hn3].
  { unfold h4 in Fdm. apply lookup_insert_None in Fdm as [Fdm ?].
    apply lookup_insert_None in Fdm as [Fdm ?]. done. }
  assert (Heap.keeps h h6) as Hk6.
  { unfold h6. apply keeps_insert; [|done]. apply keeps_insert; [done|].
    by eapply keeps_None. }
  destruct (deepcopy_adj_heap h6 _ _ _ _ (Heap.rep_adj _ _ _ _ (Hkeep _ Hk6))
              (Heap.rep_rows _ _ _ _ (Hkeep _ Hk6)))
    as (adj' & rows' & cells' & h7 & Hcopy3 & Hadj' & Hrows' & Hnd & Hfr & Hsub).
  rewrite (prog_bind_Ok _ _ _ _ _ Hcopy3).
  rewrite (prog_bind_Ok _ _ _ _ _ (write_Ok _ _ _)).
  set (h8 := <[c := _]> h7).
  assert (h6 !! c = Some (Heap.Graph (len g) hm' dm' adj0)) as Hc6
    by (unfold h6; apply lookup_insert_eq).
  assert (h6 !! hm' = Some (Heap.Dict (hashmap g))) as Hhm6
    by (unfold h6, h4; heap_lookup).
  assert (h6 !! dm' = Some (Heap.Labels (directmap g))) as Hdm6
    by (unfold h6; heap_lookup).
  assert (∀ l, l ∈ adj' :: rows' ++ concat cells' →
            l ≠ c ∧ l ≠ hm' ∧ l ≠ dm') as Hnew3.
  { intros l Hl%Hfr. split_and!; intros ->; congruence. }
  exists c, h8, (Heap.MkLayout hm' dm' adj' rows' cells').
  split; [done|]. split_and!.
  - split; simpl.
    + unfold h8. apply lookup_insert_eq.
    + unfold h8. rewrite lookup_insert_ne by done. by eapply lookup_weaken.
    + unfold h8. rewrite lookup_insert_ne by done. by eapply lookup_weaken.
    + unfold h8. rewrite lookup_insert_ne; [done|].
      intros ->. destruct (Hnew3 adj') as [? _]; [left|done].
    + apply Forall3_pointwise.
      apply Forall3_pointwise in Hrows' as (? & ? & Hrows').
      split_and!; try done. intros i r ps row Hr Hps Hrow.
      eapply row_at_frame; [by eapply Hrows'| |].
      * apply lookup_insert_ne. intros ->.
        destruct (Hnew3 r) as [? _]; [|done]. right. apply elem_of_app. left.
        by eapply list_elem_of_lookup_2.
      * intros p Hp. apply lookup_insert_ne. intros ->.
        destruct (Hnew3 p) as [? _]; [|done]. right. apply elem_of_app. right.
        exact (elem_of_concat_lookup _ _ _ _ Hps Hp).
    + unfold Heap.locs. simpl. rewrite !NoDup_cons, !not_elem_of_cons.
      split_and!; try done; try (by apply not_eq_sym).
      * intros Hin. by destruct (Hnew3 adj'); [left|].
      * intros Hin. by destruct (Hnew3 c); [right|].
      * intros Hin. by destruct (Hnew3 adj') as (? & ? & ?); [left|].
      * intros Hin. by destruct (Hnew3 hm') as (? & ? & ?); [right|].
      * intros Hin. by destruct (Hnew3 adj') as (? & ? & ?); [left|].
      * intros Hin. by destruct (Hnew3 dm') as (? & ? & ?); [right|].
      * by apply NoDup_cons in Hnd as [? _].
      * by apply NoDup_cons in Hnd as [_ ?].
  - unfold h8. apply keeps_insert; [|done]. by eapply keeps_subseteq.
  - unfold Heap.locs. simpl. intros l. rewrite !elem_of_cons.
    intros [->|[->|[->|Hl]]];
      [done|exact (keeps_None h h2 hm' Hk2 Fhm)
      |exact (keeps_None h h4 dm' Hk4 Fdm)|].
    eapply keeps_None; [exact Hk6|]. apply Hfr. by rewrite elem_of_cons.
Qed.

(** ** Two graphs that share no object *)

Lemma apart_sym h a ga Fa c gc Fc :
  Heap.apart h a ga Fa c gc Fc → Heap.apart h c gc Fc a ga Fa.
Proof. intros (Ha & Hc & Hd). split_and!; try done. intros l Hl Hl'. by eapply Hd. Qed.

Lemma apart_ne h a ga Fa c gc Fc : Heap.apart h a ga Fa c gc Fc → a ≠ c.
Proof.
  intros (_ & _ & Hd) ->. apply (Hd c); unfold Heap.locs; left.
Qed.

(** A call on one of two graphs that share no object changes that graph
    as the store says and leaves the other one alone. *)
Lemma run_mutation_apart h a ga Fa c gc Fc (m : Heap.mutation W) :
  Heap.apart h a ga Fa c gc Fc →
  ∃ Fa', Heap.apart (Heap.run_mutation a m h).2 a (Heap.apply_mutation ga m) Fa'
           c gc Fc.
Proof.
  intros (Ha & Hc & Hd).
  destruct (run_mutation_heap h a ga Fa m Ha) as (Fa' & Ha' & Hdom & Hout & Hin).
  exists Fa'. split_and!; [done| |].
  - eapply rep_frame; [done|]. intros l Hl. apply Hout.
    + by eapply rep_dom.
    + intros Hl'. by eapply Hd.
  - intros l [Hl|Hl]%Hin Hl'; [by eapply Hd|].
    destruct (rep_dom _ _ _ _ _ Hc Hl') as [o Ho]. congruence.
Qed.

Lemma calls_on_cons_eq self (m : Heap.mutation W) ms :
  Heap.calls_on self ((self, m) :: ms) = m :: Heap.calls_on self ms.
Proof. unfold Heap.calls_on. by rewrite filter_cons_True. Qed.

Lemma calls_on_cons_ne self x (m : Heap.mutation W) ms :
  x ≠ self → Heap.calls_on self ((x, m) :: ms) = Heap.calls_on self ms.
Proof. intros Hne. unfold Heap.calls_on. by rewrite filter_cons_False. Qed.

Lemma calls_on_none self (ms : list (Heap.loc * Heap.mutation W)) :
  Forall (λ m, m.1 ≠ self) ms → Heap.calls_on self ms = [].
Proof.
  induction 1 as [|[x m] ms Hx _ IH]; [done|].
  by rewrite calls_on_cons_ne.
Qed.

(** Any sequence of calls on two graphs that share no object: each graph
    gets the value the store computes from the calls made on it. *)
Lemma run_mutations_apart ms : ∀ h a ga Fa c gc Fc,
  Heap.apart h a ga Fa c gc Fc →
  Forall (λ m : Heap.loc * Heap.mutation W, m.1 = a ∨ m.1 = c) ms →
  ∃ Fa' Fc',
    Heap.apart (Heap.run_mutations ms h)
      a (Heap.apply_mutations ga (Heap.calls_on a ms)) Fa'
      c (Heap.apply_mutations gc (Heap.calls_on c ms)) Fc'.
Proof.
  induction ms as [|[x m] ms IH]; intros h a ga Fa c gc Fc Hap Hms.
  - by exists Fa, Fc.
  - apply Forall_cons in Hms as [Hx Hms]. simpl in Hx.
    pose proof (apart_ne _ _ _ _ _ _ _ Hap) as Hne.
    destruct Hx as [->| ->].
    + destruct (run_mutation_apart h a ga Fa c gc Fc m Hap) as (Fa' & Hap').
      destruct (IH _ _ _ _ _ _ _ Hap' Hms) as (Fa'' & Fc'' & Hfin).
      exists Fa'', Fc''. rewrite calls_on_cons_eq, calls_on_cons_ne by done.
      done.
    + destruct (run_mutation_apart h c gc Fc a ga Fa m (apart_sym _ _ _ _ _ _ _ Hap))
        as (Fc' & Hap').
      destruct (IH _ _ _ _ _ _ _ (apart_sym _ _ _ _ _ _ _ Hap') Hms)
        as (Fa'' & Fc'' & Hfin).
      exists Fa'', Fc''. rewrite calls_on_cons_eq, calls_on_cons_ne by done.
      done.
Qed.

Lemma same_observations_value self h h' :
  Heap.value_of h' self = Heap.value_of h self →
  Heap.same_observations self h h'.
Proof.
  intros Hv. unfold Heap.same_observations, Heap.get_edge, Heap.get_outdegree,
    Heap.graph_len, Heap.get_inneighbors, Heap.observe. simpl.
  by rewrite Hv.
Qed.

(** A graph and its copy share no object. *)
Lemma copy_apart h self g F :
  Heap.rep h self g F →
  ∃ c h1 Fc, Heap.copy self h = (Ok c, h1) ∧ Heap.apart h1 self g F c g Fc.
Proof.
  intros Hrep.
  destruct (copy_heap h self g F Hrep) as (c & h1 & Fc & Hcopy & Hc & Hk & Hfr).
  exists c, h1, Fc. split; [done|]. split_and!; [|done|].
  - eapply rep_frame; [done|]. intros l Hl. apply Hk. by eapply rep_dom.
  - intros l Hl Hl'. destruct (rep_dom _ _ _ _ _ Hrep Hl) as [o Ho].
    rewrite (Hfr l Hl') in Ho. done.
Qed.

End HeapFacts.

Open Scope Z_scope.

(* ===================================================================== *)
(** * The first pass: distances *)
(* ===================================================================== *)

Lemma before_index (u v : string) L (j : nat) :
  NoDup L → before u v L → L !! j = Some v →
  ∃ i, (i < j)%nat ∧ L !! i = Some u.
Proof.
  intros Hnd (i & j' & Hi & Hj' & Hlt)%before_lookup Hj.
  assert (j' = j) as -> by exact (NoDup_lookup _ _ _ _ Hnd Hj' Hj).
  by exists i.
Qed.

Lemma fold_insert_lookup (kvs : list (string * Z)) (d0 : gmap string Z) v :
  (∀ kv, kv ∈ kvs → kv.2 = 0) →
  fold_left (λ d kv, <[kv.1 := kv.2]> d) kvs d0 !! v =
  if decide (v ∈ kvs.*1) then Some 0 else d0 !! v.
Proof.
  revert d0. induction kvs as [|[k x] kvs IH]; intros d0 Hz.
  - done.
  - cbn [fold_left]. rewrite IH by (intros kv Hkv; apply Hz; by right).
    rewrite fmap_cons. cbn [fst snd].
    assert (x = 0) as -> by (apply (Hz (k, x)); left).
    destruct (decide (v ∈ kvs.*1)) as [Hin|Hnotin].
    + rewrite decide_True; [done|]. by right.
    + destruct (decide (v = k)) as [->|Hne].
      * rewrite lookup_insert_eq. rewrite decide_True; [done|]. left.
      * rewrite lookup_insert_ne by done. rewrite decide_False; [done|].
        by intros [?|?]%elem_of_cons.
Qed.

Lemma initial_dist_lookup (L : list string) (n : nat) v :
  length L = n →
  initial_dist L n !! v = if decide (v ∈ L) then Some 0 else None.
Proof.
  intros Hlen. unfold initial_dist. rewrite fold_insert_lookup.
  - rewrite fst_zip by (rewrite length_replicate; lia).
    by rewrite lookup_empty.
  - intros [k x] Hkv. simpl.
    apply (list_elem_of_fmap_2 snd) in Hkv. simpl in Hkv.
    rewrite snd_zip in Hkv by (rewrite length_replicate; lia).
    by apply elem_of_replicate in Hkv as [-> _].
Qed.

Lemma fold_left_max (xs : list Z) (acc : Z) :
  0 ≤ acc → fold_left Z.max xs acc = Z.max acc (foldr Z.max 0 xs).
Proof.
  revert acc. induction xs as [|x xs IH]; intros acc Hacc; simpl; [lia|].
  rewrite IH by lia. lia.
Qed.

Lemma fold_left_max0 (xs : list Z) : fold_left Z.max xs 0 = max0 xs.
Proof.
  unfold max0. rewrite fold_left_max by done.
  assert (0 ≤ foldr Z.max 0 xs) as Hnn by (induction xs; simpl; lia). lia.
Qed.

Lemma max0_nonneg (xs : list Z) : 0 ≤ max0 xs.
Proof. unfold max0. induction xs; simpl; lia. Qed.

(** The inner loop of the first pass computes a running maximum. *)
Lemma max_over_spec (dist : gmap string Z) acc src (inn : list (string * Z)) :
  (∀ u w, (u, w) ∈ inn → is_Some (dist !! u)) →
  ∃ src', max_over dist acc src inn =
    Ok (fold_left Z.max (candidates (dval dist) inn) acc, src').
Proof.
  revert acc src. induction inn as [|[u w] inn IH]; intros acc src Hdef; simpl.
  - by exists src.
  - destruct (Hdef u w) as [du Hdu]; [left|].
    unfold dict_get. rewrite Hdu. simpl.
    assert (dval dist u = du) as Hdv by (unfold dval; by rewrite Hdu).
    rewrite Hdv.
    case_decide as Hgt.
    + destruct (IH (du + w) (Some u)) as [src' ->].
      { intros u' w' ?. apply (Hdef u' w'). by right. }
      exists src'. do 2 f_equal. f_equal. lia.
    + destruct (IH acc src) as [src' ->].
      { intros u' w' ?. apply (Hdef u' w'). by right. }
      exists src'. do 2 f_equal. f_equal. lia.
Qed.

Lemma candidates_ext (d1 d2 : string → Z) (inn : list (string * Z)) :
  (∀ u w, (u, w) ∈ inn → d1 u = d2 u) → candidates d1 inn = candidates d2 inn.
Proof.
  intros Hext. unfold candidates. apply list_fmap_ext.
  intros i [u w] Hi. simpl. f_equal. apply (Hext u w).
  by eapply list_elem_of_lookup_2.
Qed.

Section Relax.
Variable G : Wdgraph Z.
Variable L : list string.
Hypothesis Hwf : wf G.
Hypothesis Hperm : L ≡ₚ directmap G.
Hypothesis Hord : ∀ u v x, get_edge G u v = Ok x → before u v L.

Lemma order_NoDup : NoDup L.
Proof. rewrite Hperm. by apply wf_directmap_NoDup. Qed.

Lemma order_registered v : v ∈ L → is_Some (hashmap G !! v).
Proof. rewrite Hperm. by apply wf_registered. Qed.

(** The sources of the edges into the node at position [j] stand at
    earlier positions. *)
Lemma sources_earlier v j inn u w :
  L !! j = Some v → get_inneighbors G v = Ok inn → (u, w) ∈ inn →
  ∃ i, (i < j)%nat ∧ L !! i = Some u.
Proof.
  intros Hj Hinn Hin.
  destruct (order_registered v) as [n Hn]; [by eapply list_elem_of_lookup_2|].
  destruct (get_inneighbors_spec G v n Hwf Hn) as (inn' & Hinn' & Hmem).
  assert (inn' = inn) as -> by congruence.
  apply Hmem in Hin. eapply before_index; [apply order_NoDup|by eapply Hord|done].
Qed.

(** The first pass from the position [length P] on: the nodes of [P] are
    relaxed already, and afterwards all nodes are. *)
Lemma relax_spec (P rest : list string) (dist : gmap string Z) :
  L = P ++ rest →
  (∀ v, is_Some (dist !! v) ↔ v ∈ L) →
  (∀ v, v ∈ P → relaxed G dist v) →
  ∃ dist', relax G dist rest = Ok dist' ∧
    (∀ v, is_Some (dist' !! v) ↔ v ∈ L) ∧
    (∀ v, v ∈ L → relaxed G dist' v).
Proof.
  revert P dist. induction rest as [|target rest IH]; intros P dist HL Hdom HP.
  - exists dist. simpl. split_and!; try done.
    intros v Hv. apply HP. by rewrite HL, app_nil_r in Hv.
  - assert (L !! length P = Some target) as Hj.
    { rewrite HL. by rewrite list_lookup_middle. }
    assert (target ∈ L) as HtL by by eapply list_elem_of_lookup_2.
    destruct (order_registered target HtL) as [n Hn].
    destruct (get_inneighbors_spec G target n Hwf Hn) as (inn & Hinn & _).
    assert (∀ v j inn' u w, L !! j = Some v → (j ≤ length P)%nat →
              get_inneighbors G v = Ok inn' → (u, w) ∈ inn' →
              u ∈ P ∧ u ≠ target) as Hsrc.
    { intros v j inn' u w Hv Hle Hinn' Hin.
      destruct (sources_earlier v j inn' u w Hv Hinn' Hin) as (i & Hlt & Hi).
      split.
      - rewrite HL, lookup_app_l in Hi by lia. by eapply list_elem_of_lookup_2.
      - intros ->.
        assert (i = length P) by exact (NoDup_lookup _ _ _ _ order_NoDup Hi Hj).
        lia. }
    assert (∀ u w, (u, w) ∈ inn → is_Some (dist !! u)) as Hdef.
    { intros u w Hin. apply Hdom. rewrite HL. apply elem_of_app. left.
      by eapply (Hsrc target (length P) inn u w). }
    destruct (max_over_spec dist 0 None inn Hdef) as [src' Hmax].
    simpl. rewrite Hinn. simpl. rewrite Hmax. simpl.
    rewrite fold_left_max0.
    set (m := max0 (candidates (dval dist) inn)).
    destruct (IH (P ++ [target]) (<[target := m]> dist)) as (dist' & -> & Hd');
      [by rewrite <-app_assoc| | |by exists dist'].
    + intros v. rewrite lookup_insert_is_Some, Hdom.
      split; [intros [<-|[_ ?]]; done|].
      intros Hv. destruct (decide (target = v)); [by left|by right].
    + assert (∀ v j inn', L !! j = Some v → (j ≤ length P)%nat →
                get_inneighbors G v = Ok inn' →
                candidates (dval (<[target := m]> dist)) inn' =
                candidates (dval dist) inn') as Hcand.
      { intros v j inn' Hv Hle Hinn'. apply candidates_ext.
        intros u w Hin. unfold dval.
        rewrite lookup_insert_ne; [done|].
        intros ->. by destruct (Hsrc v j inn' u w Hv Hle Hinn' Hin). }
      intros v [Hv| ->%list_elem_of_singleton]%elem_of_app.
      * destruct (HP v Hv) as (inn' & Hinn' & Hdef' & Hval).
        apply list_elem_of_lookup in Hv as [j Hjv].
        assert (L !! j = Some v) as HLj.
        { rewrite HL. by apply lookup_app_l_Some. }
        assert (j < length P)%nat as Hjlt by by eapply lookup_lt_Some.
        exists inn'. split_and!; [done| |].
        -- intros u w Hin. rewrite lookup_insert_is_Some'. right. eauto.
        -- rewrite lookup_insert_ne.
           ++ rewrite Hval. f_equal. f_equal. symmetry.
              apply (Hcand v j); [done|lia|done].
           ++ intros ->.
              assert (j = length P)
                by exact (NoDup_lookup _ _ _ _ order_NoDup HLj Hj).
              lia.
      * exists inn. split_and!; [done| |].
        -- intros u w Hin. rewrite lookup_insert_is_Some'. right. eauto.
        -- rewrite lookup_insert_eq. f_equal. unfold m. f_equal. symmetry.
           apply (Hcand target (length P)); [done|lia|done].
Qed.

(** The first pass on the whole order. *)
Lemma relax_order :
  ∃ dist, relax G (initial_dist L (len G)) L = Ok dist ∧
    (∀ v, is_Some (dist !! v) ↔ v ∈ L) ∧
    (∀ v, v ∈ L → relaxed G dist v).
Proof.
  apply (relax_spec [] L); [done| |by intros v ?%elem_of_nil].
  intros v. rewrite initial_dist_lookup.
  - case_decide; [by split; eauto|]. split; [by intros [? ?]|done].
  - rewrite Hperm. apply (wf_directmap G Hwf).
Qed.

End Relax.

(* ===================================================================== *)
(** * The second pass: the walk back from [t] *)
(* ===================================================================== *)

Lemma best_source_spec (dist : gmap string Z) md mn (inn : list (string * Z)) :
  (∀ u w, (u, w) ∈ inn → is_Some (dist !! u)) →
  ∃ md' mn', best_source dist md mn inn = Ok (md', mn') ∧
    (mn' = mn ∨ ∃ u w, mn' = Some u ∧ (u, w) ∈ inn) ∧
    (md = None → inn ≠ [] → ∃ u w, mn' = Some u ∧ (u, w) ∈ inn).
Proof.
  revert md mn. induction inn as [|[u w] inn IH]; intros md mn Hdef; simpl.
  - exists md, mn. split_and!; [done|by left|done].
  - destruct (Hdef u w) as [du Hdu]; [left|].
    unfold dict_get. rewrite Hdu. simpl.
    assert (∀ u' w', (u', w') ∈ inn → is_Some (dist !! u')) as Hdef'.
    { intros u' w' ?. apply (Hdef u' w'). by right. }
    destruct (above du md) eqn:Habove.
    + destruct (IH (Some du) (Some u) Hdef') as (md' & mn' & -> & Hmn & _).
      exists md', mn'. split; [done|].
      assert (∃ u0 w0, mn' = Some u0 ∧ (u0, w0) ∈ (u, w) :: inn) as Hsrc.
      { destruct Hmn as [->|(u0 & w0 & -> & Hin)].
        - exists u, w. split; [done|left].
        - exists u0, w0. split; [done|by right]. }
      split; [by right|done].
    + destruct (IH md mn Hdef') as (md' & mn' & -> & Hmn & _).
      exists md', mn'. split; [done|]. split.
      * destruct Hmn as [->|(u0 & w0 & -> & Hin)]; [by left|].
        right. exists u0, w0. split; [done|by right].
      * intros ->. done.
Qed.

Lemma walk_back_fuel (fuel fuel' : nat) G dist cp current r :
  walk_back fuel G dist cp current = r → r ≠ OutOfFuel → (fuel ≤ fuel')%nat →
  walk_back fuel' G dist cp current = r.
Proof.
  revert fuel' cp current.
  induction fuel as [|fuel IH]; intros fuel' cp current Hr Hne Hle.
  - simpl in Hr. congruence.
  - destruct fuel' as [|fuel']; [lia|]. simpl in *.
    case_decide; [|done].
    destruct (get_inneighbors_of G current) as [inn| |]; simpl in *; try done.
    destruct (best_source dist None None inn) as [[md mn]| |]; simpl in *;
      try done.
    apply IH; [done|done|lia].
Qed.

Section WalkBack.
Variable G : Wdgraph Z.
Variable L : list string.
Variable dist : gmap string Z.
Hypothesis Hwf : wf G.
Hypothesis Hperm : L ≡ₚ directmap G.
Hypothesis Hord : ∀ u v x, get_edge G u v = Ok x → before u v L.
Hypothesis Hdom : ∀ v, is_Some (dist !! v) ↔ v ∈ L.

(** One step back from the node at position [j]: either nothing enters
    it and the choice is [None], or the choice is the source of an edge
    into it, which stands at an earlier position. *)
Lemma walk_step c (j : nat) :
  L !! j = Some c →
  ∃ inn md mn, get_inneighbors G c = Ok inn ∧
    best_source dist None None inn = Ok (md, mn) ∧
    ((inn = [] ∧ mn = None) ∨
     (∃ u w i, mn = Some u ∧ get_edge G u c = Ok w ∧
               (i < j)%nat ∧ L !! i = Some u)).
Proof.
  intros Hj.
  destruct (order_registered G L Hwf Hperm c) as [n Hn];
    [by eapply list_elem_of_lookup_2|].
  destruct (get_inneighbors_spec G c n Hwf Hn) as (inn & Hinn & Hmem).
  assert (∀ u w, (u, w) ∈ inn → ∃ i, (i < j)%nat ∧ L !! i = Some u) as Hearly.
  { intros u w Hin. by eapply (sources_earlier G L Hwf Hperm Hord c j inn). }
  destruct (best_source_spec dist None None inn) as (md & mn & Hbest & Hmn & Hne).
  { intros u w Hin. apply Hdom. destruct (Hearly u w Hin) as (i & _ & Hi).
    by eapply list_elem_of_lookup_2. }
  exists inn, md, mn. split_and!; [done|done|].
  destruct inn as [|e inn].
  - left. split; [done|]. destruct Hmn as [->|(u & w & _ & ?%elem_of_nil)]; done.
  - right. destruct (Hne eq_refl) as (u & w & -> & Hin); [done|].
    destruct (Hearly u w Hin) as (i & Hlt & Hi).
    exists u, w, i. split_and!; try done. by apply Hmem.
Qed.

Lemma walk_back_None (fuel : nat) cp :
  walk_back (S fuel) G dist cp None = Raise UnregisteredNode.
Proof. done. Qed.

(** The walk back ends: from the node at position [j] it makes at most
    [j + 2] tests of the loop condition. *)
Lemma walk_back_ends (j : nat) : ∀ c cp (fuel : nat),
  L !! j = Some c → (j + 2 ≤ fuel)%nat →
  walk_back fuel G dist cp (Some c) ≠ OutOfFuel.
Proof.
  induction j as [j IH] using lt_wf_ind. intros c cp fuel Hj Hfuel.
  destruct fuel as [|fuel]; [lia|]. simpl. case_decide as Hs; [|done].
  destruct (walk_step c j Hj) as (inn & md & mn & -> & Hbest & Hcase). simpl.
  rewrite Hbest. simpl.
  destruct Hcase as [[_ ->]|(u & w & i & -> & _ & Hlt & Hi)].
  - destruct fuel as [|fuel]; [lia|]. by rewrite walk_back_None.
  - apply (IH i Hlt); [done|lia].
Qed.


End WalkBack.

(** Two maps that solve the recurrence of the first pass on the same
    ordered graph are equal. *)
Lemma relaxed_unique G L (dist1 dist2 : gmap string Z) :
  wf G → L ≡ₚ directmap G →
  (∀ u v x, get_edge G u v = Ok x → before u v L) →
  (∀ v, is_Some (dist1 !! v) ↔ v ∈ L) →
  (∀ v, is_Some (dist2 !! v) ↔ v ∈ L) →
  (∀ v, v ∈ L → relaxed G dist1 v) →
  (∀ v, v ∈ L → relaxed G dist2 v) →
  dist1 = dist2.
Proof.
  intros Hwf Hperm Hord Hdom1 Hdom2 Hrel1 Hrel2.
  assert (∀ j v, L !! j = Some v → dist1 !! v = dist2 !! v) as Hpos.
  { induction j as [j IH] using lt_wf_ind. intros v Hj.
    assert (v ∈ L) as HvL by by eapply list_elem_of_lookup_2.
    destruct (Hrel1 v HvL) as (inn & Hinn & _ & ->).
    destruct (Hrel2 v HvL) as (inn' & Hinn' & _ & ->).
    assert (inn' = inn) as -> by congruence.
    do 2 f_equal. apply candidates_ext. intros u w Hin.
    destruct (sources_earlier G L Hwf Hperm Hord v j inn u w Hj Hinn Hin)
      as (i & Hlt & Hi).
    unfold dval. by rewrite (IH i Hlt u Hi). }
  apply map_eq. intros v. destruct (decide (v ∈ L)) as [HvL|HvL].
  - apply list_elem_of_lookup in HvL as [j Hj]. by eapply Hpos.
  - rewrite (proj2 (eq_None_not_Some (dist1 !! v))) by by rewrite Hdom1.
    by rewrite (proj2 (eq_None_not_Some (dist2 !! v))) by by rewrite Hdom2.
Qed.

(* ===================================================================== *)
(** * [solve_max_path] as a whole *)
(* ===================================================================== *)

(** After a returned order the first pass returns a map defined on the
    nodes that solves the recurrence at each of them. *)
Lemma max_distances_Ok pick (fuel : nat) G L :
  wf G → kahns_algorithm pick fuel G = Ok L →
  ∃ dist, max_distances pick fuel G = Ok dist ∧
    (∀ v, is_Some (dist !! v) ↔ v ∈ L) ∧
    (∀ v, v ∈ L → relaxed G dist v).
Proof.
  intros Hwf HL. destruct (kahn_Ok pick G fuel L Hwf HL) as [Hperm Hord].
  destruct (relax_order G L Hwf Hperm Hord) as (dist & Hrel & Hdom & Hsol).
  exists dist. unfold max_distances. rewrite HL. simpl. by rewrite Hrel.
Qed.

Lemma max_distances_inv pick (fuel : nat) G dist :
  wf G → max_distances pick fuel G = Ok dist →
  ∃ L, kahns_algorithm pick fuel G = Ok L ∧
    (∀ v, is_Some (dist !! v) ↔ v ∈ L) ∧
    (∀ v, v ∈ L → relaxed G dist v).
Proof.
  intros Hwf Hmd.
  destruct (kahns_algorithm pick fuel G) as [L| |] eqn:HL;
    try (unfold max_distances in Hmd; by rewrite HL in Hmd).
  exists L. split; [done|].
  destruct (max_distances_Ok pick fuel G L Hwf HL) as (dist' & Hmd' & ?).
  assert (dist' = dist) as -> by congruence. done.
Qed.

(** The walk back from ["t"] does not run out of fuel. *)
Lemma walk_back_t_ends G L dist (fuel : nat) :
  wf G → L ≡ₚ directmap G →
  (∀ u v x, get_edge G u v = Ok x → before u v L) →
  (∀ v, is_Some (dist !! v) ↔ v ∈ L) →
  (len G < fuel)%nat →
  walk_back fuel G dist [Some "t"] (Some "t") ≠ OutOfFuel.
Proof.
  intros Hwf Hperm Hord Hdom Hfuel.
  destruct (decide ("t" ∈ L)) as [HtL|HtL].
  - apply list_elem_of_lookup in HtL as [j Hj].
    apply (walk_back_ends G L dist Hwf Hperm Hord Hdom j); [done|].
    apply lookup_lt_Some in Hj. rewrite Hperm, (wf_directmap G Hwf) in Hj. lia.
  - destruct fuel as [|fuel]; [lia|]. simpl.
    rewrite get_inneighbors_unregistered; [done|].
    apply eq_None_not_Some. rewrite <-(wf_registered _ _ Hwf). by rewrite <-Hperm.
Qed.


(** The answer of [solve_max_path] depends neither on the elements the
    frontier pops nor on the fuel above the number of nodes. *)
Lemma solve_max_path_deterministic pick1 pick2 (fuel1 fuel2 : nat) G :
  wf G → (len G < fuel1)%nat → (len G < fuel2)%nat →
  solve_max_path pick1 fuel1 G = solve_max_path pick2 fuel2 G.
Proof.
  intros Hwf Hf1 Hf2. unfold solve_max_path.
  destruct (kahn_outcome pick1 G fuel1 Hwf Hf1) as [[L1 HL1]|[HL1 [c Hc]]];
    destruct (kahn_outcome pick2 G fuel2 Hwf Hf2) as [[L2 HL2]|[HL2 [c' Hc']]].
  - destruct (max_distances_Ok pick1 fuel1 G L1 Hwf HL1)
      as (dist1 & -> & Hdom1 & Hsol1).
    destruct (max_distances_Ok pick2 fuel2 G L2 Hwf HL2)
      as (dist2 & -> & Hdom2 & Hsol2).
    destruct (kahn_Ok pick1 G fuel1 L1 Hwf HL1) as [Hperm1 Hord1].
    destruct (kahn_Ok pick2 G fuel2 L2 Hwf HL2) as [Hperm2 Hord2].
    assert (dist2 = dist1) as ->.
    { apply (relaxed_unique G L1); try done.
      - intros v. by rewrite Hdom2, Hperm2, Hperm1.
      - intros v Hv. apply Hsol2. by rewrite Hperm2, <-Hperm1. }
    simpl.
    pose proof (walk_back_t_ends G L1 dist1 fuel1 Hwf Hperm1 Hord1 Hdom1 Hf1)
      as Hw1.
    pose proof (walk_back_t_ends G L1 dist1 fuel2 Hwf Hperm1 Hord1 Hdom1 Hf2)
      as Hw2.
    rewrite <-(walk_back_fuel fuel1 (fuel1 `max` fuel2) G dist1 _ _ _
                 eq_refl Hw1) by lia.
    rewrite <-(walk_back_fuel fuel2 (fuel1 `max` fuel2) G dist1 _ _ _
                 eq_refl Hw2) by lia.
    done.
  - by destruct (kahn_Ok_acyclic pick1 G fuel1 L1 Hwf HL1 c').
  - by destruct (kahn_Ok_acyclic pick2 G fuel2 L2 Hwf HL2 c).
  - unfold max_distances. by rewrite HL1, HL2.
Qed.


(** The distances depend neither on the elements the frontier pops nor on
    the fuel. *)
Lemma max_distances_deterministic pick1 pick2 (fuel1 fuel2 : nat) G dist1 dist2 :
  wf G → max_distances pick1 fuel1 G = Ok dist1 →
  max_distances pick2 fuel2 G = Ok dist2 → dist1 = dist2.
Proof.
  intros Hwf (L1 & HL1 & Hdom1 & Hsol1)%max_distances_inv
             (L2 & HL2 & Hdom2 & Hsol2)%max_distances_inv; [|done..].
  destruct (kahn_Ok pick1 G fuel1 L1 Hwf HL1) as [Hperm1 Hord1].
  destruct (kahn_Ok pick2 G fuel2 L2 Hwf HL2) as [Hperm2 Hord2].
  apply (relaxed_unique G L1); try done.
  - intros v. by rewrite Hdom2, Hperm2, Hperm1.
  - intros v Hv. apply Hsol2. by rewrite Hperm2, <-Hperm1.
Qed.




Lemma graph_of_edges_wf (es : list (string * string * Z)) :
  wf (graph_of_edges es).
Proof.
  unfold graph_of_edges.
  assert (∀ g : Wdgraph Z, wf g →
            wf (foldl (λ g e, set_edge' g e.1.1 e.1.2 e.2) g es)) as Hgen.
  { induction es as [|e es IH]; intros g Hg; simpl; [done|].
    apply IH. by apply set_edge'_wf. }
  apply Hgen, wf_empty.
Qed.




Open Scope Z_scope.

(* ===================================================================== *)
(** * The properties of the specification *)
(* ===================================================================== *)

Lemma get_outdegree_Ok {W : Type} `{EqDecision W} (g : Wdgraph W) u x v :
  get_edge g u v = Ok x → ∃ k, get_outdegree g u = Ok k.
Proof.
  intros (n1 & n2 & r & Hu & _ & Hr & _)%get_edge_Ok.
  exists (length r). unfold get_outdegree, map_value. rewrite Hu. simpl.
  by rewrite (index_lookup _ _ _ Hr).
Qed.

(** C6. On a well-formed graph and for distinct labels [u] and [v]:
    [set_edge(u, v, w)] returns and [get_edge(u, v)] is then [w]; a second
    [set_edge(u, v, w2)] makes it [w2] and leaves [get_outdegree(u)] as it
    was; what [get_edge] answers for any other pair of labels is not
    changed by either call. *)
Theorem set_edge_then_get_edge {W : Type} `{EqDecision W}
    (g : Wdgraph W) (u v : string) (w w2 : W) :
  wf g → u ≠ v →
  (set_edge g u v w).2 = Ok tt ∧
  get_edge (set_edge' g u v w) u v = Ok w ∧
  (set_edge (set_edge' g u v w) u v w2).2 = Ok tt ∧
  get_edge (set_edge' (set_edge' g u v w) u v w2) u v = Ok w2 ∧
  (∃ k, get_outdegree (set_edge' g u v w) u = Ok k ∧
        get_outdegree (set_edge' (set_edge' g u v w) u v w2) u = Ok k) ∧
  (∀ a b x, (a, b) ≠ (u, v) →
     (get_edge (set_edge' g u v w) a b = Ok x ↔ get_edge g a b = Ok x) ∧
     (get_edge (set_edge' (set_edge' g u v w) u v w2) a b = Ok x ↔
      get_edge g a b = Ok x)).
Proof.
  intros Hwf _. unfold set_edge'.
  destruct (set_edge_spec g u v w Hwf) as (g1 & Hset1 & Hwf1 & He1).
  rewrite Hset1. simpl.
  destruct (set_edge_spec g1 u v w2 Hwf1) as (g2 & Hset2 & Hwf2 & He2).
  rewrite Hset2. simpl.
  assert (get_edge g1 u v = Ok w) as Hw by (apply He1; by left).
  split_and!; try done.
  - apply He2. by left.
  - destruct (get_outdegree_Ok g1 u w v Hw) as [k Hk]. exists k.
    split; [done|]. rewrite <-Hk.
    pose proof (set_edge_outdegree g1 u v w2 w Hwf1 Hw) as Hdeg.
    unfold set_edge' in Hdeg. by rewrite Hset2 in Hdeg.
  - intros a b x Hne.
    assert (¬ (a = u ∧ b = v)) as Hne' by (intros [-> ->]; done).
    rewrite He2, He1. naive_solver.
Qed.

(** C7. In every state reached from the empty graph through
    [register_node], [set_edge], [remove_edge], [create_probability_graph]
    and [copy], no adjacency list holds two pairs with the same target. *)
Theorem reachable_single_edges {W : Type} `{EqDecision W}
    (wsum : list W → W) (wdiv : W → W → option W) (g : Wdgraph W) :
  reachable wsum wdiv g → single_edges g.
Proof. intros Hg%reachable_wf. by apply wf_single. Qed.

(** C10. A list that [kahns_algorithm] returns is a permutation of the
    registered node labels. *)
Theorem kahn_returns_permutation {W : Type} `{EqDecision W}
    (pick : nat → nat) (fuel : nat) (g : Wdgraph W) (L : list string) :
  wf g → kahns_algorithm pick fuel g = Ok L → L ≡ₚ get_nodes g.
Proof. intros Hwf HL. by destruct (kahn_Ok pick g fuel L Hwf HL). Qed.

(** C2. On a graph without a directed cycle [kahns_algorithm] returns a
    list in which the source of every edge comes before its target. *)
Theorem kahn_sorts_dag {W : Type} `{EqDecision W}
    (pick : nat → nat) (fuel : nat) (g : Wdgraph W) :
  wf g → acyclic g → (len g < fuel)%nat →
  ∃ L, kahns_algorithm pick fuel g = Ok L ∧
       ∀ u v, arc g u v → before u v L.
Proof.
  intros Hwf Hac Hfuel.
  destruct (kahn_acyclic_Ok pick g fuel Hwf Hac Hfuel) as [L HL].
  exists L. split; [done|]. intros u v [x Hx].
  destruct (kahn_Ok pick g fuel L Hwf HL) as [_ Hord]. by eapply Hord.
Qed.

(** C3. On a graph with a directed cycle [kahns_algorithm] raises the
    cycle error and returns no list; and on any graph it returns a list
    exactly when the loop ends with a working copy that has no edge
    left. *)
Theorem kahn_rejects_cycle {W : Type} `{EqDecision W}
    (pick : nat → nat) (fuel : nat) (g : Wdgraph W) :
  wf g → has_cycle g → (len g < fuel)%nat →
  kahns_algorithm pick fuel g = Raise GraphHasCycle ∧
  ∀ L, kahns_algorithm pick fuel g = Ok L ↔
       ∃ S G', get_nodes_without_incoming (copy g) = Ok S ∧
               kahn_loop pick fuel 0 (copy g) S [] = Ok (G', L) ∧
               all_edges G' = [].
Proof.
  intros Hwf Hcyc Hfuel. split; [by apply kahn_cycle_Raise|].
  intros L. unfold kahns_algorithm. split.
  - destruct (get_nodes_without_incoming (copy g)) as [S| |] eqn:HS; try done.
    simpl.
    destruct (kahn_loop pick fuel 0 (copy g) S []) as [[G' L']| |] eqn:Hloop;
      try done.
    simpl. destruct (all_edges G') eqn:Hall; [|done].
    intros [= ->]. by exists S, G'.
  - intros (S & G' & -> & Hloop & Hall). simpl. rewrite Hloop. simpl.
    by rewrite Hall.
Qed.




(* ===================================================================== *)
(** * The example graphs *)
(* ===================================================================== *)

Lemma demo_graph_acyclic : acyclic demo_graph.
Proof.
  eapply (kahn_Ok_acyclic pop_first demo_graph 11).
  - apply graph_of_edges_wf.
  - vm_compute. reflexivity.
Qed.



Lemma cyclic_graph_has_cycle : has_cycle cyclic_graph.
Proof.
  exists "a". apply (tc_l _ "a" "b" "a"); [|apply tc_once];
    exists 1; vm_compute; reflexivity.
Qed.

Lemma tie_graph_acyclic : acyclic tie_graph.
Proof.
  eapply (kahn_Ok_acyclic pop_first tie_graph 5).
  - apply graph_of_edges_wf.
  - vm_compute. reflexivity.
Qed.


(* ===================================================================== *)
(** * Instances and counterexamples *)
(* ===================================================================== *)

Lemma set_edge_then_get_edge_witness :
  wf (empty_graph (W := Z)) ∧ "a" ≠ "b" ∧
  get_edge (set_edge' (set_edge' (empty_graph (W := Z)) "a" "b" 1) "a" "b" 2)
           "a" "b" = Ok 2.
Proof.
  split; [apply wf_empty|]. split; [done|].
  destruct (set_edge_then_get_edge (empty_graph (W := Z)) "a" "b" 1 2)
    as (_ & _ & _ & Hget & _); [apply wf_empty|done|exact Hget].
Defined.

Lemma reachable_single_edges_witness :
  reachable qsum qdiv frequency_graph ∧ single_edges frequency_graph.
Proof.
  assert (reachable qsum qdiv frequency_graph) as Hreach.
  { apply reach_probability.
    apply (reach_set_edge qsum qdiv _ "a" "c").
    apply (reach_set_edge qsum qdiv _ "a" "b").
    apply reach_empty. }
  split; [exact Hreach|].
  exact (reachable_single_edges qsum qdiv frequency_graph Hreach).
Defined.

Lemma kahn_returns_permutation_witness :
  wf demo_graph ∧
  kahns_algorithm pop_first 11 demo_graph =
    Ok ["s"; "C"; "A"; "B"; "F"; "D"; "E"; "G"; "H"; "t"] ∧
  ["s"; "C"; "A"; "B"; "F"; "D"; "E"; "G"; "H"; "t"] ≡ₚ get_nodes demo_graph.
Proof.
  assert (kahns_algorithm pop_first 11 demo_graph =
            Ok ["s"; "C"; "A"; "B"; "F"; "D"; "E"; "G"; "H"; "t"]) as Hk
    by (vm_compute; reflexivity).
  split; [apply graph_of_edges_wf|]. split; [exact Hk|].
  exact (kahn_returns_permutation pop_first 11 demo_graph _
           (graph_of_edges_wf _) Hk).
Defined.

Lemma kahn_sorts_dag_witness :
  wf demo_graph ∧ acyclic demo_graph ∧ (len demo_graph < 11)%nat ∧
  ∃ L, kahns_algorithm pop_first 11 demo_graph = Ok L ∧
       ∀ u v, arc demo_graph u v → before u v L.
Proof.
  split; [apply graph_of_edges_wf|]. split; [apply demo_graph_acyclic|].
  split; [vm_compute; lia|].
  apply (kahn_sorts_dag pop_first 11 demo_graph);
    [apply graph_of_edges_wf|apply demo_graph_acyclic|vm_compute; lia].
Defined.

Lemma kahn_rejects_cycle_witness :
  wf cyclic_graph ∧ has_cycle cyclic_graph ∧ (len cyclic_graph < 3)%nat ∧
  kahns_algorithm pop_first 3 cyclic_graph = Raise GraphHasCycle.
Proof.
  split; [apply graph_of_edges_wf|]. split; [apply cyclic_graph_has_cycle|].
  split; [vm_compute; lia|].
  apply (kahn_rejects_cycle pop_first 3 cyclic_graph);
    [apply graph_of_edges_wf|apply cyclic_graph_has_cycle|vm_compute; lia].
Defined.






(** C1 fails on the code. In [tie_graph] the inneighbours ["A"] and ["B"]
    of ["t"] both have distance [10]; whatever the frontier pops,
    [solve_max_path] returns the length [110] with the path [s, A, t],
    whose edge weights sum to [10]; the path through the other maximiser,
    [s, B, t], is the one of weight [110]. *)
Theorem tie_path_misses_length (pick : nat → nat) (fuel : nat) :
  (len tie_graph < fuel)%nat →
  get_inneighbors tie_graph "t" = Ok [("A", 0); ("B", 100)] ∧
  (∃ dist, max_distances pick fuel tie_graph = Ok dist ∧
           dist !! "A" = Some 10 ∧ dist !! "B" = Some 10 ∧
           dist !! "t" = Some 110) ∧
  solve_max_path pick fuel tie_graph =
    Ok (110, [Some "s"; Some "A"; Some "t"]) ∧
  path_weight tie_graph ["s"; "A"; "t"] = Ok 10 ∧
  path_weight tie_graph ["s"; "B"; "t"] = Ok 110.
Proof.
  intros Hfuel. pose proof (graph_of_edges_wf
    [("s", "A", 10); ("s", "B", 10); ("A", "t", 0); ("B", "t", 100)]) as Hwf.
  fold tie_graph in Hwf.
  split; [by vm_compute|]. split; [|split; [|by vm_compute]].
  - destruct (kahn_acyclic_Ok pick tie_graph fuel Hwf tie_graph_acyclic Hfuel)
      as [L HL].
    destruct (max_distances_Ok pick fuel tie_graph L Hwf HL) as (dist & Hd & _).
    exists dist. split; [done|].
    assert (max_distances pop_first 5 tie_graph =
              Ok (<["t" := 110]> (<["B" := 10]> (<["A" := 10]> (<["s" := 0]> ∅)))))
      as Hd0 by (vm_compute; reflexivity).
    rewrite (max_distances_deterministic pick pop_first fuel 5 tie_graph
               dist _ Hwf Hd Hd0).
    by vm_compute.
  - rewrite (solve_max_path_deterministic pick pop_first fuel 5 tie_graph Hwf
               Hfuel); [by vm_compute|vm_compute; lia].
Qed.

Lemma tie_path_misses_length_witness :
  (len tie_graph < 5)%nat ∧
  solve_max_path pop_first 5 tie_graph =
    Ok (110, [Some "s"; Some "A"; Some "t"]) ∧
  path_weight tie_graph ["s"; "A"; "t"] = Ok 10.
Proof.
  assert (len tie_graph < 5)%nat as Hlen by (vm_compute; lia).
  split; [exact Hlen|].
  destruct (tie_path_misses_length pop_first 5 Hlen) as (_ & _ & Hs & Hw & _).
  split; [exact Hs|exact Hw].
Defined.

(** C8. For every graph [g] held in the heap as the object [self],
    [copy()] returns a new object [c] with the same value that shares no
    object with [self]: the call leaves every observation on the original
    ([get_edge], [get_outdegree], the node count, [get_inneighbors]) as it
    was; any sequence of [set_edge], [remove_edge] and [register_node]
    applied to the copy leaves every observation on the original unchanged,
    and any such sequence applied to the original leaves every observation
    on the copy unchanged; under any interleaving of calls on the two, each
    has the value the store computes from the calls made on it alone. *)
Theorem copy_is_independent {W : Type} `{EqDecision W}
    (h : Heap.heap W) (self : Heap.loc) (g : Wdgraph W) (F : Heap.layout) :
  Heap.rep h self g F →
  ∃ c h1,
    Heap.copy self h = (Ok c, h1) ∧ c ≠ self ∧ h !! c = None ∧
    Heap.value_of h1 self = Some g ∧ Heap.value_of h1 c = Some g ∧
    Heap.same_observations self h h1 ∧
    (∀ ms, Forall (λ m, m.1 = c) ms →
       Heap.same_observations self h1 (Heap.run_mutations ms h1)) ∧
    (∀ ms, Forall (λ m, m.1 = self) ms →
       Heap.same_observations c h1 (Heap.run_mutations ms h1)) ∧
    (∀ ms, Forall (λ m, m.1 = self ∨ m.1 = c) ms →
       Heap.value_of (Heap.run_mutations ms h1) self =
         Some (Heap.apply_mutations g (Heap.calls_on self ms)) ∧
       Heap.value_of (Heap.run_mutations ms h1) c =
         Some (Heap.apply_mutations g (Heap.calls_on c ms))).
Proof.
  intros Hrep.
  destruct (copy_heap h self g F Hrep) as (c & h1 & Fc & Hcopy & Hc & Hk & Hfr).
  assert (Heap.rep h1 self g F) as Ha.
  { eapply rep_frame; [done|]. intros l Hl. apply Hk. by eapply rep_dom. }
  assert (Heap.apart h1 self g F c g Fc) as Hap.
  { split_and!; [done..|]. intros l Hl Hl'.
    destruct (rep_dom _ _ _ _ _ Hrep Hl) as [o Ho].
    rewrite (Hfr l Hl') in Ho. done. }
  pose proof (apart_ne _ _ _ _ _ _ _ Hap) as Hne.
  assert (∀ ms, Forall (λ m : Heap.loc * Heap.mutation W,
                          m.1 = self ∨ m.1 = c) ms →
     Heap.value_of (Heap.run_mutations ms h1) self =
       Some (Heap.apply_mutations g (Heap.calls_on self ms)) ∧
     Heap.value_of (Heap.run_mutations ms h1) c =
       Some (Heap.apply_mutations g (Heap.calls_on c ms))) as Hall.
  { intros ms Hms.
    destruct (run_mutations_apart ms h1 self g F c g Fc Hap Hms)
      as (Fa' & Fc' & Ha' & Hc' & _).
    split; by eapply rep_value. }
  exists c, h1. split_and!; try done.
  - apply Hfr. left.
  - by eapply rep_value.
  - by eapply rep_value.
  - apply same_observations_value.
    rewrite (rep_value _ _ _ _ Ha). by rewrite (rep_value _ _ _ _ Hrep).
  - intros ms Hms. apply same_observations_value.
    destruct (Hall ms) as [Hs _].
    { eapply Forall_impl; [done|]. intros m Hm. by right. }
    rewrite Hs, (calls_on_none self ms).
    + by rewrite (rep_value _ _ _ _ Ha).
    + eapply Forall_impl; [done|]. intros m Hm. simpl in Hm. congruence.
  - intros ms Hms. apply same_observations_value.
    destruct (Hall ms) as [_ Hs].
    { eapply Forall_impl; [done|]. intros m Hm. by left. }
    rewrite Hs, (calls_on_none c ms).
    + by rewrite (rep_value _ _ _ _ Hc).
    + eapply Forall_impl; [done|]. intros m Hm. simpl in Hm. congruence.
Qed.

Lemma demo_heap_rep :
  Heap.rep demo_heap 3%nat (set_edge' empty_graph "a" "b" 1) demo_layout.
Proof.
  split.
  - by vm_compute.
  - by vm_compute.
  - by vm_compute.
  - by vm_compute.
  - repeat constructor.
  - apply (bool_decide_unpack _). by vm_compute.
Qed.

Lemma copy_is_independent_witness :
  Heap.rep demo_heap 3%nat (set_edge' empty_graph "a" "b" 1) demo_layout ∧
  ∃ c h1,
    Heap.copy 3%nat demo_heap = (Ok c, h1) ∧ c ≠ 3%nat ∧
    Heap.value_of h1 c = Some (set_edge' empty_graph "a" "b" 1) ∧
    Heap.same_observations 3%nat h1
      (Heap.run_mutations [(c, Heap.SetEdge "a" "b" 7);
                           (c, Heap.RemoveEdge "a" "b");
                           (c, Heap.RegisterNode "z")] h1).
Proof.
  split; [exact demo_heap_rep|].
  destruct (copy_is_independent demo_heap 3%nat _ demo_layout demo_heap_rep)
    as (c & h1 & Hcopy & Hne & _ & _ & Hv & _ & Hc & _).
  exists c, h1. split_and!; [exact Hcopy|exact Hne|exact Hv|].
  apply Hc. repeat constructor.
Defined.

Open Scope Z_scope.

(* ===================================================================== *)
(** * Further properties of the store *)
(* ===================================================================== *)

Section StoreFacts.
Context {W : Type} `{EqDecision W}.
Implicit Types (g : Wdgraph W) (u v a b : string) (w x : W).

Lemma map_value_Ok g u k : map_value g u = Ok k ↔ hashmap g !! u = Some k.
Proof. unfold map_value. destruct (hashmap g !! u); naive_solver. Qed.

Lemma map_value_Raise g u e :
  map_value g u = Raise e ↔ hashmap g !! u = None ∧ e = UnregisteredNode.
Proof. unfold map_value. destruct (hashmap g !! u); naive_solver. Qed.

(** What [get_edge] answers is fixed by the handles of the two labels and
    by the weights it returns. *)
Lemma get_edge_cases g u v :
  wf g →
  match hashmap g !! u, hashmap g !! v with
  | Some n1, Some n2 =>
      ∃ r, adj_list g !! n1 = Some r ∧
        get_edge g u v = match find_weight n2 r with
                         | Some x => Ok x
                         | None => Raise NoEdgeExists
                         end
  | _, _ => get_edge g u v = Raise UnregisteredNode
  end.
Proof.
  intros Hwf. unfold get_edge, map_value.
  destruct (hashmap g !! u) as [n1|] eqn:Hu; [|done].
  destruct (hashmap g !! v) as [n2|] eqn:Hv; [|done].
  destruct (wf_handle_row g u n1 Hwf Hu) as [r Hr].
  exists r. split; [done|]. simpl. by rewrite (index_lookup _ _ _ Hr).
Qed.

Lemma get_edge_ext g g' u v :
  wf g → wf g' → hashmap g' = hashmap g →
  (∀ x, get_edge g' u v = Ok x ↔ get_edge g u v = Ok x) →
  get_edge g' u v = get_edge g u v.
Proof.
  intros Hwf Hwf' Hhm Hiff.
  pose proof (get_edge_cases g u v Hwf) as H1.
  pose proof (get_edge_cases g' u v Hwf') as H2.
  rewrite Hhm in H2.
  destruct (hashmap g !! u) as [n1|]; [|congruence].
  destruct (hashmap g !! v) as [n2|]; [|congruence].
  destruct H1 as (r & _ & H1), H2 as (r' & _ & H2).
  destruct (find_weight n2 r) as [x|] eqn:Hx.
  - rewrite H1. by apply Hiff.
  - destruct (find_weight n2 r') as [x'|] eqn:Hx'; [|congruence].
    apply Hiff in H2. congruence.
Qed.

Lemma get_edge_answers g u v :
  wf g →
  (∃ x, get_edge g u v = Ok x) ∨ get_edge g u v = Raise UnregisteredNode ∨
  get_edge g u v = Raise NoEdgeExists.
Proof.
  intros Hwf. pose proof (get_edge_cases g u v Hwf) as Hc.
  destruct (hashmap g !! u) as [n1|]; [|by right; left].
  destruct (hashmap g !! v) as [n2|]; [|by right; left].
  destruct Hc as (r & _ & ->). destruct (find_weight n2 r); eauto.
Qed.

Lemma get_outneighbors_Raise g u :
  hashmap g !! u = None → get_outneighbors g u = Raise UnregisteredNode.
Proof. intros Hu. unfold get_outneighbors, map_value. by rewrite Hu. Qed.

End StoreFacts.

(** X1. [register_node(u)] returns the handle under which [map_value(u)]
    then finds the label; a second [register_node(u)] returns the same
    handle and changes nothing; a label that was registered keeps its
    handle and the graph is left as it was; a new label gets the old node
    count as its handle, the count grows by one and the label comes last
    in [get_nodes()]; every other label keeps its handle. *)
Theorem register_node_then_map_value {W : Type} `{EqDecision W}
    (g : Wdgraph W) (u : string) :
  map_value (register_node g u).1 u = Ok (register_node g u).2 ∧
  register_node (register_node g u).1 u = register_node g u ∧
  (∀ k, map_value g u = Ok k → register_node g u = (g, k)) ∧
  (map_value g u = Raise UnregisteredNode →
     (register_node g u).2 = graph_len g ∧
     graph_len (register_node g u).1 = (graph_len g + 1)%nat ∧
     get_nodes (register_node g u).1 = get_nodes g ++ [u]) ∧
  (∀ a k, map_value g a = Ok k → map_value (register_node g u).1 a = Ok k).
Proof.
  split_and!.
  - apply map_value_Ok, register_node_lookup.
  - pose proof (register_node_lookup g u) as Hl.
    rewrite (register_node_known _ _ _ Hl). by destruct (register_node g u).
  - intros k Hk%map_value_Ok. by apply register_node_known.
  - intros [Hn _]%map_value_Raise. rewrite (register_node_fresh _ _ Hn). done.
  - intros a k Hk%map_value_Ok. by apply map_value_Ok, register_node_mono.
Qed.

(** X2. In every graph built from the empty graph through the operations
    of the store, the dict and the list of labels are inverse to each
    other: [map_value(u)] returns [k] exactly when [u] stands at position
    [k] of [get_nodes()]; the node count is the length of [get_nodes()],
    which names no label twice, and [get_edges()] returns one list for
    each node. *)
Theorem handles_index_get_nodes {W : Type} `{EqDecision W}
    (wsum : list W → W) (wdiv : W → W → option W) (g : Wdgraph W) :
  reachable wsum wdiv g →
  (∀ u k, map_value g u = Ok k ↔ get_nodes g !! k = Some u) ∧
  graph_len g = length (get_nodes g) ∧
  NoDup (get_nodes g) ∧
  (∀ u k, map_value g u = Ok k → (k < graph_len g)%nat) ∧
  (∀ u, map_value g u = Raise UnregisteredNode ↔ u ∉ get_nodes g).
Proof.
  intros Hwf%reachable_wf. split_and!.
  - intros u k. rewrite map_value_Ok. apply (wf_hashmap g Hwf).
  - symmetry. apply (wf_directmap g Hwf).
  - by apply wf_directmap_NoDup.
  - intros u k Hk%map_value_Ok. by eapply wf_handle_lt.
  - intros u. rewrite map_value_Raise. unfold get_nodes.
    rewrite (wf_registered g u Hwf), <- eq_None_not_Some. naive_solver.
Qed.

Lemma handles_index_get_nodes_witness :
  reachable (W := Z) (λ _, 0) (λ _ _, None) (set_edge' empty_graph "a" "b" 1) ∧
  map_value (set_edge' empty_graph "a" "b" 1) "b" = Ok 1%nat ∧
  get_nodes (set_edge' (W := Z) empty_graph "a" "b" 1) !! 1%nat = Some "b".
Proof.
  assert (reachable (W := Z) (λ _, 0) (λ _ _, None)
            (set_edge' empty_graph "a" "b" 1)) as Hr.
  { apply reach_set_edge, reach_empty. }
  split; [exact Hr|].
  destruct (handles_index_get_nodes _ _ _ Hr) as (Hk & _).
  split; [reflexivity|]. apply Hk. reflexivity.
Defined.

(** X3. On a well-formed graph [get_edge(u, v)] returns a weight or raises
    one of its two exceptions: the exception of [map_value] exactly when
    [u] or [v] is not registered, and the no-edge exception exactly when
    both are registered and [v] is not among the out-neighbours of [u];
    no index is ever out of range. *)
Theorem get_edge_raises {W : Type} `{EqDecision W}
    (g : Wdgraph W) (u v : string) :
  wf g →
  ((∃ x, get_edge g u v = Ok x) ∨ get_edge g u v = Raise UnregisteredNode ∨
   get_edge g u v = Raise NoEdgeExists) ∧
  (get_edge g u v = Raise UnregisteredNode ↔
     map_value g u = Raise UnregisteredNode ∨
     map_value g v = Raise UnregisteredNode) ∧
  (get_edge g u v = Raise NoEdgeExists ↔
     (∃ n, map_value g v = Ok n) ∧
     ∃ outs, get_outneighbors g u = Ok outs ∧ v ∉ outs.*1).
Proof.
  intros Hwf. split; [by apply get_edge_answers|].
  pose proof (get_edge_cases g u v Hwf) as Hc.
  rewrite !map_value_Raise.
  destruct (hashmap g !! u) as [n1|] eqn:Hu.
  - destruct (get_outneighbors_spec g u n1 Hwf Hu) as (outs & Houts & _ & Hmem).
    destruct (hashmap g !! v) as [n2|] eqn:Hv.
    + destruct Hc as (r & Hr & Hc). rewrite Hc.
      assert (v ∈ outs.*1 ↔ is_Some (find_weight n2 r)) as Hin.
      { rewrite list_elem_of_fmap. split.
        - intros ([v' x] & -> & Hx%Hmem). simpl in *.
          apply get_edge_Ok in Hx as (na & nb & r' & ? & ? & ? & ?).
          assert (na = n1) as -> by congruence.
          assert (nb = n2) as -> by congruence.
          assert (r' = r) as -> by congruence. eauto.
        - intros [x Hx]. exists (v, x). split; [done|]. apply Hmem.
          apply get_edge_Ok. by exists n1, n2, r. }
      destruct (find_weight n2 r) as [x|] eqn:Hx.
      * split; [naive_solver|]. split; [done|].
        intros (_ & outs' & Ho & Hnot). rewrite Houts in Ho.
        injection Ho as <-. destruct Hnot. apply Hin. eauto.
      * split; [naive_solver|]. split; [|done]. intros _.
        split; [exists n2; by apply map_value_Ok|].
        exists outs. split; [done|]. rewrite Hin. by intros [? ?].
    + rewrite Hc. split; [naive_solver|]. split; [done|].
      intros ((n & Hn%map_value_Ok) & _). congruence.
  - rewrite Hc. split; [naive_solver|]. split; [done|].
    intros (_ & outs & Ho & _). rewrite (get_outneighbors_Raise g u Hu) in Ho.
    done.
Qed.

Lemma get_edge_raises_witness :
  wf (empty_graph (W := Z)) ∧
  get_edge (empty_graph (W := Z)) "a" "b" = Raise UnregisteredNode.
Proof.
  split; [apply wf_empty|].
  destruct (get_edge_raises (empty_graph (W := Z)) "a" "b" wf_empty)
    as (_ & Hu & _).
  apply Hu. left. reflexivity.
Defined.

Section RemoveFacts.
Context {W : Type} `{EqDecision W}.
Implicit Types (g : Wdgraph W) (u v a b : string) (w x : W).

Lemma remove_edge_Raise g u v e :
  wf g → get_edge g u v = Raise e → remove_edge g u v = Raise e.
Proof.
  intros Hwf He. pose proof (get_edge_cases g u v Hwf) as Hc.
  unfold remove_edge, map_value.
  destruct (hashmap g !! u) as [n1|] eqn:Hu; [|simpl; congruence].
  destruct (hashmap g !! v) as [n2|] eqn:Hv; [|simpl; congruence].
  destruct Hc as (r & Hr & Hc). simpl. rewrite (index_lookup _ _ _ Hr). simpl.
  destruct (find_weight n2 r) as [x|] eqn:Hx; [congruence|].
  apply find_weight_None, last_match_None in Hx. rewrite Hx. congruence.
Qed.

Lemma get_outdegree_row g u n r :
  hashmap g !! u = Some n → adj_list g !! n = Some r →
  get_outdegree g u = Ok (length r).
Proof.
  intros Hu Hr. unfold get_outdegree, map_value. rewrite Hu. simpl.
  by rewrite (index_lookup _ _ _ Hr).
Qed.

Lemma get_outdegree_with_row g n r' a :
  wf g → (∀ na, hashmap g !! a = Some na → na ≠ n) →
  get_outdegree (with_adj g (<[n := r']> (adj_list g))) a = get_outdegree g a.
Proof.
  intros Hwf Hne. unfold get_outdegree, map_value. simpl.
  destruct (hashmap g !! a) as [na|] eqn:Ha; [|done]. simpl.
  unfold index. rewrite list_lookup_insert_ne; [done|].
  intros ->. by eapply Hne.
Qed.

Lemma all_edges_with_row g n r r' :
  adj_list g !! n = Some r →
  (length (all_edges (with_adj g (<[n := r']> (adj_list g)))) + length r =
   length (all_edges g) + length r')%nat.
Proof.
  intros Hr. unfold all_edges. simpl.
  destruct (concat_insert_middle (adj_list g) n r r' Hr) as [-> ->].
  rewrite !length_app. lia.
Qed.

End RemoveFacts.

(** X4. On a well-formed graph [remove_edge(u, v)] fails exactly when
    [get_edge(u, v)] fails, and with the same exception.  When the edge
    exists the call removes it and nothing else: [get_edge(u, v)] and a
    second [remove_edge(u, v)] then raise the no-edge exception, the nodes
    and their handles are as before, the out-degree of [u] and the number
    of edges drop by one, and every other pair of labels gets from
    [get_edge] the answer it got before. *)
Theorem remove_edge_fails_as_get_edge {W : Type} `{EqDecision W}
    (g : Wdgraph W) (u v : string) :
  wf g →
  (∀ e, get_edge g u v = Raise e → remove_edge g u v = Raise e) ∧
  (∀ x, get_edge g u v = Ok x →
     ∃ g', remove_edge g u v = Ok g' ∧ wf g' ∧
       get_edge g' u v = Raise NoEdgeExists ∧
       remove_edge g' u v = Raise NoEdgeExists ∧
       get_nodes g' = get_nodes g ∧ graph_len g' = graph_len g ∧
       (∀ a, map_value g' a = map_value g a) ∧
       (∃ k, get_outdegree g u = Ok (S k) ∧ get_outdegree g' u = Ok k) ∧
       (∀ a, a ≠ u → get_outdegree g' a = get_outdegree g a) ∧
       length (all_edges g) = S (length (all_edges g')) ∧
       (∀ a b, (a, b) ≠ (u, v) → get_edge g' a b = get_edge g a b)).
Proof.
  intros Hwf. split; [intros e; by apply remove_edge_Raise|].
  intros x Hx.
  destruct (remove_edge_spec g u v x Hwf Hx)
    as (g' & Hrem & Hwf' & Hhm & Hdm & Hlen & Hedges).
  exists g'. split; [done|]. split; [done|].
  assert (get_edge g' u v = Raise NoEdgeExists) as Hgone.
  { destruct (get_edge_answers g' u v Hwf') as [[y Hy]|[Hun|Hno]]; [| |done].
    - apply Hedges in Hy as [Hne _]. by destruct Hne.
    - pose proof (get_edge_cases g' u v Hwf') as Hc. rewrite Hhm in Hc.
      apply get_edge_registered in Hx as [[n1 Hn1] [n2 Hn2]].
      rewrite Hn1, Hn2 in Hc. destruct Hc as (r & _ & Hc).
      rewrite Hc in Hun. by destruct (find_weight n2 r). }
  split; [done|]. split; [by apply remove_edge_Raise|].
  split; [done|]. split; [done|].
  split; [intros a; unfold map_value; by rewrite Hhm|].
  apply remove_edge_Ok in Hrem
    as (n1 & n2 & r1 & e & r2 & Hu & Hv & Hr & He & ->).
  split_and!.
  - exists (length (r1 ++ r2)). split.
    + rewrite (get_outdegree_row g u n1 _ Hu Hr). f_equal.
      rewrite !length_app. simpl. lia.
    + apply (get_outdegree_row _ u n1); [done|]. simpl.
      apply list_lookup_insert_eq. by eapply lookup_lt_Some.
  - intros a Ha. apply get_outdegree_with_row; [done|].
    intros na Hna ->. apply Ha. by eapply wf_hashmap_inj.
  - pose proof (all_edges_with_row g n1 _ (r1 ++ r2) Hr) as Hl.
    rewrite !length_app in Hl. simpl in Hl. lia.
  - intros a b Hne. apply get_edge_ext; [done..|].
    intros y. rewrite Hedges. split; [by intros [_ ?]|].
    intros Hy. split; [|done]. intros [-> ->]. done.
Qed.

Lemma remove_edge_fails_as_get_edge_witness :
  wf (set_edge' (W := Z) empty_graph "a" "b" 1) ∧
  get_edge (set_edge' (W := Z) empty_graph "a" "b" 1) "b" "a"
    = Raise NoEdgeExists ∧
  remove_edge (set_edge' (W := Z) empty_graph "a" "b" 1) "b" "a"
    = Raise NoEdgeExists.
Proof.
  assert (wf (set_edge' (W := Z) empty_graph "a" "b" 1)) as Hwf.
  { apply set_edge'_wf, wf_empty. }
  split; [exact Hwf|]. split; [reflexivity|].
  destruct (remove_edge_fails_as_get_edge _ "b" "a" Hwf) as [Hfail _].
  apply Hfail. reflexivity.
Defined.

Section RoundTrip.
Context {W : Type} `{EqDecision W}.
Implicit Types (g : Wdgraph W) (u v a b : string) (w x : W).

Lemma list_remove_snoc (r : list (nat * W)) e :
  e ∉ r → list_remove e (r ++ [e]) = Ok r.
Proof.
  induction r as [|y r IH]; intros Hnot; simpl.
  - by rewrite decide_True.
  - apply not_elem_of_cons in Hnot as [Hne Hnot].
    rewrite decide_False by done. by rewrite (IH Hnot).
Qed.

Lemma set_then_remove_restores g u v w n1 n2 :
  wf g → hashmap g !! u = Some n1 → hashmap g !! v = Some n2 →
  (∀ x, get_edge g u v ≠ Ok x) →
  remove_edge (set_edge' g u v w) u v = Ok g.
Proof.
  intros Hwf Hu Hv Hno.
  destruct (wf_handle_row g u n1 Hwf Hu) as [r Hr].
  assert (n2 ∉ r.*1) as Hnot.
  { apply find_weight_None. destruct (find_weight n2 r) as [x|] eqn:Hx; [|done].
    destruct (Hno x). apply get_edge_Ok. by exists n1, n2, r. }
  unfold set_edge', set_edge.
  rewrite (register_node_known _ _ _ Hu), (register_node_known _ _ _ Hv).
  rewrite (raw_set_edge_row _ _ _ _ _ Hr). simpl.
  unfold set_row. rewrite (proj2 (overwrite_None r n2 w) Hnot).
  unfold remove_edge, map_value. simpl. rewrite Hu, Hv. simpl.
  assert (n1 < length (adj_list g))%nat as Hlt by by eapply lookup_lt_Some.
  unfold index. rewrite list_lookup_insert_eq by done. simpl.
  rewrite last_match_app, decide_True by done.
  rewrite list_remove_snoc.
  - simpl. f_equal. unfold with_adj. simpl.
    rewrite list_insert_insert_eq, list_insert_id by done. by destruct g.
  - intros Hin. apply Hnot. by apply (list_elem_of_fmap_2 fst) in Hin.
Qed.

End RoundTrip.

(** X5. On a well-formed graph without an edge from [u] to [v],
    [set_edge(u, v, w)] followed by [remove_edge(u, v)] returns and leaves
    every edge as it was; the two labels stay registered, and when both
    were registered before, the graph is exactly the one before the two
    calls. *)
Theorem set_edge_then_remove_edge {W : Type} `{EqDecision W}
    (g : Wdgraph W) (u v : string) (w : W) :
  wf g → (∀ x, get_edge g u v ≠ Ok x) →
  ∃ g', remove_edge (set_edge' g u v w) u v = Ok g' ∧
    (∀ a b x, get_edge g' a b = Ok x ↔ get_edge g a b = Ok x) ∧
    (∃ n1 n2, map_value g' u = Ok n1 ∧ map_value g' v = Ok n2) ∧
    (∀ n1 n2, map_value g u = Ok n1 → map_value g v = Ok n2 → g' = g).
Proof.
  intros Hwf Hno. unfold set_edge'.
  destruct (set_edge_spec g u v w Hwf) as (g1 & Hset & Hwf1 & He1).
  rewrite Hset. simpl.
  assert (get_edge g1 u v = Ok w) as Hw by (apply He1; by left).
  destruct (remove_edge_spec g1 u v w Hwf1 Hw)
    as (g' & Hrem & Hwf' & Hhm & _ & _ & He').
  exists g'. split; [done|]. split_and!.
  - intros a b x. rewrite He', He1. split.
    + intros [Hne [(-> & -> & _)|[_ Hx]]]; [by destruct Hne|done].
    + intros Hx. split.
      * intros [-> ->]. by eapply Hno.
      * right. split; [|done]. intros [-> ->]. by eapply Hno.
  - apply get_edge_registered in Hw as [[n1 Hn1] [n2 Hn2]].
    exists n1, n2. rewrite !map_value_Ok, Hhm. done.
  - intros n1 n2 Hn1%map_value_Ok Hn2%map_value_Ok.
    pose proof (set_then_remove_restores g u v w n1 n2 Hwf Hn1 Hn2 Hno) as Hr.
    unfold set_edge' in Hr. rewrite Hset in Hr. simpl in Hr. congruence.
Qed.

Lemma set_edge_then_remove_edge_witness :
  wf (empty_graph (W := Z)) ∧
  (∀ x, get_edge (empty_graph (W := Z)) "a" "b" ≠ Ok x) ∧
  ∃ g', remove_edge (set_edge' (W := Z) empty_graph "a" "b" 1) "a" "b" = Ok g' ∧
        ∃ n1 n2, map_value g' "a" = Ok n1 ∧ map_value g' "b" = Ok n2.
Proof.
  assert (∀ x, get_edge (empty_graph (W := Z)) "a" "b" ≠ Ok x) as Hno.
  { intros x. discriminate. }
  split; [apply wf_empty|]. split; [exact Hno|].
  destruct (set_edge_then_remove_edge (empty_graph (W := Z)) "a" "b" 1
              wf_empty Hno) as (g' & Hrem & _ & Hreg & _).
  exists g'. split; [exact Hrem|exact Hreg].
Defined.

Section Neighbours.
Context {W : Type} `{EqDecision W}.
Implicit Types (g : Wdgraph W) (u v a b : string) (w x : W).

Lemma label_row_length (dm : list string) (r : list (nat * W)) outs :
  label_row dm r = Ok outs → length outs = length r ∧ outs.*2 = r.*2.
Proof.
  revert outs. induction r as [|[t x] r IH]; intros outs; simpl.
  - by intros [= <-].
  - intros (l & Hl & (rest & Hrest & [= <-])%bind_Ok)%bind_Ok.
    destruct (IH rest Hrest) as [Hlen Hw].
    split; [simpl; by rewrite Hlen|]. rewrite !fmap_cons. simpl. by rewrite Hw.
Qed.

Lemma scan_outs_absent (dm : list string) (n m : nat) (outs : list (nat * W)) :
  n ∉ outs.*1 → scan_outs dm n m outs = Ok [].
Proof.
  induction outs as [|[t x] outs IH]; [done|]. simpl.
  intros [Hne Hnot]%not_elem_of_cons. rewrite decide_False by done. by apply IH.
Qed.

Lemma scan_outs_once (dm : list string) (n m : nat) (outs : list (nat * W)) here :
  NoDup (outs.*1) → scan_outs dm n m outs = Ok here → (length here ≤ 1)%nat.
Proof.
  revert here. induction outs as [|[t x] outs IH]; intros here; simpl.
  - intros _ [= <-]. simpl. lia.
  - intros [Hnot Hnd]%NoDup_cons. case_decide as Ht.
    + subst t. rewrite (scan_outs_absent dm n m outs Hnot).
      intros (l & _ & [= <-])%bind_Ok. simpl. lia.
    + by apply IH.
Qed.

Lemma scan_adj_NoDup (dm : list string) (n : nat) : ∀ (adj : list (list (nat * W)))
    (k : nat) inn,
  NoDup dm → (∀ r, r ∈ adj → NoDup (r.*1)) →
  (k + length adj ≤ length dm)%nat →
  scan_adj dm n k adj = Ok inn → NoDup (inn.*1).
Proof.
  induction adj as [|outs adj IH]; intros k inn Hdm Hrows Hlen; simpl.
  - intros [= <-]. constructor.
  - simpl in Hlen.
    intros (here & Hhere & (more & Hmore & [= <-])%bind_Ok)%bind_Ok.
    destruct (lookup_lt_is_Some_2 dm k) as [l Hl]; [lia|].
    destruct (scan_outs_spec dm n k outs l Hl) as (here' & Hhere' & Hmem).
    assert (here' = here) as -> by congruence.
    destruct (scan_adj_spec dm n (S k) adj) as (more' & Hmore' & Hmem2);
      [lia|].
    assert (more' = more) as -> by congruence.
    pose proof (scan_outs_once dm n k outs here
                  (Hrows outs ltac:(left)) Hhere) as Hone.
    assert (NoDup (more.*1)) as Hnd.
    { eapply (IH (S k)); [done| |lia|done]. intros r Hr. apply Hrows. by right. }
    rewrite fmap_app. apply NoDup_app. split; [|split; [|done]].
    + destruct here as [|e1 [|e2 here]]; simpl in *; [constructor| |lia].
      apply NoDup_singleton.
    + intros a Ha Ha'.
      apply list_elem_of_fmap in Ha as ([a1 x1] & -> & Hin1).
      apply list_elem_of_fmap in Ha' as ([a2 x2] & Heq & Hin2).
      simpl in Heq. subst a2.
      apply Hmem in Hin1 as [-> _].
      apply Hmem2 in Hin2 as (i & r & _ & Hi & _).
      pose proof (NoDup_lookup dm k (S k + i)%nat l Hdm Hl Hi). lia.
Qed.

Lemma get_inneighbors_NoDup g v inn :
  wf g → get_inneighbors g v = Ok inn → NoDup (inn.*1).
Proof.
  intros Hwf. unfold get_inneighbors.
  intros (n & _ & Hscan)%bind_Ok.
  eapply scan_adj_NoDup; [by apply (wf_directmap_NoDup g)| | |done].
  - intros r (i & Hi)%list_elem_of_lookup_1. by eapply (wf_single g Hwf).
  - rewrite (wf_directmap g Hwf), (wf_adj_list g Hwf). lia.
Qed.

Lemma get_inneighbors_Ok_nil g v :
  wf g → is_Some (hashmap g !! v) →
  get_inneighbors g v = Ok [] ↔ ∀ u x, get_edge g u v ≠ Ok x.
Proof.
  intros Hwf [n Hn].
  destruct (get_inneighbors_spec g v n Hwf Hn) as (inn & Hinn & Hmem).
  rewrite Hinn. split.
  - intros [= ->] u x Hx. apply Hmem in Hx. by apply elem_of_nil in Hx.
  - intros Hno. destruct inn as [|[u x] inn]; [done|].
    destruct (Hno u x). apply Hmem. left.
Qed.

End Neighbours.

(** X6. On a well-formed graph and for a registered label [u]:
    [get_outneighbors(u)] returns the pairs [[v, w]] with
    [get_edge(u, v) = w], each neighbour once, and [get_outdegree(u)] is
    their number; [get_inneighbors(u)] returns the pairs [[a, w]] with
    [get_edge(a, u) = w], each neighbour once.  For a label that is not
    registered the three calls raise the exception of [map_value]. *)
Theorem neighbours_mirror_edges {W : Type} `{EqDecision W}
    (g : Wdgraph W) (u : string) :
  wf g →
  (∀ n, map_value g u = Ok n →
     (∃ outs, get_outneighbors g u = Ok outs ∧ NoDup (outs.*1) ∧
        get_outdegree g u = Ok (length outs) ∧
        ∀ v w, (v, w) ∈ outs ↔ get_edge g u v = Ok w) ∧
     (∃ inn, get_inneighbors g u = Ok inn ∧ NoDup (inn.*1) ∧
        ∀ a w, (a, w) ∈ inn ↔ get_edge g a u = Ok w)) ∧
  (map_value g u = Raise UnregisteredNode →
     get_outneighbors g u = Raise UnregisteredNode ∧
     get_inneighbors g u = Raise UnregisteredNode ∧
     get_outdegree g u = Raise UnregisteredNode).
Proof.
  intros Hwf. split.
  - intros n Hn%map_value_Ok. split.
    + destruct (get_outneighbors_spec g u n Hwf Hn) as (outs & Houts & Hnd & Hmem).
      exists outs. split_and!; try done.
      destruct (wf_handle_row g u n Hwf Hn) as [r Hr].
      rewrite (get_outdegree_row g u n r Hn Hr). f_equal.
      unfold get_outneighbors, map_value in Houts. rewrite Hn in Houts.
      simpl in Houts. rewrite (index_lookup _ _ _ Hr) in Houts. simpl in Houts.
      symmetry. by apply (label_row_length (directmap g) r outs).
    + destruct (get_inneighbors_spec g u n Hwf Hn) as (inn & Hinn & Hmem).
      exists inn. split_and!; try done. by eapply get_inneighbors_NoDup.
  - intros [Hu _]%map_value_Raise. split_and!.
    + by apply get_outneighbors_Raise.
    + by apply get_inneighbors_unregistered.
    + unfold get_outdegree, map_value. by rewrite Hu.
Qed.

Lemma neighbours_mirror_edges_witness :
  wf (set_edge' (W := Z) empty_graph "a" "b" 1) ∧
  get_outneighbors (set_edge' (W := Z) empty_graph "a" "b" 1) "a"
    = Ok [("b", 1)] ∧
  get_inneighbors (set_edge' (W := Z) empty_graph "a" "b" 1) "b"
    = Ok [("a", 1)] ∧
  get_edge (set_edge' (W := Z) empty_graph "a" "b" 1) "a" "b" = Ok 1.
Proof.
  assert (wf (set_edge' (W := Z) empty_graph "a" "b" 1)) as Hwf.
  { apply set_edge'_wf, wf_empty. }
  split; [exact Hwf|]. split; [reflexivity|]. split; [reflexivity|].
  destruct (neighbours_mirror_edges _ "a" Hwf) as [Hreg _].
  destruct (Hreg 0%nat eq_refl) as [(outs & Houts & _ & _ & Hmem) _].
  apply Hmem. injection Houts as <-. left.
Defined.

(** X7. On a well-formed graph [get_edges()] returns one list for each
    node, in the order of [get_nodes()], and the list at the position of
    a label [u] is what [get_outneighbors(u)] returns. *)
Theorem get_edges_lists_outneighbors {W : Type} `{EqDecision W}
    (g : Wdgraph W) :
  wf g →
  ∃ rows, get_edges g = Ok rows ∧ length rows = graph_len g ∧
    ∀ k u, get_nodes g !! k = Some u →
      ∃ outs, rows !! k = Some outs ∧ get_outneighbors g u = Ok outs.
Proof.
  intros Hwf. unfold get_edges.
  assert (∀ adj : list (list (nat * W)),
            (∀ r e, r ∈ adj → e ∈ r → (e.1 < length (directmap g))%nat) →
            ∃ rows, mapM (M := result) (label_row (directmap g)) adj = Ok rows ∧
              length rows = length adj ∧
              ∀ k r, adj !! k = Some r →
                ∃ outs, rows !! k = Some outs ∧
                        label_row (directmap g) r = Ok outs) as Hmap.
  { induction adj as [|r adj IH]; intros Hb.
    - exists []. split; [done|]. split; [done|]. intros k r. by destruct k.
    - destruct IH as (rows & Hrows & Hlen & Hk).
      { intros r' e Hr' He. eapply Hb; [by right|done]. }
      destruct (label_row_spec (directmap g) r) as (outs & Houts & _).
      { intros e He. eapply Hb; [by left|done]. }
      exists (outs :: rows). cbn [mapM]. rewrite Houts. cbn [mbind result_bind].
      rewrite Hrows. split; [done|]. split; [simpl; by rewrite Hlen|].
      intros [|k] r'; simpl.
      + intros [= <-]. eauto.
      + apply Hk. }
  destruct (Hmap (adj_list g)) as (rows & Hrows & Hlen & Hk).
  { intros r e (i & Hi)%list_elem_of_lookup_1 He.
    rewrite (wf_directmap g Hwf). by eapply (wf_targets g Hwf). }
  exists rows. split; [done|]. split.
  { rewrite Hlen. apply (wf_adj_list g Hwf). }
  intros k u Hu. apply (wf_hashmap g Hwf) in Hu.
  destruct (wf_handle_row g u k Hwf Hu) as [r Hr].
  destruct (Hk k r Hr) as (outs & Hrow & Hlab).
  exists outs. split; [done|].
  unfold get_outneighbors, map_value. rewrite Hu. simpl.
  by rewrite (index_lookup _ _ _ Hr).
Qed.

Lemma get_edges_lists_outneighbors_witness :
  wf (set_edge' (W := Z) empty_graph "a" "b" 1) ∧
  get_edges (set_edge' (W := Z) empty_graph "a" "b" 1)
    = Ok [[("b", 1)]; []].
Proof.
  assert (wf (set_edge' (W := Z) empty_graph "a" "b" 1)) as Hwf.
  { apply set_edge'_wf, wf_empty. }
  split; [exact Hwf|].
  destruct (get_edges_lists_outneighbors _ Hwf) as (rows & Hrows & Hlen & Hk).
  destruct (Hk 0%nat "a" eq_refl) as (outs & Hrow & Houts).
  injection Houts as <-. rewrite Hrows. f_equal.
  destruct rows as [|r0 [|r1 [|r2 rows]]]; try discriminate Hlen.
  injection Hrow as ->.
  destruct (Hk 1%nat "b" eq_refl) as (outs & Hrow & Houts).
  injection Houts as <-. injection Hrow as ->. reflexivity.
Defined.

(** X8. On a well-formed graph [get_nodes_without_incoming()] returns the
    set of the registered labels for which [get_inneighbors] returns the
    empty list; when the graph has a node and no directed cycle, the set
    is not empty. *)
Theorem acyclic_graph_has_source {W : Type} `{EqDecision W}
    (g : Wdgraph W) :
  wf g →
  ∃ S, get_nodes_without_incoming g = Ok S ∧
    (∀ v, v ∈ S ↔ v ∈ get_nodes g ∧ get_inneighbors g v = Ok []) ∧
    (acyclic g → graph_len g ≠ 0%nat → S ≠ ∅).
Proof.
  intros Hwf.
  destruct (get_nodes_without_incoming_spec g Hwf) as (S & HS & Hmem).
  exists S. split; [done|].
  assert (∀ v, v ∈ S ↔ v ∈ get_nodes g ∧ get_inneighbors g v = Ok []) as Hchar.
  { intros v. rewrite Hmem. unfold get_nodes. split.
    - intros [Hv Hno]. split; [done|].
      apply get_inneighbors_Ok_nil; [done| |done]. by apply wf_registered.
    - intros [Hv Hnil]. split; [done|].
      apply get_inneighbors_Ok_nil; [done| |done]. by apply wf_registered. }
  split; [done|]. intros Hac Hlen ->.
  assert (∃ v0, v0 ∈ directmap g) as [v0 Hv0].
  { pose proof (wf_directmap g Hwf) as Hl. unfold graph_len in Hlen.
    destruct (directmap g) as [|v0 l]; [simpl in Hl; lia|]. exists v0. left. }
  assert (∀ v, v ∈ directmap g → ∃ u, arc g u v) as Hpred.
  { intros v Hv. destruct (entering_dec g v Hwf Hv) as [Hno|(u & x & Hx)].
    - assert (v ∈ (∅ : gset string)) as Hin by (apply Hmem; done).
      by apply not_elem_of_empty in Hin.
    - exists u, x. done. }
  destruct (Hpred v0 Hv0) as [u0 Hu0].
  destruct (backward_chain_cycle (arc g) (directmap g) u0 v0) as [c Hc].
  - intros a b [x Hx]. apply wf_registered; [done|].
    by apply get_edge_registered in Hx as [? _].
  - intros a b [x Hx]. apply Hpred. apply wf_registered; [done|].
    by apply get_edge_registered in Hx as [? _].
  - done.
  - by apply (Hac c).
Qed.

Lemma acyclic_graph_has_source_witness :
  wf (set_edge' (W := Z) empty_graph "a" "b" 1) ∧
  get_nodes_without_incoming (set_edge' (W := Z) empty_graph "a" "b" 1)
    = Ok {["a"]}.
Proof.
  assert (wf (set_edge' (W := Z) empty_graph "a" "b" 1)) as Hwf.
  { apply set_edge'_wf, wf_empty. }
  split; [exact Hwf|].
  destruct (acyclic_graph_has_source _ Hwf) as (S & HS & _ & _).
  rewrite HS. f_equal. injection HS as <-. reflexivity.
Defined.

Open Scope Z_scope.

(* ===================================================================== *)
(** * [create_probability_graph] *)
(* ===================================================================== *)

Section Probability.
Context {W : Type} `{EqDecision W}.
Variable wsum : list W → W.
Variable wdiv : W → W → option W.
Implicit Types (g : Wdgraph W) (r : list (nat * W)).

Lemma with_adj_id g : with_adj g (adj_list g) = g.
Proof. by destruct g. Qed.

Lemma with_adj_with_adj g adj adj' : with_adj (with_adj g adj) adj' = with_adj g adj'.
Proof. done. Qed.

(** With targets named once, [raw_set_edge] on the target at position [i]
    writes at position [i]. *)
Lemma set_row_at r (i : nat) target weight q :
  NoDup (r.*1) → r !! i = Some (target, weight) →
  set_row target q r = <[i := (target, q)]> r.
Proof.
  revert i. induction r as [|[t x] r IH]; intros i Hnd Hi; [done|].
  apply NoDup_cons in Hnd as [Hnot Hnd]. unfold set_row. simpl.
  destruct i as [|i]; simpl in *.
  - injection Hi as -> ->. by rewrite decide_True.
  - rewrite decide_False.
    + specialize (IH i Hnd Hi). unfold set_row in IH.
      destruct (overwrite target q r) as [r'|] eqn:Ho; simpl.
      * by rewrite IH.
      * apply overwrite_None in Ho. destruct Ho.
        apply list_elem_of_lookup_2 in Hi.
        by apply (list_elem_of_fmap_2 fst) in Hi.
    + intros ->. apply Hnot. apply list_elem_of_lookup_2 in Hi.
      by apply (list_elem_of_fmap_2 fst) in Hi.
Qed.

Lemma divide_row_targets total r : (divide_row wdiv total r).1.*1 = r.*1.
Proof.
  induction r as [|[t x] r IH]; [done|]. cbn [divide_row].
  destruct (wdiv x total) as [q|]; [|done].
  destruct (divide_row wdiv total r) as [r' ok]. cbn [fst] in *.
  rewrite !fmap_cons. cbn [fst]. by rewrite IH.
Qed.

Lemma divide_row_length total r :
  length (divide_row wdiv total r).1 = length r.
Proof.
  rewrite <- (length_fmap fst), divide_row_targets. by rewrite length_fmap.
Qed.

(** The inner loop from position [length done] on. *)
Lemma normalise_row_spec total : ∀ (todo done : list (nat * W)) g source,
  adj_list g !! source = Some (done ++ todo) →
  NoDup ((done ++ todo).*1) →
  normalise_row wdiv g source total (length done) (length todo) =
    (with_adj g (<[source := done ++ (divide_row wdiv total todo).1]>
                   (adj_list g)),
     if (divide_row wdiv total todo).2 then Ok tt
     else Raise ZeroDivisionError).
Proof.
  induction todo as [|[t x] todo IH]; intros done g source Hr Hnd.
  - simpl. by rewrite list_insert_id, with_adj_id.
  - cbn [length normalise_row]. rewrite Hr. simpl.
    rewrite lookup_app_r by lia. rewrite Nat.sub_diag. simpl.
    destruct (wdiv x total) as [q|] eqn:Hq.
    + rewrite (raw_set_edge_row _ _ _ _ _ Hr).
      rewrite (set_row_at _ (length done) t x q Hnd)
        by (rewrite lookup_app_r by lia; by rewrite Nat.sub_diag).
      assert (<[length done := (t, q)]> (done ++ (t, x) :: todo)
              = (done ++ [(t, q)]) ++ todo) as Hrow.
      { rewrite insert_app_r_alt by lia. rewrite Nat.sub_diag. simpl.
        by rewrite <- app_assoc. }
      rewrite Hrow.
      assert (source < length (adj_list g))%nat as Hlt
        by by eapply lookup_lt_Some.
      specialize (IH (done ++ [(t, q)])
                     (with_adj g (<[source := (done ++ [(t, q)]) ++ todo]>
                                    (adj_list g))) source).
      rewrite length_app in IH. simpl in IH.
      replace (length done + 1)%nat with (S (length done)) in IH by lia.
      rewrite IH.
      * simpl. rewrite list_insert_insert_eq.
        destruct (divide_row wdiv total todo) as [todo' ok]. simpl.
        by rewrite with_adj_with_adj, <- app_assoc.
      * simpl. by apply list_lookup_insert_eq.
      * rewrite <- Hrow, list_fmap_insert. simpl.
        rewrite list_insert_id; [done|].
        rewrite list_lookup_fmap, lookup_app_r by lia.
        by rewrite Nat.sub_diag.
    + simpl. by rewrite list_insert_id, with_adj_id.
Qed.

Lemma divide_rows_length rows :
  length (divide_rows wsum wdiv rows).1 = length rows.
Proof.
  induction rows as [|r rows IH]; [done|]. simpl.
  destruct (divide_row wdiv (wsum r.*2) r) as [r' [|]]; [|done].
  destruct (divide_rows wsum wdiv rows) as [rows' ok]. simpl in *. by rewrite IH.
Qed.

(** The outer loop from the row [length pre] on. *)
Lemma normalise_from_spec : ∀ (post pre : list (list (nat * W))) g,
  adj_list g = pre ++ post →
  (∀ r, r ∈ post → NoDup (r.*1)) →
  normalise_from wsum wdiv g (length pre) (length post) =
    (with_adj g (pre ++ (divide_rows wsum wdiv post).1),
     if (divide_rows wsum wdiv post).2 then Ok tt
     else Raise ZeroDivisionError).
Proof.
  induction post as [|r post IH]; intros pre g Hadj Hnd.
  - simpl. by rewrite <- Hadj, with_adj_id.
  - cbn [length normalise_from].
    assert (adj_list g !! length pre = Some r) as Hr.
    { rewrite Hadj, lookup_app_r by lia. by rewrite Nat.sub_diag. }
    rewrite Hr.
    pose proof (normalise_row_spec (wsum r.*2) r [] g (length pre) Hr
                  (Hnd r ltac:(left))) as Hrow.
    simpl in Hrow. rewrite Hrow. simpl.
    assert (<[length pre := (divide_row wdiv (wsum r.*2) r).1]> (adj_list g)
            = (pre ++ [(divide_row wdiv (wsum r.*2) r).1]) ++ post) as Hins.
    { rewrite Hadj, insert_app_r_alt by lia. rewrite Nat.sub_diag. simpl.
      by rewrite <- app_assoc. }
    rewrite Hins.
    destruct (divide_row wdiv (wsum r.*2) r) as [r' [|]] eqn:Hdiv; simpl.
    + specialize (IH (pre ++ [r']) (with_adj g ((pre ++ [r']) ++ post))).
      rewrite length_app in IH. simpl in IH.
      replace (length pre + 1)%nat with (S (length pre)) in IH by lia.
      rewrite IH; [|done|intros r0 Hr0; apply Hnd; by right].
      destruct (divide_rows wsum wdiv post) as [post' ok]. simpl.
      by rewrite with_adj_with_adj, <- app_assoc.
    + by rewrite <- app_assoc.
Qed.

Lemma create_probability_graph_rows g :
  wf g →
  create_probability_graph wsum wdiv g =
    (with_adj g (divide_rows wsum wdiv (adj_list g)).1,
     if (divide_rows wsum wdiv (adj_list g)).2 then Ok tt
     else Raise ZeroDivisionError).
Proof.
  intros Hwf. unfold create_probability_graph.
  apply (normalise_from_spec (adj_list g) [] g); [done|].
  intros r (i & Hi)%list_elem_of_lookup_1. by eapply (wf_single g Hwf).
Qed.


Lemma divide_row_find total r n :
  (divide_row wdiv total r).2 = true →
  find_weight n (divide_row wdiv total r).1 =
  find_weight n r ≫= (λ w, wdiv w total).
Proof.
  induction r as [|[t x] r IH]; cbn [divide_row]; [done|].
  destruct (wdiv x total) as [q|] eqn:Hq; [|done].
  destruct (divide_row wdiv total r) as [r' ok]. cbn [fst snd] in *.
  intros Hok. simpl. case_decide; [done|]. by apply IH.
Qed.

Lemma divide_rows_targets rows :
  (λ r, r.*1) <$> (divide_rows wsum wdiv rows).1 = (λ r, r.*1) <$> rows.
Proof.
  induction rows as [|r rows IH]; [done|]. cbn [divide_rows].
  pose proof (divide_row_targets (wsum r.*2) r) as Ht.
  destruct (divide_row wdiv (wsum r.*2) r) as [r' [|]]; cbn [fst] in *.
  - destruct (divide_rows wsum wdiv rows) as [rows' ok]. cbn [fst] in *.
    rewrite !fmap_cons. by rewrite Ht, IH.
  - rewrite !fmap_cons. by rewrite Ht.
Qed.

Lemma divide_rows_lookup rows (i : nat) r :
  (divide_rows wsum wdiv rows).2 = true → rows !! i = Some r →
  (divide_rows wsum wdiv rows).1 !! i
    = Some (divide_row wdiv (wsum r.*2) r).1 ∧
  (divide_row wdiv (wsum r.*2) r).2 = true.
Proof.
  revert i. induction rows as [|r0 rows IH]; intros i; [done|].
  cbn [divide_rows].
  destruct (divide_row wdiv (wsum r0.*2) r0) as [r' [|]] eqn:Hd; [|done].
  destruct (divide_rows wsum wdiv rows) as [rows' ok]. cbn [fst snd] in *.
  intros Hok. destruct i as [|i]; simpl.
  - intros [= <-]. by rewrite Hd.
  - by apply IH.
Qed.


Lemma get_outneighbors_weights g u n r outs :
  hashmap g !! u = Some n → adj_list g !! n = Some r →
  get_outneighbors g u = Ok outs → outs.*2 = r.*2.
Proof.
  intros Hu Hr. unfold get_outneighbors, map_value. rewrite Hu. simpl.
  rewrite (index_lookup _ _ _ Hr). simpl.
  intros Hl. by apply (label_row_length (directmap g) r outs).
Qed.

(** The handles and the adjacency lists behind [create_probability_graph]:
    the row of a registered label is divided, targets stay. *)
Lemma create_probability_graph_row g u n r :
  wf g → hashmap g !! u = Some n → adj_list g !! n = Some r →
  ∃ r', adj_list (create_probability_graph wsum wdiv g).1 !! n = Some r' ∧
        r'.*1 = r.*1 ∧
        ((create_probability_graph wsum wdiv g).2 = Ok tt →
         r' = (divide_row wdiv (wsum r.*2) r).1 ∧
         (divide_row wdiv (wsum r.*2) r).2 = true).
Proof.
  intros Hwf Hu Hr. rewrite (create_probability_graph_rows g Hwf). simpl.
  pose proof (divide_rows_targets (adj_list g)) as Ht.
  apply (f_equal (.!! n)) in Ht. rewrite !list_lookup_fmap, Hr in Ht.
  destruct ((divide_rows wsum wdiv (adj_list g)).1 !! n) as [r'|] eqn:Hr';
    [|done].
  injection Ht as Ht. exists r'. split; [done|]. split; [done|].
  destruct (divide_rows wsum wdiv (adj_list g)).2 eqn:Hok; [|done].
  intros _. destruct (divide_rows_lookup (adj_list g) n r Hok Hr) as [Hl Hd].
  split; [congruence|done].
Qed.

End Probability.

(** X9. On a well-formed graph [create_probability_graph()] keeps the
    nodes, their handles and the endpoints of every edge, whether it
    returns or raises.  When it returns, [get_edge(u, v)] is the old
    weight of the edge divided by the sum of the old weights of the edges
    that leave [u]. *)
Theorem create_probability_graph_divides {W : Type} `{EqDecision W}
    (wsum : list W → W) (wdiv : W → W → option W) (g : Wdgraph W) :
  wf g →
  get_nodes (create_probability_graph wsum wdiv g).1 = get_nodes g ∧
  (∀ u, map_value (create_probability_graph wsum wdiv g).1 u = map_value g u) ∧
  (∀ u v, (∃ q, get_edge (create_probability_graph wsum wdiv g).1 u v = Ok q) ↔
          (∃ w, get_edge g u v = Ok w)) ∧
  ((create_probability_graph wsum wdiv g).2 = Ok tt →
   ∀ u v q, get_edge (create_probability_graph wsum wdiv g).1 u v = Ok q ↔
     ∃ w outs, get_edge g u v = Ok w ∧ get_outneighbors g u = Ok outs ∧
               wdiv w (wsum (outs.*2)) = Some q).
Proof.
  intros Hwf.
  pose proof (create_probability_graph_row wsum wdiv g) as Hrow.
  pose proof (create_probability_graph_wf wsum wdiv g Hwf) as Hwf'.
  assert (hashmap (create_probability_graph wsum wdiv g).1 = hashmap g) as Hhm.
  { by rewrite (create_probability_graph_rows wsum wdiv g Hwf). }
  split; [by rewrite (create_probability_graph_rows wsum wdiv g Hwf)|].
  split; [intros u; unfold map_value; by rewrite Hhm|].
  split.
  - intros u v. split.
    + intros (q & (n1 & n2 & r' & Hu & Hv & Hr' & Hq)%get_edge_Ok).
      rewrite Hhm in Hu, Hv.
      destruct (wf_handle_row g u n1 Hwf Hu) as [r Hr].
      destruct (Hrow u n1 r Hwf Hu Hr) as (r'' & Hr'' & Ht & _).
      assert (r'' = r') as -> by congruence.
      destruct (find_weight n2 r) as [w|] eqn:Hw.
      * exists w. apply get_edge_Ok. by exists n1, n2, r.
      * apply find_weight_None in Hw. rewrite <- Ht in Hw.
        apply find_weight_None in Hw. congruence.
    + intros (w & (n1 & n2 & r & Hu & Hv & Hr & Hw)%get_edge_Ok).
      destruct (Hrow u n1 r Hwf Hu Hr) as (r' & Hr' & Ht & _).
      destruct (find_weight n2 r') as [q|] eqn:Hq.
      * exists q. apply get_edge_Ok. exists n1, n2, r'. by rewrite Hhm.
      * apply find_weight_None in Hq. rewrite Ht in Hq.
        apply find_weight_None in Hq. congruence.
  - intros Hok u v q. rewrite get_edge_Ok, Hhm. split.
    + intros (n1 & n2 & r' & Hu & Hv & Hr' & Hq).
      destruct (wf_handle_row g u n1 Hwf Hu) as [r Hr].
      destruct (Hrow u n1 r Hwf Hu Hr) as (r'' & Hr'' & _ & Hdiv).
      assert (r'' = r') as -> by congruence.
      destruct (Hdiv Hok) as [-> Hd].
      rewrite (divide_row_find wdiv _ r n2 Hd) in Hq.
      destruct (find_weight n2 r) as [w|] eqn:Hw; [|done]. simpl in Hq.
      destruct (get_outneighbors_spec g u n1 Hwf Hu) as (outs & Houts & _).
      exists w, outs. split; [|split; [done|]].
      * apply get_edge_Ok. by exists n1, n2, r.
      * by rewrite (get_outneighbors_weights g u n1 r outs Hu Hr Houts).
    + intros (w & outs & (n1 & n2 & r & Hu & Hv & Hr & Hw)%get_edge_Ok
                & Houts & Hq).
      destruct (Hrow u n1 r Hwf Hu Hr) as (r' & Hr' & _ & Hdiv).
      destruct (Hdiv Hok) as [-> Hd].
      exists n1, n2, (divide_row wdiv (wsum r.*2) r).1. split_and!; try done.
      rewrite (divide_row_find wdiv _ r n2 Hd), Hw. simpl.
      by rewrite <- (get_outneighbors_weights g u n1 r outs Hu Hr Houts).
Qed.

Lemma create_probability_graph_divides_witness :
  wf frequencies ∧
  (create_probability_graph qsum qdiv frequencies).2 = Ok tt ∧
  ∃ q, get_edge (create_probability_graph qsum qdiv frequencies).1 "a" "c"
         = Ok q ∧
       QArith_base.Qeq q (QArith_base.Qmake 3 4).
Proof.
  assert (wf frequencies) as Hwf.
  { apply set_edge'_wf, set_edge'_wf, wf_empty. }
  assert ((create_probability_graph qsum qdiv frequencies).2 = Ok tt) as Hok.
  { vm_compute. reflexivity. }
  split; [exact Hwf|]. split; [exact Hok|].
  destruct (create_probability_graph_divides qsum qdiv frequencies Hwf)
    as (_ & _ & _ & Hdiv).
  eexists. split.
  - apply (Hdiv Hok).
    exists (QArith_base.Qmake 3 1),
           [("b", QArith_base.Qmake 1 1); ("c", QArith_base.Qmake 3 1)].
    split; [reflexivity|]. split; [reflexivity|]. vm_compute. reflexivity.
  - vm_compute. reflexivity.
Defined.



Open Scope Z_scope.

(* ===================================================================== *)
(** * Further properties of [solve_max_path] *)
(* ===================================================================== *)

Lemma dict_get_dval (dist : gmap string Z) u :
  is_Some (dist !! u) → dict_get dist u = Ok (dval dist u).
Proof. intros [x Hx]. unfold dict_get, dval. by rewrite Hx. Qed.

(** The inner loop of the backward pass keeps the first source whose
    distance is the largest. *)
Lemma best_source_max (dist : gmap string Z) (inn : list (string * Z)) :
  ∀ md mn md' mn',
  (∀ u w, (u, w) ∈ inn → is_Some (dist !! u)) →
  best_source dist md mn inn = Ok (md', mn') →
  (∀ d, md = Some d → ∃ d', md' = Some d' ∧ d ≤ d') ∧
  (∀ u w, (u, w) ∈ inn → ∃ d', md' = Some d' ∧ dval dist u ≤ d') ∧
  ((md' = md ∧ mn' = mn) ∨
   (∃ u w, (u, w) ∈ inn ∧ mn' = Some u ∧ md' = Some (dval dist u))).
Proof.
  induction inn as [|[s x] inn IH]; intros md mn md' mn' Hdom; simpl.
  - intros [= <- <-]. split_and!; [eauto with lia| |by left].
    by intros u w ?%elem_of_nil.
  - rewrite (dict_get_dval dist s) by (eapply Hdom; left). simpl.
    assert (∀ u w, (u, w) ∈ inn → is_Some (dist !! u)) as Hdom'.
    { intros u w Hin. eapply Hdom. by right. }
    destruct (above (dval dist s) md) eqn:Hab; intros Hbest;
      destruct (IH _ _ _ _ Hdom' Hbest) as (Hacc & Hall & Hsel).
    + destruct (Hacc _ eq_refl) as (d' & Hd' & Hle).
      split_and!.
      * intros d ->. exists d'. split; [done|]. simpl in Hab.
        apply bool_decide_eq_true in Hab. lia.
      * intros u w [[= -> ->]|Hin]%elem_of_cons; [by exists d'|by eapply Hall].
      * right. destruct Hsel as [[-> ->]|(u & w & Hin & -> & ->)].
        -- exists s, x. split; [left|done].
        -- exists u, w. split; [by right|done].
    + destruct md as [d0|]; [|done]. simpl in Hab.
      apply bool_decide_eq_false in Hab.
      destruct (Hacc _ eq_refl) as (d' & Hd' & Hle).
      split_and!.
      * intros d [= <-]. by exists d'.
      * intros u w [[= -> ->]|Hin]%elem_of_cons; [|by eapply Hall].
        exists d'. split; [done|]. lia.
      * destruct Hsel as [[-> ->]|(u & w & Hin & -> & ->)]; [by left|].
        right. exists u, w. split; [by right|done].
Qed.

Lemma best_source_first (dist : gmap string Z) (inn : list (string * Z)) md u :
  (∀ u w, (u, w) ∈ inn → is_Some (dist !! u)) →
  best_source dist None None inn = Ok (md, Some u) →
  ∃ w, (u, w) ∈ inn ∧ ∀ u' w', (u', w') ∈ inn → dval dist u' ≤ dval dist u.
Proof.
  intros Hdom Hbest.
  destruct (best_source_max dist inn None None md (Some u) Hdom Hbest)
    as (_ & Hall & [[_ [=]]|(u0 & w & Hin & [= <-] & ->)]).
  exists w. split; [done|]. intros u' w' Hin'.
  destruct (Hall u' w' Hin') as (d' & [= <-] & Hle). done.
Qed.

(** A walk that returns went from node to node up to ["s"]. *)
Lemma walk_back_Ok G dist : ∀ (fuel : nat) c cp r,
  walk_back fuel G dist cp (Some c) = Ok r →
  ∃ chain, r = cp ++ (Some <$> chain) ∧ walked G dist c chain.
Proof.
  induction fuel as [|fuel IH]; intros c cp r; [done|]. simpl.
  case_decide as Hc.
  - intros (inn & Hinn & ([md mn] & Hbest & Hrest)%bind_Ok)%bind_Ok.
    destruct mn as [u|].
    + destruct (IH u _ r Hrest) as (chain & -> & Hw).
      exists (u :: chain). split; [by rewrite <- app_assoc|].
      split; [by intros ->|]. split; [by exists inn, md|done].
    + by destruct fuel.
  - intros [= <-]. exists []. split; [by rewrite app_nil_r|].
    simpl. congruence.
Qed.

Lemma rev_fmap_Some (l : list string) : rev (Some <$> l) = Some <$> rev l.
Proof.
  induction l as [|x l IH]; [done|]. rewrite fmap_cons. simpl.
  by rewrite IH, fmap_app.
Qed.

Lemma solve_max_path_Ok pick (fuel : nat) G d p :
  solve_max_path pick fuel G = Ok (d, p) →
  ∃ dist chain, max_distances pick fuel G = Ok dist ∧
    walked G dist "t" chain ∧ p = Some <$> rev ("t" :: chain) ∧
    dist !! "t" = Some d.
Proof.
  unfold solve_max_path.
  intros (dist & Hdist & (cp & Hwalk & (dt & Hdt & [= <- <-])%bind_Ok)%bind_Ok)
    %bind_Ok.
  destruct (walk_back_Ok G dist fuel "t" [Some "t"] cp Hwalk) as (chain & -> & Hw).
  exists dist, chain. split_and!; try done.
  - change ([Some "t"] ++ (Some <$> chain)) with (Some <$> ("t" :: chain)).
    apply rev_fmap_Some.
  - unfold dict_get in Hdt. destruct (dist !! "t"); congruence.
Qed.

Lemma max0_ge (xs : list Z) x : x ∈ xs → x ≤ max0 xs.
Proof.
  induction xs as [|y xs IH]; [by intros ?%elem_of_nil|].
  unfold max0 in *. simpl. intros [->|Hin]%elem_of_cons; [lia|].
  specialize (IH Hin). lia.
Qed.

Lemma max0_attained (xs : list Z) m :
  m ∈ xs → 0 ≤ m → (∀ x, x ∈ xs → x ≤ m) → max0 xs = m.
Proof.
  intros Hin Hm Hall. apply Z.le_antisymm; [|by apply max0_ge].
  clear Hin. induction xs as [|y xs IH]; [done|].
  unfold max0 in *. simpl. apply Z.max_lub.
  - apply Hall. left.
  - apply IH. intros x Hx. apply Hall. by right.
Qed.

Lemma linked_repeat_cycle {A : Type} `{EqDecision A} (R : relation A) (l : list A) :
  linked R l → ¬ NoDup l → ∃ c, tc R c c.
Proof.
  intros Hl (x & l1 & l2 & l3 & ->)%not_NoDup_split.
  apply linked_app_r in Hl.
  apply (linked_app_l R (x :: l2) x l3) in Hl.
  exists x. by apply (linked_tc R x l2 x).
Qed.

Lemma path_weight_linked G (Q : list string) x :
  path_weight G Q = Ok x → linked (arc G) Q.
Proof.
  revert x. induction Q as [|a [|b Q] IH]; intros x; [done..|].
  cbn [path_weight].
  intros (w & Hw & (m & Hm & _)%bind_Ok)%bind_Ok.
  split; [by exists w|]. by eapply IH.
Qed.

Lemma linked_path_weight G (Q : list string) :
  linked (arc G) Q → ∃ x, path_weight G Q = Ok x.
Proof.
  induction Q as [|a [|b Q] IH]; [by eexists..|].
  intros [[w Hw] Hl]. destruct (IH Hl) as [x Hx].
  exists (w + x). change (path_weight G (a :: b :: Q)) with
    (w' ← get_edge G a b; more ← path_weight G (b :: Q); Ok (w' + more)).
  by rewrite Hw, Hx.
Qed.

Section Distances.
Variable G : Wdgraph Z.
Variable L : list string.
Variable dist : gmap string Z.
Hypothesis Hwf : wf G.
Hypothesis Hperm : L ≡ₚ directmap G.
Hypothesis Hdom : ∀ v, is_Some (dist !! v) ↔ v ∈ L.
Hypothesis Hrel : ∀ v, v ∈ L → relaxed G dist v.

Lemma registered_in_order v : is_Some (hashmap G !! v) → v ∈ L.
Proof using Hwf Hperm Hdom Hrel. rewrite Hperm. by apply wf_registered. Qed.

Lemma relaxed_at v :
  is_Some (hashmap G !! v) →
  ∃ inn, get_inneighbors G v = Ok inn ∧
    (∀ u w, (u, w) ∈ inn ↔ get_edge G u v = Ok w) ∧
    (∀ u w, (u, w) ∈ inn → is_Some (dist !! u)) ∧
    dval dist v = max0 (candidates (dval dist) inn).
Proof using Hwf Hperm Hdom Hrel.
  intros [n Hn].
  destruct (get_inneighbors_spec G v n Hwf Hn) as (inn & Hinn & Hmem).
  destruct (Hrel v) as (inn' & Hinn' & Hd & Hv).
  { apply registered_in_order. by exists n. }
  assert (inn' = inn) as -> by congruence.
  exists inn. split_and!; try done. unfold dval at 1. by rewrite Hv.
Qed.

Lemma dval_nonneg v : 0 ≤ dval dist v.
Proof using Hwf Hperm Hdom Hrel.
  destruct (hashmap G !! v) as [n|] eqn:Hn.
  - destruct (relaxed_at v) as (inn & _ & _ & _ & ->); [by exists n|].
    apply max0_nonneg.
  - unfold dval. destruct (dist !! v) as [x|] eqn:Hx; [|done].
    assert (v ∈ L) as Hv by (apply Hdom; by exists x).
    rewrite Hperm in Hv. apply wf_registered in Hv as [? ?]; [|done].
    congruence.
Qed.

(** The distance grows along every edge by at least its weight. *)
Lemma dval_edge u v w : get_edge G u v = Ok w → dval dist u + w ≤ dval dist v.
Proof using Hwf Hperm Hdom Hrel.
  intros Hw. pose proof (get_edge_registered G u v w Hw) as [_ Hv].
  destruct (relaxed_at v Hv) as (inn & _ & Hmem & _ & ->).
  apply max0_ge. unfold candidates.
  apply list_elem_of_fmap. exists (u, w). split; [done|]. by apply Hmem.
Qed.

(** No list of consecutive edges weighs more than the difference of the
    distances at its ends. *)
Lemma path_weight_bound : ∀ (Q : list string) a v x,
  head Q = Some a → last Q = Some v → path_weight G Q = Ok x →
  dval dist a + x ≤ dval dist v.
Proof using Hwf Hperm Hdom Hrel.
  induction Q as [|a0 [|b Q] IH]; intros a v x; [done|..].
  - simpl. intros [= ->] [= ->] [= <-]. lia.
  - intros [= ->] Hlast. cbn [path_weight].
    intros (w & Hw & (m & Hm & [= <-])%bind_Ok)%bind_Ok.
    pose proof (IH b v m eq_refl Hlast Hm) as Hle.
    pose proof (dval_edge a b w Hw). lia.
Qed.

(** The nodes of a walk, read from ["s"] on, are joined by edges. *)
Lemma walked_linked : ∀ chain c tail,
  walked G dist c chain → linked (arc G) (c :: tail) →
  linked (arc G) (rev chain ++ c :: tail) ∧
  head (rev chain ++ c :: tail) = Some "s".
Proof using Hwf Hperm Hdom Hrel.
  induction chain as [|u chain IH]; intros c tail; simpl.
  - by intros ->.
  - intros (Hc & (inn & md & Hinn & Hbest) & Hw) Hl.
    rewrite <- app_assoc. simpl. apply IH; [done|].
    assert (is_Some (hashmap G !! c)) as Hreg.
    { destruct (hashmap G !! c) eqn:Hh; [done|].
      by rewrite (get_inneighbors_unregistered G c Hh) in Hinn. }
    destruct (relaxed_at c Hreg) as (inn' & Hinn' & Hmem & Hd & _).
    assert (inn' = inn) as -> by congruence.
    destruct (best_source_first dist inn md u Hd Hbest) as (w & Hin & _).
    split; [|done]. exists w. by apply Hmem.
Qed.

(** When the edges into a node all carry the same weight, none negative,
    the distance drops along the walk by the weight of the edge taken. *)
Lemma walked_weight :
  (∀ u1 u2 v w1 w2, get_edge G u1 v = Ok w1 → get_edge G u2 v = Ok w2 →
                    w1 = w2) →
  (∀ u v w, get_edge G u v = Ok w → 0 ≤ w) →
  ∀ chain c tail m,
  walked G dist c chain → path_weight G (c :: tail) = Ok m →
  path_weight G (rev chain ++ c :: tail)
    = Ok (dval dist c - dval dist "s" + m).
Proof using Hwf Hperm Hdom Hrel.
  intros Huni Hpos.
  induction chain as [|u chain IH]; intros c tail m; simpl.
  - intros -> ->. f_equal. lia.
  - intros (Hc & (inn & md & Hinn & Hbest) & Hw) Hm.
    rewrite <- app_assoc. simpl.
    assert (is_Some (hashmap G !! c)) as Hreg.
    { destruct (hashmap G !! c) eqn:Hh; [done|].
      by rewrite (get_inneighbors_unregistered G c Hh) in Hinn. }
    destruct (relaxed_at c Hreg) as (inn' & Hinn' & Hmem & Hd & Hval).
    assert (inn' = inn) as -> by congruence.
    destruct (best_source_first dist inn md u Hd Hbest) as (w & Hin & Hbig).
    pose proof (proj1 (Hmem u w) Hin) as Hedge.
    assert (dval dist c = dval dist u + w) as Hstep.
    { rewrite Hval. apply max0_attained.
      - unfold candidates. apply list_elem_of_fmap. by exists (u, w).
      - pose proof (dval_nonneg u). pose proof (Hpos u c w Hedge). lia.
      - intros x ([u' w'] & -> & Hin')%list_elem_of_fmap. simpl.
        pose proof (Hbig u' w' Hin').
        assert (w' = w) as ->; [|lia].
        eapply Huni; [by apply Hmem|done]. }
    rewrite (IH u (c :: tail) (w + m) Hw).
    + f_equal. lia.
    + cbn [path_weight]. rewrite Hedge. simpl. rewrite Hm. done.
Qed.

End Distances.

(** When every node other than ["s"] has an edge into it, the walk back
    from a node of the order returns. *)
Lemma walk_back_returns G L dist :
  wf G → L ≡ₚ directmap G →
  (∀ u v x, get_edge G u v = Ok x → before u v L) →
  (∀ v, is_Some (dist !! v) ↔ v ∈ L) →
  (∀ v, v ∈ L → v ≠ "s" → ∃ u w, get_edge G u v = Ok w) →
  ∀ (j : nat) c cp (fuel : nat),
  L !! j = Some c → (j + 2 ≤ fuel)%nat →
  ∃ r, walk_back fuel G dist cp (Some c) = Ok r.
Proof.
  intros Hwf Hperm Hord Hdom Hsrc.
  induction j as [j IH] using lt_wf_ind. intros c cp fuel Hj Hfuel.
  destruct fuel as [|fuel]; [lia|]. simpl. case_decide as Hs; [|eauto].
  destruct (walk_step G L dist Hwf Hperm Hord Hdom c j Hj)
    as (inn & md & mn & Hinn & Hbest & Hcase).
  rewrite Hinn. simpl. rewrite Hbest. simpl.
  destruct Hcase as [[-> _]|(u & w & i & -> & _ & Hlt & Hi)].
  - destruct (Hsrc c) as (u & w & Hw).
    { by eapply list_elem_of_lookup_2. }
    { intros ->. by apply Hs. }
    pose proof (get_edge_registered G u c w Hw) as [_ [n Hn]].
    destruct (get_inneighbors_spec G c n Hwf Hn) as (inn' & Hinn' & Hmem).
    rewrite Hinn in Hinn'. injection Hinn' as <-.
    apply Hmem in Hw. by apply elem_of_nil in Hw.
  - apply (IH i Hlt); [done|lia].
Qed.

(** X11. On a well-formed graph with a directed cycle [solve_max_path]
    raises the cycle exception of [kahns_algorithm]; no distance is
    computed. *)
Theorem solve_max_path_cycle_raises
    (pick : nat → nat) (fuel : nat) (G : Wdgraph Z) :
  wf G → has_cycle G → (len G < fuel)%nat →
  max_distances pick fuel G = Raise GraphHasCycle ∧
  solve_max_path pick fuel G = Raise GraphHasCycle.
Proof.
  intros Hwf Hcyc Hfuel.
  assert (max_distances pick fuel G = Raise GraphHasCycle) as Hd.
  { unfold max_distances.
    by rewrite (kahn_cycle_Raise pick G fuel Hwf Hcyc Hfuel). }
  split; [done|]. unfold solve_max_path. by rewrite Hd.
Qed.

Lemma solve_max_path_cycle_raises_witness :
  wf cyclic_graph ∧ has_cycle cyclic_graph ∧ (len cyclic_graph < 3)%nat ∧
  solve_max_path pop_first 3 cyclic_graph = Raise GraphHasCycle.
Proof.
  assert (wf cyclic_graph) as Hwf by apply graph_of_edges_wf.
  assert (has_cycle cyclic_graph) as Hcyc.
  { exists "a". apply (tc_l _ "a" "b" "a").
    - exists 1. reflexivity.
    - apply tc_once. exists 1. reflexivity. }
  assert (len cyclic_graph < 3)%nat as Hlen by (vm_compute; lia).
  split; [exact Hwf|]. split; [exact Hcyc|]. split; [exact Hlen|].
  apply (solve_max_path_cycle_raises pop_first 3 cyclic_graph Hwf Hcyc Hlen).
Defined.

(** X12. What [solve_max_path] answers on a well-formed graph does not
    depend on the elements that [S.pop()] returns in [kahns_algorithm]:
    two runs that pop in different orders return the same length and the
    same path, or raise the same exception. *)
Theorem solve_max_path_ignores_pop_order
    (pick1 pick2 : nat → nat) (fuel : nat) (G : Wdgraph Z) :
  wf G → (len G < fuel)%nat →
  solve_max_path pick1 fuel G = solve_max_path pick2 fuel G ∧
  max_distances pick1 fuel G = max_distances pick2 fuel G.
Proof.
  intros Hwf Hfuel.
  split; [by apply solve_max_path_deterministic|].
  destruct (kahn_outcome pick1 G fuel Hwf Hfuel) as [[L1 HL1]|[HL1 _]];
    destruct (kahn_outcome pick2 G fuel Hwf Hfuel) as [[L2 HL2]|[HL2 Hc]].
  - destruct (max_distances_Ok pick1 fuel G L1 Hwf HL1) as (d1 & Hd1 & _).
    destruct (max_distances_Ok pick2 fuel G L2 Hwf HL2) as (d2 & Hd2 & _).
    rewrite Hd1, Hd2. f_equal.
    by eapply (max_distances_deterministic pick1 pick2 fuel fuel G).
  - rewrite (kahn_cycle_Raise pick1 G fuel Hwf Hc Hfuel) in HL1. done.
  - apply (kahn_Ok_acyclic pick2 G fuel L2 Hwf) in HL2.
    pose proof (kahn_acyclic_Ok pick1 G fuel Hwf HL2 Hfuel) as [L HL].
    congruence.
  - unfold max_distances. by rewrite HL1, HL2.
Qed.

Lemma solve_max_path_ignores_pop_order_witness :
  wf demo_graph ∧ (len demo_graph < 11)%nat ∧
  solve_max_path (λ i, i) 11 demo_graph = solve_max_path pop_first 11 demo_graph.
Proof.
  assert (wf demo_graph) as Hwf by apply graph_of_edges_wf.
  assert (len demo_graph < 11)%nat as Hlen by (vm_compute; lia).
  split; [exact Hwf|]. split; [exact Hlen|].
  apply (solve_max_path_ignores_pop_order (λ i, i) pop_first 11 demo_graph
           Hwf Hlen).
Defined.

Lemma solve_max_path_order pick (fuel : nat) G d p :
  wf G → solve_max_path pick fuel G = Ok (d, p) →
  ∃ L dist chain,
    L ≡ₚ directmap G ∧
    (∀ v, is_Some (dist !! v) ↔ v ∈ L) ∧
    (∀ v, v ∈ L → relaxed G dist v) ∧
    acyclic G ∧
    walked G dist "t" chain ∧ p = Some <$> (rev chain ++ ["t"]) ∧
    dist !! "t" = Some d.
Proof.
  intros Hwf (dist & chain & Hdist & Hw & -> & Hd)%solve_max_path_Ok.
  destruct (max_distances_inv pick fuel G dist Hwf Hdist)
    as (L & HL & Hdom & Hrel).
  destruct (kahn_Ok pick G fuel L Hwf HL) as [Hperm _].
  exists L, dist, chain. split_and!; try done.
  by eapply kahn_Ok_acyclic.
Qed.

(** What the walk back returns, read forward. *)
Lemma solve_max_path_path
    (pick : nat → nat) (fuel : nat) (G : Wdgraph Z)
    (d : Z) (p : list (option string)) :
  wf G → solve_max_path pick fuel G = Ok (d, p) →
  ∃ Q, p = Some <$> Q ∧ head Q = Some "s" ∧ last Q = Some "t" ∧
       linked (arc G) Q ∧ NoDup Q ∧ ∃ x, path_weight G Q = Ok x.
Proof.
  intros Hwf Hsolve.
  destruct (solve_max_path_order pick fuel G d p Hwf Hsolve)
    as (L & dist & chain & Hperm & Hdom & Hrel & Hac & Hw & -> & Hd).
  destruct (walked_linked G L dist Hwf Hperm Hdom Hrel chain "t" [] Hw I)
    as [Hl Hh].
  exists (rev chain ++ ["t"]). split_and!; try done.
  - by rewrite last_snoc.
  - destruct (decide (NoDup (rev chain ++ ["t"]))) as [|Hnd]; [done|].
    destruct (linked_repeat_cycle _ _ Hl Hnd) as [c Hc]. by destruct (Hac c).
  - by apply linked_path_weight.
Qed.



(** X14. The length that [solve_max_path] returns on a well-formed graph
    is not negative, and no list of consecutive edges that ends in ["t"],
    wherever it starts, has a larger sum of weights. *)
Theorem returned_length_bounds_paths
    (pick : nat → nat) (fuel : nat) (G : Wdgraph Z)
    (d : Z) (p : list (option string)) :
  wf G → solve_max_path pick fuel G = Ok (d, p) →
  0 ≤ d ∧
  ∀ Q x, last Q = Some "t" → path_weight G Q = Ok x → x ≤ d.
Proof.
  intros Hwf Hsolve.
  destruct (solve_max_path_order pick fuel G d p Hwf Hsolve)
    as (L & dist & chain & Hperm & Hdom & Hrel & Hac & Hw & -> & Hd).
  assert (dval dist "t" = d) as Hdt by (unfold dval; by rewrite Hd).
  split.
  - rewrite <- Hdt. by apply (dval_nonneg G L dist).
  - intros Q x Hlast Hx. destruct Q as [|a Q]; [done|].
    pose proof (path_weight_bound G L dist Hwf Hperm Hdom Hrel
                  (a :: Q) a "t" x eq_refl Hlast Hx) as Hb.
    pose proof (dval_nonneg G L dist Hwf Hperm Hdom Hrel a). lia.
Qed.

Lemma returned_length_bounds_paths_witness :
  wf demo_graph ∧
  solve_max_path pop_first 11 demo_graph
    = Ok (41, Some <$> ["s"; "B"; "F"; "G"; "t"]) ∧
  path_weight demo_graph ["s"; "C"; "D"; "E"; "G"; "t"] = Ok 35 ∧ 35 ≤ 41.
Proof.
  assert (wf demo_graph) as Hwf by apply graph_of_edges_wf.
  assert (solve_max_path pop_first 11 demo_graph
            = Ok (41, Some <$> ["s"; "B"; "F"; "G"; "t"])) as Hs.
  { vm_compute. reflexivity. }
  assert (path_weight demo_graph ["s"; "C"; "D"; "E"; "G"; "t"] = Ok 35) as Hp.
  { vm_compute. reflexivity. }
  split; [exact Hwf|]. split; [exact Hs|]. split; [exact Hp|].
  destruct (returned_length_bounds_paths pop_first 11 demo_graph _ _ Hwf Hs)
    as [_ Hb].
  apply (Hb ["s"; "C"; "D"; "E"; "G"; "t"] 35 eq_refl Hp).
Defined.

(** With one weight on the edges into each node the walk back follows a
    heaviest path. *)
Lemma critical_path_of_uniform_weights
    (pick : nat → nat) (fuel : nat) (G : Wdgraph Z)
    (d : Z) (p : list (option string)) :
  wf G →
  (∀ u1 u2 v w1 w2, get_edge G u1 v = Ok w1 → get_edge G u2 v = Ok w2 →
                    w1 = w2) →
  (∀ u v w, get_edge G u v = Ok w → 0 ≤ w) →
  get_inneighbors G "s" = Ok [] →
  solve_max_path pick fuel G = Ok (d, p) →
  ∃ Q, p = Some <$> Q ∧ path_weight G Q = Ok d ∧
       ∀ Q' x, last Q' = Some "t" → path_weight G Q' = Ok x → x ≤ d.
Proof.
  intros Hwf Huni Hpos Hs Hsolve.
  destruct (solve_max_path_order pick fuel G d p Hwf Hsolve)
    as (L & dist & chain & Hperm & Hdom & Hrel & Hac & Hw & -> & Hd).
  assert (dval dist "t" = d) as Hdt by (unfold dval; by rewrite Hd).
  assert (dval dist "s" = 0) as Hds.
  { assert (is_Some (hashmap G !! "s")) as Hreg.
    { destruct (hashmap G !! "s") eqn:Hh; [done|].
      by rewrite (get_inneighbors_unregistered G "s" Hh) in Hs. }
    destruct (relaxed_at G L dist Hwf Hperm Hdom Hrel "s" Hreg)
      as (inn & Hinn & _ & _ & ->).
    rewrite Hs in Hinn. by injection Hinn as <-. }
  exists (rev chain ++ ["t"]). split; [done|]. split.
  - rewrite (walked_weight G L dist Hwf Hperm Hdom Hrel Huni Hpos
               chain "t" [] 0 Hw eq_refl).
    f_equal. lia.
  - intros Q x Hlast Hx. destruct Q as [|a Q]; [done|].
    pose proof (path_weight_bound G L dist Hwf Hperm Hdom Hrel
                  (a :: Q) a "t" x eq_refl Hlast Hx) as Hb.
    pose proof (dval_nonneg G L dist Hwf Hperm Hdom Hrel a). lia.
Qed.


Lemma get_edge_labels {W : Type} `{EqDecision W} (g : Wdgraph W) u v w :
  wf g → get_edge g u v = Ok w → u ∈ directmap g ∧ v ∈ directmap g.
Proof.
  intros Hwf [Hu Hv]%get_edge_registered. split; by apply wf_registered.
Qed.

Ltac label_cases H :=
  repeat (apply elem_of_cons in H as [->|H]);
  [..|by apply elem_of_nil in H].

Lemma chain_graph_edges u v w :
  get_edge chain_graph u v = Ok w →
  (u = "s" ∧ v = "a" ∧ w = 2) ∨ (u = "a" ∧ v = "t" ∧ w = 3).
Proof.
  intros Hw.
  destruct (get_edge_labels chain_graph u v w (graph_of_edges_wf _) Hw)
    as [Hu Hv].
  change (directmap chain_graph) with ["s"; "a"; "t"] in Hu, Hv.
  label_cases Hu; label_cases Hv; vm_compute in Hw;
    first [discriminate Hw | injection Hw as <-; auto].
Qed.

Lemma chain_graph_acyclic : acyclic chain_graph.
Proof.
  apply (topological_order_acyclic chain_graph ["s"; "a"; "t"]).
  - by apply (bool_decide_unpack _).
  - intros u v x [(-> & -> & _)|(-> & -> & _)]%chain_graph_edges.
    + by exists [], [], ["t"].
    + by exists ["s"], [], [].
Qed.


(** With an edge into every node but ["s"] the walk back arrives at
    ["s"]. *)
Lemma solve_max_path_reaches_source
    (pick : nat → nat) (fuel : nat) (G : Wdgraph Z) :
  wf G → acyclic G → (len G < fuel)%nat →
  (∃ n, map_value G "t" = Ok n) →
  (∀ v, v ∈ get_nodes G → v ≠ "s" → ∃ u w, get_edge G u v = Ok w) →
  ∃ d p, solve_max_path pick fuel G = Ok (d, p).
Proof.
  intros Hwf Hac Hfuel [n Hn%map_value_Ok] Hsrc.
  destruct (kahn_acyclic_Ok pick G fuel Hwf Hac Hfuel) as [L HL].
  destruct (max_distances_Ok pick fuel G L Hwf HL) as (dist & Hdist & Hdom & _).
  destruct (kahn_Ok pick G fuel L Hwf HL) as [Hperm Hord].
  assert ("t" ∈ L) as Ht.
  { rewrite Hperm. apply wf_registered; [done|]. by exists n. }
  pose proof Ht as [j Hj]%list_elem_of_lookup.
  destruct (walk_back_returns G L dist Hwf Hperm Hord Hdom) with
    (j := j) (c := "t") (cp := [Some "t"]) (fuel := fuel) as [r Hr].
  - intros v Hv. apply Hsrc. unfold get_nodes. by rewrite <- Hperm.
  - done.
  - apply lookup_lt_Some in Hj. rewrite Hperm, (wf_directmap G Hwf) in Hj. lia.
  - apply Hdom in Ht as [x Hx].
    exists x, (rev r). unfold solve_max_path. rewrite Hdist. simpl.
    rewrite Hr. simpl. unfold dict_get. by rewrite Hx.
Qed.

(** X16. On a well-formed graph without directed cycle in which ["t"] is
    registered and every node other than ["s"] has an edge into it,
    [solve_max_path] returns a length and a path. *)
Theorem solve_max_path_returns
    (pick : nat → nat) (fuel : nat) (G : Wdgraph Z) :
  wf G → acyclic G → (len G < fuel)%nat →
  (∃ n, map_value G "t" = Ok n) →
  (∀ v, v ∈ get_nodes G → v ≠ "s" → ∃ u w, get_edge G u v = Ok w) →
  ∃ d p, solve_max_path pick fuel G = Ok (d, p).
Proof. apply solve_max_path_reaches_source. Qed.

Lemma solve_max_path_returns_witness :
  wf chain_graph ∧ acyclic chain_graph ∧ (len chain_graph < 4)%nat ∧
  ∃ d p, solve_max_path pop_first 4 chain_graph = Ok (d, p).
Proof.
  assert (wf chain_graph) as Hwf by apply graph_of_edges_wf.
  assert (len chain_graph < 4)%nat as Hlen by (vm_compute; lia).
  split; [exact Hwf|]. split; [exact chain_graph_acyclic|].
  split; [exact Hlen|].
  apply (solve_max_path_returns pop_first 4 chain_graph Hwf
           chain_graph_acyclic Hlen).
  - exists 2%nat. reflexivity.
  - intros v Hv Hne.
    change (get_nodes chain_graph) with ["s"; "a"; "t"] in Hv.
    label_cases Hv.
    + done.
    + exists "s", 2. reflexivity.
    + exists "a", 3. reflexivity.
Defined.

Open Scope Z_scope.

(* ===================================================================== *)
(** * [generate_graph] and [main] *)
(* ===================================================================== *)

Lemma call_set_edge_spec (g : Wdgraph Z) u v w :
  wf g →
  ∃ g', call_set_edge g u v w = Ok g' ∧ g' = set_edge' g u v w ∧ wf g' ∧
    ∀ a b x, get_edge g' a b = Ok x ↔
      (a = u ∧ b = v ∧ x = w) ∨ (¬ (a = u ∧ b = v) ∧ get_edge g a b = Ok x).
Proof.
  intros Hwf. destruct (set_edge_spec g u v w Hwf) as (g' & Hset & Hwf' & He).
  exists g'. unfold call_set_edge, set_edge'. rewrite Hset. done.
Qed.

(** The labels [set_edge] registers are its two arguments. *)
Lemma set_edge_registered {W : Type} `{EqDecision W} (g : Wdgraph W) u v w z :
  is_Some (hashmap (set_edge' g u v w) !! z) →
  is_Some (hashmap g !! z) ∨ z = u ∨ z = v.
Proof.
  assert (∀ (g0 : Wdgraph W) a,
            is_Some (hashmap (register_node g0 a).1 !! z) →
            is_Some (hashmap g0 !! z) ∨ z = a) as Hreg.
  { intros g0 a. unfold register_node.
    destruct (hashmap g0 !! a) eqn:Ha; simpl; [by left|].
    destruct (decide (z = a)) as [->|Hne]; [by right|].
    rewrite lookup_insert_ne by done. by left. }
  unfold set_edge', set_edge.
  pose proof (Hreg g u) as H1.
  destruct (register_node g u) as [g1 n1]. simpl in *.
  pose proof (Hreg g1 v) as H2.
  destruct (register_node g1 v) as [g2 n2]. simpl in *.
  assert (hashmap (match raw_set_edge g2 n1 n2 w with
                   | Ok g3 => (g3, Ok tt)
                   | Raise e => (g2, Raise e)
                   | OutOfFuel => (g2, OutOfFuel)
                   end).1 = hashmap g2) as ->.
  { unfold raw_set_edge. destruct (index (adj_list g2) n1); simpl; try done.
    by destruct (overwrite n2 w a). }
  intros [Hz| ->]%H2; [|by right; right].
  apply H1 in Hz as [Hz| ->]; [by left|by right; left].
Qed.

Lemma set_edge_covered (g : Wdgraph Z) u v w :
  wf g → covered g → covered (set_edge' g u v w).
Proof.
  intros Hwf Hcov z Hz.
  destruct (call_set_edge_spec g u v w Hwf) as (g' & _ & <- & _ & He).
  apply set_edge_registered in Hz as [Hz|Hz].
  - destruct (Hcov z Hz) as (a & b & x & Hx & Hab).
    destruct (decide (a = u ∧ b = v)) as [[-> ->]|Hne].
    + exists u, v, w. split; [|done]. apply He. by left.
    + exists a, b, x. split; [|done]. apply He. by right.
  - exists u, v, w. split; [apply He; by left|]. destruct Hz; auto.
Qed.

Lemma add_dependencies_spec name c : ∀ deps (g : Wdgraph Z) isd,
  wf g →
  ∃ g' isd', add_dependencies g isd name c deps = Ok (g', isd') ∧ wf g' ∧
    (covered g → covered g') ∧
    (∀ a, a ∈ isd' ↔ a ∈ isd ∨ a ∈ deps) ∧
    ∀ a b x, get_edge g' a b = Ok x ↔
      (b = name ∧ a ∈ deps ∧ x = c) ∨
      (¬ (b = name ∧ a ∈ deps) ∧ get_edge g a b = Ok x).
Proof.
  induction deps as [|dep deps IH]; intros g isd Hwf; simpl.
  - exists g, isd. split_and!; try done.
    + intros a. split; [by left|]. by intros [?|?%elem_of_nil].
    + intros a b x. split; [|by intros [(_ & ?%elem_of_nil & _)|[_ ?]]].
      intros Hx. right. split; [|done]. by intros [_ ?%elem_of_nil].
  - destruct (call_set_edge_spec g dep name c Hwf) as (g1 & -> & Hg1 & Hwf1 & He1).
    simpl.
    destruct (IH g1 (isd ∪ {[dep]}) Hwf1) as (g' & isd' & -> & Hwf' & Hcov & Hisd & He).
    exists g', isd'. split_and!; try done.
    + intros Hc. apply Hcov. rewrite Hg1. by apply set_edge_covered.
    + intros a. rewrite Hisd, elem_of_union, elem_of_singleton, elem_of_cons.
      naive_solver.
    + intros a b x. rewrite He, He1. split.
      * intros [(-> & Hin & ->)|[Hnot [(-> & -> & ->)|[Hne Hold]]]].
        -- left. split_and!; try done. by right.
        -- left. split_and!; try done. left.
        -- right. split; [|done]. intros [-> [->|Hin]%elem_of_cons].
           ++ by apply Hne.
           ++ by apply Hnot.
      * intros [(-> & [->|Hin]%elem_of_cons & ->)|[Hnot Hold]].
        -- destruct (decide (dep ∈ deps)) as [Hin|Hnin]; [by left|].
           right. split; [by intros [_ ?]|]. by left.
        -- by left.
        -- right. split.
           ++ intros [-> Hin]. apply Hnot. split; [done|by right].
           ++ right. split; [|done]. intros [-> ->]. apply Hnot.
              split; [done|left].
Qed.

Lemma add_terminals_spec : ∀ ts (g : Wdgraph Z),
  wf g →
  ∃ g', add_terminals g ts = Ok g' ∧ wf g' ∧ (covered g → covered g') ∧
    ∀ a b x, get_edge g' a b = Ok x ↔
      (b = "t" ∧ a ∈ ts ∧ x = 0) ∨
      (¬ (b = "t" ∧ a ∈ ts) ∧ get_edge g a b = Ok x).
Proof.
  intros ts g Hwf.
  destruct (add_dependencies_spec "t" 0 ts g ∅ Hwf)
    as (g' & isd' & Hadd & Hwf' & Hcov & _ & He).
  exists g'. split_and!; try done.
  clear -Hadd. revert g isd' Hadd. generalize (∅ : gset string).
  induction ts as [|t ts IH]; intros isd g isd'; simpl.
  - by intros [= <- _].
  - destruct (call_set_edge g t "t" 0) as [g1| |]; simpl; try done.
    apply IH.
Qed.

Lemma add_task_spec (t : task) (g : Wdgraph Z) isd :
  wf g →
  ∃ g' isd', add_task g isd t = Ok (g', isd') ∧ wf g' ∧
    (covered g → covered g') ∧
    (∀ a, a ∈ isd' ↔ a ∈ isd ∨ a ∈ dependencies t) ∧
    ∀ a b x, get_edge g' a b = Ok x ↔
      (touches t a b ∧ x = cost t) ∨
      (¬ touches t a b ∧ get_edge g a b = Ok x).
Proof.
  intros Hwf. unfold add_task.
  destruct (add_dependencies_spec (task_name t) (cost t) (dependencies t) g isd Hwf)
    as (g1 & isd' & -> & Hwf1 & Hcov1 & Hisd & He1).
  simpl. unfold touches. case_decide as Hd.
  - destruct (call_set_edge_spec g1 "s" (task_name t) (cost t) Hwf1)
      as (g' & -> & Hg' & Hwf' & He).
    simpl. exists g', isd'. split_and!; try done.
    + intros Hc. rewrite Hg'. by apply set_edge_covered, Hcov1.
    + intros a b x. rewrite He, He1, Hd. split.
      * intros [(-> & -> & ->)|[Hne [(_ & ?%elem_of_nil & _)|[_ Hold]]]];
          [left|done|right].
        -- split; [|done]. split; [done|]. by right.
        -- split; [|done]. intros [-> [?%elem_of_nil|[_ ->]]]; [done|].
           by apply Hne.
      * intros [[[-> [?%elem_of_nil|[_ ->]]] ->]|[Hnot Hold]]; [done|by left|].
        right. split.
        -- intros [-> ->]. apply Hnot. split; [done|]. by right.
        -- right. split; [|done]. by intros [_ ?%elem_of_nil].
  - exists g1, isd'. split_and!; try done.
    intros a b x. rewrite He1. split.
    + intros [(-> & Hin & ->)|[Hnot Hold]].
      * left. split; [|done]. split; [done|by left].
      * right. split; [|done]. intros [-> [Hin|[? _]]]; [|done].
        by apply Hnot.
    + intros [[[-> [Hin|[? _]]] ->]|[Hnot Hold]]; [by left|done|].
      right. split; [|done]. intros [-> Hin]. apply Hnot.
      split; [done|by left].
Qed.

Lemma NoDup_fmap_inj {A B : Type} (f : A → B) (l : list A) x y :
  NoDup (f <$> l) → x ∈ l → y ∈ l → f x = f y → x = y.
Proof.
  induction l as [|z l IH]; [by intros _ ?%elem_of_nil|].
  rewrite fmap_cons. intros [Hnot Hnd]%NoDup_cons.
  intros [->|Hx]%elem_of_cons [->|Hy]%elem_of_cons Heq.
  - done.
  - destruct Hnot. rewrite Heq. by apply list_elem_of_fmap_2.
  - destruct Hnot. rewrite <- Heq. by apply list_elem_of_fmap_2.
  - by apply IH.
Qed.

Lemma add_tasks_spec : ∀ (data : list task) (g : Wdgraph Z) isd,
  wf g → NoDup (task_name <$> data) →
  ∃ g' isd', add_tasks g isd data = Ok (g', isd') ∧ wf g' ∧
    (covered g → covered g') ∧
    (∀ a, a ∈ isd' ↔ a ∈ isd ∨ ∃ t, t ∈ data ∧ a ∈ dependencies t) ∧
    ∀ a b x, get_edge g' a b = Ok x ↔
      (∃ t, t ∈ data ∧ touches t a b ∧ x = cost t) ∨
      ((∀ t, t ∈ data → ¬ touches t a b) ∧ get_edge g a b = Ok x).
Proof.
  induction data as [|t data IH]; intros g isd Hwf Hnd; simpl.
  - exists g, isd. split_and!; try done.
    + intros a. split; [by left|]. by intros [?|(t & ?%elem_of_nil & _)].
    + intros a b x. split.
      * intros Hx. right. split; [|done]. by intros t ?%elem_of_nil.
      * by intros [(t & ?%elem_of_nil & _)|[_ ?]].
  - rewrite fmap_cons in Hnd. apply NoDup_cons in Hnd as [Hnot Hnd].
    destruct (add_task_spec t g isd Hwf) as (g1 & isd1 & -> & Hwf1 & Hcov1 & Hisd1 & He1).
    simpl.
    destruct (IH g1 isd1 Hwf1 Hnd) as (g' & isd' & -> & Hwf' & Hcov & Hisd & He).
    exists g', isd'. split_and!; try done.
    + intros Hc. by apply Hcov, Hcov1.
    + intros a. rewrite Hisd, Hisd1. split.
      * intros [[?|Hin]|(t' & Ht' & Hin)]; [by left|right..].
        -- exists t. split; [left|done].
        -- exists t'. split; [by right|done].
      * intros [?|(t' & [->|Ht']%elem_of_cons & Hin)];
          [by left; left|by left; right|right]. by exists t'.
    + intros a b x. rewrite He, He1. split.
      * intros [(t' & Ht' & Hto & ->)|[Hall [[Hto ->]|[Hnt Hold]]]].
        -- left. exists t'. split; [by right|done].
        -- left. exists t. split; [left|done].
        -- right. split; [|done].
           intros t' [->|Ht']%elem_of_cons; [done|by apply Hall].
      * intros [(t' & [->|Ht']%elem_of_cons & Hto & ->)|[Hall Hold]].
        -- right. split; [|by left].
           intros t' Ht' [Hb' _]. destruct Hto as [Hb _].
           apply Hnot. rewrite <- Hb, Hb'. by apply list_elem_of_fmap_2.
        -- left. by exists t'.
        -- right. split.
           ++ intros t' Ht'. apply Hall. by right.
           ++ right. split; [|done]. apply Hall. left.
Qed.

Lemma add_tasks_wf : ∀ (data : list task) (g : Wdgraph Z) isd,
  wf g → ∃ g' isd', add_tasks g isd data = Ok (g', isd') ∧ wf g'.
Proof.
  induction data as [|t data IH]; intros g isd Hwf; simpl; [by eauto|].
  destruct (add_task_spec t g isd Hwf) as (g1 & isd1 & -> & Hwf1 & _).
  simpl. by apply IH.
Qed.

Lemma covered_empty : covered empty_graph.
Proof. intros z [n Hn]. done. Qed.

Lemma generate_graph_spec (list_of_set : gset string → list string)
    (data : list task) :
  NoDup (task_name <$> data) → "t" ∉ task_name <$> data →
  (∀ S, list_of_set S ≡ₚ elements S) →
  ∃ g, generate_graph list_of_set data = Ok g ∧ wf g ∧ covered g ∧
    ∀ a b x, get_edge g a b = Ok x ↔
      (∃ t, t ∈ data ∧ touches t a b ∧ x = cost t) ∨
      (b = "t" ∧ x = 0 ∧ a ∈ task_name <$> data ∧
       ∀ t, t ∈ data → a ∉ dependencies t).
Proof.
  intros Hnd Ht Hperm. unfold generate_graph.
  destruct (add_tasks_spec data empty_graph ∅ wf_empty Hnd)
    as (g1 & isd & -> & Hwf1 & Hcov1 & Hisd & He1).
  simpl.
  destruct (add_terminals_spec
              (list_of_set (list_to_set (task_name <$> data) ∖ isd)) g1 Hwf1)
    as (g & -> & Hwf & Hcov & He).
  exists g. split_and!; try done.
  { apply Hcov, Hcov1, covered_empty. }
  assert (∀ a, a ∈ list_of_set (list_to_set (task_name <$> data) ∖ isd) ↔
               a ∈ task_name <$> data ∧ ∀ t, t ∈ data → a ∉ dependencies t)
    as Hts.
  { intros a. rewrite Hperm, elem_of_elements, elem_of_difference,
      elem_of_list_to_set, Hisd. split.
    - intros [Hin Hnot]. split; [done|]. intros t Ht' Hd. apply Hnot. right.
      by exists t.
    - intros [Hin Hnot]. split; [done|].
      intros [?%elem_of_empty|(t & Ht' & Hd)]; [done|]. by eapply Hnot. }
  intros a b x. rewrite He, He1. split.
  - intros [(-> & [Hin Hnot]%Hts & ->)|[Hnt [Htask|[_ Hemp]]]];
      [by right|by left|done].
  - intros [(t & Ht' & Hto & ->)|(-> & -> & Hin & Hnot)].
    + right. split; [|left; by exists t].
      intros [-> _]. destruct Hto as [Hb _]. apply Ht. rewrite Hb.
      by apply list_elem_of_fmap_2.
    + left. split_and!; try done. apply Hts. done.
Qed.

(** X17. [generate_graph] returns a well-formed graph for every task
    list: it raises on none, whatever the names, the dependencies and the
    costs are (names given twice, dependencies that are no task, cyclic
    dependencies and negative costs included), and whatever the order in
    which the terminals are listed. *)
Theorem generate_graph_never_raises
    (list_of_set : gset string → list string) (data : list task) :
  ∃ g, generate_graph list_of_set data = Ok g ∧ wf g.
Proof.
  unfold generate_graph.
  destruct (add_tasks_wf data empty_graph ∅ wf_empty) as (g1 & isd & -> & Hwf1).
  simpl.
  destruct (add_terminals_spec
              (list_of_set (list_to_set (task_name <$> data) ∖ isd)) g1 Hwf1)
    as (g & -> & Hwf & _).
  by exists g.
Qed.

(** X18. For a task list with distinct names, none of them ["t"], the
    graph of [generate_graph] has exactly these edges: for every task,
    an edge of the task's cost from each of its dependencies to the task,
    or from ["s"] when it has no dependency; and an edge of weight [0] to
    ["t"] from every task that is no dependency of any task. *)
Theorem generate_graph_edges
    (list_of_set : gset string → list string) (data : list task) :
  NoDup (task_name <$> data) → "t" ∉ task_name <$> data →
  (∀ S, list_of_set S ≡ₚ elements S) →
  ∃ g, generate_graph list_of_set data = Ok g ∧
    ∀ a b x, get_edge g a b = Ok x ↔
      (∃ t, t ∈ data ∧ b = task_name t ∧ x = cost t ∧
            (a ∈ dependencies t ∨ (dependencies t = [] ∧ a = "s"))) ∨
      (b = "t" ∧ x = 0 ∧ a ∈ task_name <$> data ∧
       ∀ t, t ∈ data → a ∉ dependencies t).
Proof.
  intros Hnd Ht Hperm.
  destruct (generate_graph_spec list_of_set data Hnd Ht Hperm)
    as (g & Hg & _ & _ & He).
  exists g. split; [done|]. intros a b x. rewrite He. unfold touches.
  naive_solver.
Qed.

Lemma json_names_NoDup : NoDup (task_name <$> json).
Proof. by apply (bool_decide_unpack _). Qed.

Lemma json_names_t : "t" ∉ task_name <$> json.
Proof. by apply (bool_decide_unpack _). Qed.

Lemma json_H_terminal : ∀ t, t ∈ json → "H" ∉ dependencies t.
Proof.
  intros t Ht. unfold json in Ht.
  repeat (apply elem_of_cons in Ht as [->|Ht]);
    [..|by apply elem_of_nil in Ht]; cbn [dependencies];
    apply (bool_decide_unpack _); vm_compute; exact I.
Qed.

Lemma generate_graph_edges_witness :
  NoDup (task_name <$> json) ∧ "t" ∉ task_name <$> json ∧
  (∀ S, elements_order S ≡ₚ elements S) ∧
  ∃ g, generate_graph elements_order json = Ok g ∧
       get_edge g "B" "D" = Ok 14 ∧ get_edge g "H" "t" = Ok 0.
Proof.
  assert (∀ S, elements_order S ≡ₚ elements S) as Hperm by done.
  split; [exact json_names_NoDup|]. split; [exact json_names_t|].
  split; [exact Hperm|].
  destruct (generate_graph_edges elements_order json
              json_names_NoDup json_names_t Hperm) as (g & Hg & He).
  exists g. split; [exact Hg|]. split.
  - apply He. left. exists (MkTask "D" ["B"; "C"] 14).
    split; [by apply (list_elem_of_lookup_2 json 3%nat)|].
    split; [reflexivity|]. split; [reflexivity|]. left. left.
  - apply He. right. split; [reflexivity|]. split; [reflexivity|].
    split; [by apply (list_elem_of_lookup_2 _ 7%nat)|].
    exact json_H_terminal.
Defined.

(** In a list in dependency order a dependency of the task at position
    [j] is a name seen before the list or the name at a position before
    [j]. *)
Lemma dependency_earlier : ∀ (data : list task) seen (j : nat) t d,
  in_dependency_order seen data → data !! j = Some t → d ∈ dependencies t →
  d ∈ seen ∨
  ∃ i : nat, (i < j)%nat ∧ (task_name <$> data) !! i = Some d.
Proof.
  induction data as [|t0 data IH]; intros seen j t d; [done|].
  simpl. intros [Hdeps Hrest]. destruct j as [|j]; simpl.
  - intros [= <-] Hd. left. by apply Hdeps.
  - intros Hj Hd.
    destruct (IH _ j t d Hrest Hj Hd) as [[Hs| ->%list_elem_of_singleton]%elem_of_app
                                          |(i & Hlt & Hi)].
    + by left.
    + right. exists 0%nat. split; [lia|done].
    + right. exists (S i). split; [lia|done].
Qed.

Section Generated.
Variable data : list task.
Variable g : Wdgraph Z.
Hypothesis Hnd : NoDup (task_name <$> data).
Hypothesis Hs : "s" ∉ task_name <$> data.
Hypothesis Ht : "t" ∉ task_name <$> data.
Hypothesis Hord : in_dependency_order [] data.
Hypothesis Hwf : wf g.
Hypothesis Hcov : covered g.
Hypothesis He : ∀ a b x, get_edge g a b = Ok x ↔
      (∃ t, t ∈ data ∧ touches t a b ∧ x = cost t) ∨
      (b = "t" ∧ x = 0 ∧ a ∈ task_name <$> data ∧
       ∀ t, t ∈ data → a ∉ dependencies t).

Lemma dependency_is_name t d :
  t ∈ data → d ∈ dependencies t → d ∈ task_name <$> data.
Proof using Hnd Hs Ht Hord Hwf Hcov He.
  intros [j Hj]%list_elem_of_lookup Hd.
  destruct (dependency_earlier data [] j t d Hord Hj Hd)
    as [?%elem_of_nil|(i & _ & Hi)]; [done|].
  by eapply list_elem_of_lookup_2.
Qed.

(** The order ["s"], the task names, ["t"]. *)
Lemma generated_positions a b x :
  get_edge g a b = Ok x →
  ∃ i j : nat, ("s" :: (task_name <$> data) ++ ["t"]) !! i = Some a ∧
               ("s" :: (task_name <$> data) ++ ["t"]) !! j = Some b ∧
               (i < j)%nat.
Proof using Hnd Hs Ht Hord Hwf Hcov He.
  intros [(t & [j Hj]%list_elem_of_lookup & [-> Ha] & _)
         |(-> & _ & [i Hi]%list_elem_of_lookup & _)]%He.
  - assert ((task_name <$> data) !! j = Some (task_name t)) as Hjn.
    { by rewrite list_lookup_fmap, Hj. }
    destruct Ha as [Hd|[_ ->]].
    + destruct (dependency_earlier data [] j t a Hord Hj Hd)
        as [?%elem_of_nil|(i & Hlt & Hi)]; [done|].
      exists (S i), (S j). split_and!; [| |lia]; simpl.
      * by apply lookup_app_l_Some.
      * by apply lookup_app_l_Some.
    + exists 0%nat, (S j). split_and!; [done| |lia]. simpl.
      by apply lookup_app_l_Some.
  - exists (S i), (S (length (task_name <$> data))). split_and!; simpl.
    + by apply lookup_app_l_Some.
    + rewrite lookup_app_r by lia. by rewrite Nat.sub_diag.
    + apply lookup_lt_Some in Hi. lia.
Qed.

Lemma generated_acyclic : acyclic g.
Proof using Hnd Hs Ht Hord Hwf Hcov He.
  intros c.
  apply (ordered_acyclic (arc g) ("s" :: (task_name <$> data) ++ ["t"])).
  - apply NoDup_cons. split.
    + intros [Hin|Hin%list_elem_of_singleton]%elem_of_app; [done|discriminate].
    + apply NoDup_app. split; [done|]. split; [|apply NoDup_singleton].
      intros x Hx ->%list_elem_of_singleton. done.
  - intros u v [x Hx]. by eapply generated_positions.
Qed.

Lemma generated_uniform u1 u2 v w1 w2 :
  get_edge g u1 v = Ok w1 → get_edge g u2 v = Ok w2 → w1 = w2.
Proof using Hnd Hs Ht Hord Hwf Hcov He.
  intros [(t1 & Ht1 & [Hv1 _] & ->)|(Hv1 & -> & _)]%He
         [(t2 & Ht2 & [Hv2 _] & ->)|(Hv2 & -> & _)]%He.
  - f_equal. eapply (NoDup_fmap_inj task_name data); [done..|]. congruence.
  - destruct Ht. rewrite <- Hv2, Hv1. by apply list_elem_of_fmap_2.
  - destruct Ht. rewrite <- Hv1, Hv2. by apply list_elem_of_fmap_2.
  - done.
Qed.

Lemma generated_nonneg u v w :
  (∀ t, t ∈ data → 0 ≤ cost t) → get_edge g u v = Ok w → 0 ≤ w.
Proof using Hnd Hs Ht Hord Hwf Hcov He.
  intros Hpos [(t & Ht' & _ & ->)|(_ & -> & _)]%He; [by apply Hpos|done].
Qed.

Lemma generated_no_edge_into_source u w : get_edge g u "s" ≠ Ok w.
Proof using Hnd Hs Ht Hord Hwf Hcov He.
  intros [(t & Ht' & [Hb _] & _)|(? & _)]%He; [|done].
  destruct Hs. rewrite Hb. by apply list_elem_of_fmap_2.
Qed.

(** A task has an edge into it. *)
Lemma generated_task_entered t :
  t ∈ data → ∃ u w, get_edge g u (task_name t) = Ok w.
Proof using Hnd Hs Ht Hord Hwf Hcov He.
  intros Ht'. destruct (dependencies t) as [|d ds] eqn:Hd.
  - exists "s", (cost t). apply He. left. exists t. split; [done|].
    split; [|done]. split; [done|]. right. by rewrite Hd.
  - exists d, (cost t). apply He. left. exists t. split; [done|].
    split; [|done]. split; [done|]. left. rewrite Hd. left.
Qed.

Lemma generated_entered v :
  v ∈ get_nodes g → v ≠ "s" → ∃ u w, get_edge g u v = Ok w.
Proof using Hnd Hs Ht Hord Hwf Hcov He.
  intros Hv Hne. apply wf_registered in Hv; [|done].
  destruct (Hcov v Hv) as (a & b & x & Hx & [->| ->]); [|by eauto].
  assert (a ∈ task_name <$> data) as Hin.
  { apply He in Hx as [(t & Ht' & [_ [Hd|[_ ->]]] & _)|(_ & _ & Hin & _)];
      [by eapply dependency_is_name|done|done]. }
  apply list_elem_of_fmap in Hin as (t & -> & Ht').
  by apply generated_task_entered.
Qed.

(** The last task of the list is a terminal. *)
Lemma generated_sink_registered :
  data ≠ [] → ∃ n, map_value g "t" = Ok n.
Proof using Hnd Hs Ht Hord Hwf Hcov He.
  intros Hne.
  destruct (last data) as [tl|] eqn:Hl; [|by apply last_None in Hl].
  apply last_Some in Hl as [data' Hd].
  assert (tl ∈ data) as Htl.
  { rewrite Hd. apply elem_of_app. right. left. }
  assert (data !! length data' = Some tl) as Hpos.
  { rewrite Hd, lookup_app_r by lia. by rewrite Nat.sub_diag. }
  assert (get_edge g (task_name tl) "t" = Ok 0) as Hedge.
  { apply He. right. split_and!; try done; [by apply list_elem_of_fmap_2|].
    intros t [j Hj]%list_elem_of_lookup Hdep.
    destruct (dependency_earlier data [] j t _ Hord Hj Hdep)
      as [?%elem_of_nil|(i & Hlt & Hi)]; [done|].
    assert ((task_name <$> data) !! length data' = Some (task_name tl)) as Hp'.
    { by rewrite list_lookup_fmap, Hpos. }
    pose proof (NoDup_lookup _ _ _ _ Hnd Hi Hp') as ->.
    apply lookup_lt_Some in Hj. rewrite Hd, length_app in Hj. simpl in Hj. lia. }
  apply get_edge_registered in Hedge as [_ [n Hn]].
  exists n. by apply map_value_Ok.
Qed.

Lemma generated_source_bare :
  data ≠ [] → get_inneighbors g "s" = Ok [].
Proof using Hnd Hs Ht Hord Hwf Hcov He.
  intros Hne. apply get_inneighbors_Ok_nil; [done| |].
  - destruct data as [|t0 data'] eqn:Hd; [done|].
    destruct Hord as [Hdeps _].
    assert (dependencies t0 = []) as Hnil.
    { destruct (dependencies t0) as [|d ds] eqn:Hdd; [done|].
      pose proof (Hdeps d ltac:(left)) as Hx. by apply elem_of_nil in Hx. }
    assert (get_edge g "s" (task_name t0) = Ok (cost t0)) as Hedge.
    { apply He. left. exists t0. split; [left|]. split; [|done].
      split; [done|]. by right. }
    by apply get_edge_registered in Hedge as [? _].
  - intros u x. apply generated_no_edge_into_source.
Qed.

End Generated.

Lemma json_order : in_dependency_order [] json.
Proof.
  unfold json. cbn [in_dependency_order dependencies task_name app].
  repeat split; intros d Hd;
    repeat (apply elem_of_cons in Hd as [->|Hd]);
    try (by apply elem_of_nil in Hd);
    apply (bool_decide_unpack _); vm_compute; exact I.
Qed.

Lemma json_names_s : "s" ∉ task_name <$> json.
Proof. apply (bool_decide_unpack _). vm_compute. exact I. Qed.

Lemma json_costs : ∀ t, t ∈ json → 0 ≤ cost t.
Proof.
  intros t Ht. unfold json in Ht.
  repeat (apply elem_of_cons in Ht as [->|Ht]);
    [..|by apply elem_of_nil in Ht]; cbn [cost]; lia.
Qed.

Lemma Ok_inj {A : Type} (a b : A) : Ok a = Ok b → a = b.
Proof. by intros [= ->]. Qed.

Lemma json_graph : generate_graph elements_order json = Ok demo_graph.
Proof. vm_compute. reflexivity. Qed.

(** X19. For a task list with distinct names, none of them ["s"] or
    ["t"], in which every dependency of a task is the name of a task
    earlier in the list, the graph of [generate_graph] has no directed
    cycle, no edge into ["s"], an edge into every other node, and one
    weight on all the edges into a node. *)
Theorem generated_graph_is_dag
    (list_of_set : gset string → list string) (data : list task) :
  NoDup (task_name <$> data) →
  "s" ∉ task_name <$> data → "t" ∉ task_name <$> data →
  in_dependency_order [] data →
  (∀ S, list_of_set S ≡ₚ elements S) →
  ∃ g, generate_graph list_of_set data = Ok g ∧ acyclic g ∧
    (∀ u w, get_edge g u "s" ≠ Ok w) ∧
    (∀ v, v ∈ get_nodes g → v ≠ "s" → ∃ u w, get_edge g u v = Ok w) ∧
    (∀ u1 u2 v w1 w2,
       get_edge g u1 v = Ok w1 → get_edge g u2 v = Ok w2 → w1 = w2).
Proof.
  intros Hnd Hs Ht Hord Hperm.
  destruct (generate_graph_spec list_of_set data Hnd Ht Hperm)
    as (g & Hg & Hwf & Hcov & He).
  exists g. split; [done|]. split_and!.
  - by apply (generated_acyclic data g).
  - by apply (generated_no_edge_into_source data g).
  - by apply (generated_entered data g).
  - by apply (generated_uniform data g).
Qed.

Lemma generated_graph_is_dag_witness :
  NoDup (task_name <$> json) ∧ in_dependency_order [] json ∧
  generate_graph elements_order json = Ok demo_graph ∧ acyclic demo_graph.
Proof.
  split; [exact json_names_NoDup|]. split; [exact json_order|].
  split; [exact json_graph|].
  destruct (generated_graph_is_dag elements_order json json_names_NoDup
              json_names_s json_names_t json_order (λ S, reflexivity _))
    as (g & Hg & Hac & _).
  rewrite json_graph in Hg. apply Ok_inj in Hg. rewrite Hg. exact Hac.
Defined.

(** X20. For a task list that is not empty, has distinct names other
    than ["s"] and ["t"], names as dependencies only tasks earlier in the
    list and has no negative cost, [solve_max_path] on the graph of
    [generate_graph] returns a length and a path from ["s"] to ["t"] whose
    weights sum to that length, and no list of consecutive edges into
    ["t"] weighs more: the path is a critical path, whatever the orders
    in which the terminals are listed and the frontier is popped. *)
Theorem critical_path_of_task_list
    (list_of_set : gset string → list string) (pick : nat → nat)
    (fuel : nat) (data : list task) (g : Wdgraph Z) :
  data ≠ [] → NoDup (task_name <$> data) →
  "s" ∉ task_name <$> data → "t" ∉ task_name <$> data →
  in_dependency_order [] data →
  (∀ t, t ∈ data → 0 ≤ cost t) →
  (∀ S, list_of_set S ≡ₚ elements S) →
  generate_graph list_of_set data = Ok g → (len g < fuel)%nat →
  ∃ d Q, solve_max_path pick fuel g = Ok (d, Some <$> Q) ∧
    head Q = Some "s" ∧ last Q = Some "t" ∧ path_weight g Q = Ok d ∧
    ∀ Q' x, last Q' = Some "t" → path_weight g Q' = Ok x → x ≤ d.
Proof.
  intros Hne Hnd Hs Ht Hord Hpos Hperm Hgen Hfuel.
  destruct (generate_graph_spec list_of_set data Hnd Ht Hperm)
    as (g' & Hg & Hwf & Hcov & He).
  rewrite Hgen in Hg. injection Hg as <-.
  destruct (solve_max_path_reaches_source pick fuel g Hwf) as (d & p & Hsolve).
  - by apply (generated_acyclic data g).
  - done.
  - by apply (generated_sink_registered data g).
  - by apply (generated_entered data g).
  - destruct (critical_path_of_uniform_weights pick fuel g d p Hwf)
      as (Q & -> & Hw & Hmax).
    + by apply (generated_uniform data g).
    + intros u v w. by apply (generated_nonneg data g).
    + by apply (generated_source_bare data g).
    + done.
    + destruct (solve_max_path_path pick fuel g d _ Hwf Hsolve)
        as (Q' & HQ & Hh & Hl & _).
      apply (inj (fmap Some)) in HQ. subst Q'.
      exists d, Q. split_and!; done.
Qed.

Lemma critical_path_of_task_list_witness :
  json ≠ [] ∧ in_dependency_order [] json ∧
  generate_graph elements_order json = Ok demo_graph ∧
  (len demo_graph < 11)%nat ∧
  ∃ d Q, solve_max_path pop_first 11 demo_graph = Ok (d, Some <$> Q) ∧
         path_weight demo_graph Q = Ok d.
Proof.
  assert (json ≠ []) as Hne by discriminate.
  assert (len demo_graph < 11)%nat as Hlen by (vm_compute; lia).
  split; [exact Hne|]. split; [exact json_order|]. split; [exact json_graph|].
  split; [exact Hlen|].
  destruct (critical_path_of_task_list elements_order pop_first 11 json
              demo_graph Hne json_names_NoDup json_names_s json_names_t
              json_order json_costs (λ S, reflexivity _) json_graph Hlen)
    as (d & Q & Hsolve & _ & _ & Hw & _).
  exists d, Q. split; [exact Hsolve|exact Hw].
Defined.

Lemma json_tasks :
  add_tasks empty_graph ∅ json = Ok (json_tasks_graph, json_dependencies).
Proof. vm_compute. reflexivity. Qed.

Lemma json_terminals :
  elements ((list_to_set (task_name <$> json) : gset string)
              ∖ json_dependencies) = ["G"; "H"].
Proof. vm_compute. reflexivity. Qed.

Lemma json_graph_any_order (list_of_set : gset string → list string) :
  (∀ S, list_of_set S ≡ₚ elements S) →
  generate_graph list_of_set json = Ok demo_graph.
Proof.
  intros Hperm. unfold generate_graph. rewrite json_tasks.
  cbn [mbind result_bind].
  pose proof (Hperm ((list_to_set (task_name <$> json) : gset string)
                       ∖ json_dependencies)) as HP.
  rewrite json_terminals in HP. symmetry in HP.
  apply Permutation_length_2_inv in HP as [->| ->]; vm_compute; reflexivity.
Qed.

(** X21. [main] computes the length [41] and the critical path
    [s, B, F, G, t] for the task list of the module, whatever the order in
    which [list(all_names - is_dependency)] lists the two terminals and
    whatever [S.pop()] returns in [kahns_algorithm]. *)
Theorem main_critical_path
    (list_of_set : gset string → list string) (pick : nat → nat)
    (fuel : nat) :
  (∀ S, list_of_set S ≡ₚ elements S) → (10 < fuel)%nat →
  main list_of_set pick fuel = Ok (41, Some <$> ["s"; "B"; "F"; "G"; "t"]).
Proof.
  intros Hperm Hfuel. unfold main.
  rewrite (json_graph_any_order list_of_set Hperm). cbn [mbind result_bind].
  rewrite (solve_max_path_deterministic pick pop_first fuel 11 demo_graph).
  - vm_compute. reflexivity.
  - apply graph_of_edges_wf.
  - vm_compute. lia.
  - vm_compute. lia.
Qed.

Lemma main_critical_path_witness :
  (∀ S, elements_order S ≡ₚ elements S) ∧ (10 < 11)%nat ∧
  main elements_order pop_first 11
    = Ok (41, Some <$> ["s"; "B"; "F"; "G"; "t"]).
Proof.
  assert (∀ S, elements_order S ≡ₚ elements S) as Hperm by done.
  assert (10 < 11)%nat as Hfuel by lia.
  split; [exact Hperm|]. split; [exact Hfuel|].
  apply (main_critical_path elements_order pop_first 11 Hperm Hfuel).
Defined.

Open Scope Z_scope.

(* ===================================================================== *)
(** * Graph objects: what the methods do to the heap *)
(* ===================================================================== *)

Section HeapRuns.
Context {W : Type} `{EqDecision W}.
Local Open Scope nat_scope.
Implicit Types (h : Heap.heap W) (g G : Wdgraph W) (F : Heap.layout).

Lemma observe_rep {A : Type} (f : Wdgraph W → result A) h self g F :
  Heap.rep h self g F → Heap.observe f self h = (f g, h).
Proof. intros Hrep. unfold Heap.observe. by rewrite (rep_value _ _ _ _ Hrep). Qed.

(** A call on the working copy leaves a working copy. *)
Lemma working_copy_frame h h1 h2 c G F G' F' :
  HeapApp.working_copy h h1 c G F →
  Heap.rep h2 c G' F' → Heap.call_frame h1 h2 c F F' →
  HeapApp.working_copy h h2 c G' F'.
Proof.
  intros (Hrep & Hk & Hfr) Hrep' (Hdom & Hout & Hin).
  split; [done|]. split.
  - intros l Hl. rewrite <- (Hk l Hl). apply Hout.
    + rewrite (Hk l Hl). done.
    + intros Hl'. apply Hfr in Hl'. destruct Hl as [? ?]. congruence.
  - intros l [Hl|Hl]%Hin; [by apply Hfr|]. by eapply keeps_None.
Qed.

(** The original of a working copy is as it was. *)
Lemma working_copy_original h h' c G Fc self g F :
  HeapApp.working_copy h h' c G Fc → Heap.rep h self g F →
  Heap.rep h' self g F.
Proof.
  intros (_ & Hk & _) Hrep. eapply rep_frame; [done|].
  intros l Hl. apply Hk. by eapply rep_dom.
Qed.

(** What [remove_edge] on a graph object returns. *)
Lemma remove_edge_result h self g F u v :
  Heap.rep h self g F →
  (Heap.remove_edge self u v h).1 = (remove_edge g u v ≫= λ _, Ok tt).
Proof.
  intros Hrep. pose proof Hrep as [Hself Hhm Hdm Hadj Hrows Hsep].
  unfold Heap.remove_edge, remove_edge.
  pose proof (map_value_heap h self g F u Hrep) as Hmu.
  destruct (map_value g u) as [n1| |]; simpl;
    [|by rewrite (prog_bind_Raise _ _ _ _ _ Hmu)|].
  2:{ unfold mbind, Heap.prog_bind. by rewrite Hmu. }
  rewrite (prog_bind_Ok _ _ _ _ _ Hmu).
  pose proof (map_value_heap h self g F v Hrep) as Hmv.
  destruct (map_value g v) as [n2| |]; simpl;
    [|by rewrite (prog_bind_Raise _ _ _ _ _ Hmv)|].
  2:{ unfold mbind, Heap.prog_bind. by rewrite Hmv. }
  rewrite (prog_bind_Ok _ _ _ _ _ Hmv).
  rewrite (prog_bind_Ok _ _ _ _ _ (read_graph_Ok _ _ _ _ _ _ Hself)).
  rewrite (prog_bind_Ok _ _ _ _ _ (read_refs_Ok _ _ _ Hadj)).
  destruct (adj_list g !! n1) as [row|] eqn:Hrow.
  2:{ pose proof (rep_rows_None _ _ _ _ _ Hrep Hrow) as Hnone.
      unfold index. rewrite Hrow. simpl.
      rewrite (prog_bind_Raise _ _ _ IndexError h); [done|].
      unfold Heap.lift, index. by rewrite Hnone. }
  destruct (rep_rows_lookup _ _ _ _ _ _ Hrep Hrow) as (r & ps & Hr & Hps & Hrps).
  rewrite (index_lookup _ _ _ Hrow), (index_lookup _ _ _ Hr). simpl.
  rewrite (prog_bind_Ok _ _ _ _ _ (lift_Ok _ _)).
  destruct Hrps as [Hhr Hpairs].
  rewrite (prog_bind_Ok _ _ _ _ _ (read_refs_Ok _ _ _ Hhr)).
  rewrite (prog_bind_Ok _ _ _ _ _ (last_match_heap _ _ _ _ _ Hpairs)).
  destruct (last_match n2 None row) as [x|]; [|done].
  pose proof (list_remove_heap h ps row x Hpairs) as Hrem.
  destruct (list_remove x row) as [row'|e|]; simpl; [| |done].
  2:{ by rewrite (prog_bind_Raise _ _ _ _ _ Hrem). }
  destruct Hrem as (ps1 & p & ps2 & -> & Hrem & Hrow').
  rewrite (prog_bind_Ok _ _ _ _ _ Hrem). by rewrite write_Ok.
Qed.

Lemma prog_bind_step {A B : Type} (m : Heap.prog A) (f : A → Heap.prog B)
    h (r : result A) h' :
  m h = (r, h') →
  (m ≫= f) h = match r with
               | Ok a => f a h'
               | Raise e => (Raise e, h')
               | OutOfFuel => (OutOfFuel, h')
               end.
Proof. intros Hm. unfold mbind, Heap.prog_bind. by rewrite Hm. Qed.

Lemma heap_kahn_visit (c : Heap.loc) (n : string) h :
  ∀ (outs : list (string * W)) h1 G F (S : gset string),
  HeapApp.working_copy h h1 c G F →
  ∃ h2 G2 F2, HeapApp.working_copy h h2 c G2 F2 ∧
    HeapApp.kahn_visit c S n outs h1
      = (HeapApp.visit_answer (kahn_visit G S n outs), h2) ∧
    ∀ G' S', kahn_visit G S n outs = Ok (G', S') → G2 = G'.
Proof.
  induction outs as [|[m weight] outs IH]; intros h1 G F S Hwc.
  - exists h1, G, F. split; [done|]. split; [done|]. by intros G' S' [= <- _].
  - cbn [HeapApp.kahn_visit kahn_visit].
    pose proof Hwc as (Hrep & _).
    destruct (remove_edge_heap h1 c G F n m Hrep) as (h' & F' & Hh' & Hrep' & Hfr).
    pose proof (remove_edge_result h1 c G F n m Hrep) as Hres.
    pose proof (working_copy_frame h h1 h' c G F _ F' Hwc Hrep' Hfr) as Hwc'.
    rewrite (prog_bind_step _ _ h1 _ h'
               (eq_trans (surjective_pairing _) (f_equal2 pair Hres Hh'))).
    destruct (remove_edge G n m) as [G'|e|] eqn:Hrem; simpl.
    + rewrite (prog_bind_step _ _ h' _ h'
                 (observe_rep (λ g, get_inneighbors g m) h' c G' F' Hrep')).
      destruct (get_inneighbors G' m) as [inn|e|] eqn:Hinn; simpl.
      * destruct (IH h' G' F' (if inn is [] then S ∪ {[m]} else S) Hwc')
          as (h2 & G2 & F2 & Hwc2 & Hrun & Hfin).
        exists h2, G2, F2. done.
      * exists h', G', F'. split; [done|]. split; [done|]. by intros G0 S0.
      * exists h', G', F'. split; [done|]. split; [done|]. by intros G0 S0.
    + exists h', G, F'. split; [done|]. split; [done|]. by intros G0 S0.
    + exists h', G, F'. split; [done|]. split; [done|]. by intros G0 S0.
Qed.

Lemma heap_kahn_loop (pick : nat → nat) (c : Heap.loc) h :
  ∀ (fuel i : nat) h1 G F (S : gset string) (L : list string),
  HeapApp.working_copy h h1 c G F →
  ∃ h2 G2 F2, HeapApp.working_copy h h2 c G2 F2 ∧
    HeapApp.kahn_loop pick fuel i c S L h1
      = (HeapApp.loop_answer (kahn_loop pick fuel i G S L), h2) ∧
    ∀ G' L', kahn_loop pick fuel i G S L = Ok (G', L') → G2 = G'.
Proof.
  induction fuel as [|fuel IH]; intros i h1 G F S L Hwc.
  - exists h1, G, F. split; [done|]. split; [done|]. by intros G' L'.
  - cbn [HeapApp.kahn_loop kahn_loop]. case_decide as HS.
    2:{ exists h1, G, F. split; [done|]. split; [done|].
        by intros G' L' [= <- _]. }
    pose proof Hwc as (Hrep & _).
    rewrite (prog_bind_step _ _ h1 (set_pop (pick i) S) h1 eq_refl).
    destruct (set_pop (pick i) S) as [[n S1]|e|] eqn:Hpop; simpl.
    2,3: (exists h1, G, F; split; [done|]; split; [done|]; by intros G' L').
    rewrite (prog_bind_step _ _ h1 _ h1
               (observe_rep (λ g, get_outneighbors g n) h1 c G F Hrep)).
    destruct (get_outneighbors G n) as [outs|e|] eqn:Houts; simpl.
    2,3: (exists h1, G, F; split; [done|]; split; [done|]; by intros G' L').
    destruct (heap_kahn_visit c n h outs h1 G F S1 Hwc)
      as (h2 & G2 & F2 & Hwc2 & Hrun & Hfin).
    rewrite (prog_bind_step _ _ h1 _ h2 Hrun).
    destruct (kahn_visit G S1 n outs) as [[G' S2]|e|] eqn:Hvis; simpl.
    2,3: (exists h2, G2, F2; split; [done|]; split; [done|]; by intros G0 L0).
    rewrite (Hfin G' S2 eq_refl) in Hwc2.
    destruct (IH (i + 1) h2 G' F2 S2 (L ++ [n]) Hwc2)
      as (h3 & G3 & F3 & Hwc3 & Hrun3 & Hfin3).
    exists h3, G3, F3. done.
Qed.

Lemma run_mutations_working_copy (c : Heap.loc) h :
  ∀ (ms : list (Heap.mutation W)) h1 G F,
  HeapApp.working_copy h h1 c G F →
  ∃ F', HeapApp.working_copy h
          (Heap.run_mutations ((λ m, (c, m)) <$> ms) h1) c
          (Heap.apply_mutations G ms) F'.
Proof.
  induction ms as [|m ms IH]; intros h1 G F Hwc; [by exists F|].
  pose proof Hwc as (Hrep & _).
  destruct (run_mutation_heap h1 c G F m Hrep) as (F' & Hrep' & Hfr).
  apply (IH _ _ F'). by eapply working_copy_frame.
Qed.

Lemma heap_kahns_algorithm (pick : nat → nat) (fuel : nat) h graph g F :
  Heap.rep h graph g F →
  (HeapApp.kahns_algorithm pick fuel graph h).1 = kahns_algorithm pick fuel g ∧
  ∃ c G Fc,
    HeapApp.working_copy h (HeapApp.kahns_algorithm pick fuel graph h).2 c G Fc.
Proof.
  intros Hrep. unfold HeapApp.kahns_algorithm, kahns_algorithm.
  destruct (copy_heap h graph g F Hrep) as (c & h1 & Fc & Hcopy & Hc & Hk & Hfr).
  assert (HeapApp.working_copy h h1 c g Fc) as Hwc by done.
  rewrite (prog_bind_step _ _ h _ h1 Hcopy). cbn beta iota.
  rewrite (prog_bind_step _ _ h1 _ h1
             (observe_rep get_nodes_without_incoming h1 c g Fc Hc)).
  rewrite copy_eq.
  destruct (get_nodes_without_incoming g) as [S|e|] eqn:HS; simpl.
  2,3: (split; [done|]; by exists c, g, Fc).
  destruct (heap_kahn_loop pick c h fuel 0 h1 g Fc S [] Hwc)
    as (h2 & G2 & F2 & Hwc2 & Hrun & Hfin).
  rewrite (prog_bind_step _ _ h1 _ h2 Hrun).
  destruct (kahn_loop pick fuel 0 g S []) as [[G' L']|e|] eqn:Hloop; simpl.
  2,3: (split; [done|]; by exists c, G2, F2).
  rewrite (Hfin G' L' eq_refl) in Hwc2. pose proof Hwc2 as (Hrep2 & _).
  rewrite (prog_bind_step _ _ h2 _ h2
             (observe_rep (λ g0, Ok (all_edges g0)) h2 c G' F2 Hrep2)).
  cbn beta iota. destruct (all_edges G'); simpl; (split; [done|]);
    by exists c, G', F2.
Qed.

End HeapRuns.

(** X22. [kahns_algorithm] on a graph object returns what the algorithm
    returns on the value of the graph, and it leaves the graph it is given
    as it was: every object that the heap had before the call is unchanged
    after it, whether the call returns or raises, because the edges are
    removed from the copy. *)
Theorem kahns_algorithm_keeps_its_argument {W : Type} `{EqDecision W}
    (pick : nat → nat) (fuel : nat) (h : Heap.heap W) (graph : Heap.loc)
    (g : Wdgraph W) (F : Heap.layout) :
  Heap.rep h graph g F →
  (HeapApp.kahns_algorithm pick fuel graph h).1 = kahns_algorithm pick fuel g ∧
  Heap.keeps h (HeapApp.kahns_algorithm pick fuel graph h).2 ∧
  Heap.value_of (HeapApp.kahns_algorithm pick fuel graph h).2 graph = Some g ∧
  Heap.same_observations graph h (HeapApp.kahns_algorithm pick fuel graph h).2.
Proof.
  intros Hrep.
  destruct (heap_kahns_algorithm pick fuel h graph g F Hrep)
    as (Hres & c & G & Fc & Hwc).
  pose proof (working_copy_original _ _ _ _ _ _ _ _ Hwc Hrep) as Hrep'.
  split; [done|]. split; [by destruct Hwc as (_ & ? & _)|].
  split; [by eapply rep_value|].
  apply same_observations_value.
  by rewrite (rep_value _ _ _ _ Hrep'), (rep_value _ _ _ _ Hrep).
Qed.

Lemma kahns_algorithm_keeps_its_argument_witness :
  Heap.rep demo_heap 3%nat (set_edge' empty_graph "a" "b" 1) demo_layout ∧
  (HeapApp.kahns_algorithm pop_first 3 3%nat demo_heap).1 = Ok ["a"; "b"] ∧
  Heap.keeps demo_heap (HeapApp.kahns_algorithm pop_first 3 3%nat demo_heap).2.
Proof.
  split; [exact demo_heap_rep|].
  destruct (kahns_algorithm_keeps_its_argument pop_first 3 demo_heap 3%nat _
              demo_layout demo_heap_rep) as (Hres & Hk & _).
  split; [|exact Hk]. rewrite Hres. vm_compute. reflexivity.
Defined.

(** X23. A graph object made by [Wdgraph()] and changed by any sequence
    of [set_edge], [remove_edge] and [register_node] calls has the value
    that the store computes from these calls, and the calls leave every
    other object of the heap as it was: the in-place updates of the
    methods reach no list of another object. *)
Theorem graph_object_follows_store {W : Type} `{EqDecision W}
    (h : Heap.heap W) (ms : list (Heap.mutation W)) :
  ∃ c h0, Heap.new_graph h = (Ok c, h0) ∧ h !! c = None ∧
    Heap.value_of (Heap.run_mutations ((λ m, (c, m)) <$> ms) h0) c
      = Some (Heap.apply_mutations empty_graph ms) ∧
    Heap.keeps h (Heap.run_mutations ((λ m, (c, m)) <$> ms) h0).
Proof.
  destruct (new_graph_rep h) as (c & h0 & F & Hnew & Hrep & Hk & Hfr).
  exists c, h0. split; [done|]. split; [apply Hfr; left|].
  destruct (run_mutations_working_copy c h ms h0 empty_graph F)
    as (F' & Hrep' & Hk' & _); [done|].
  split; [by eapply rep_value|done].
Qed.

Open Scope Z_scope.

(* ===================================================================== *)
(** * Edge cases of the store *)
(* ===================================================================== *)

(** X24. [set_edge(u, u, w)] is accepted: on a well-formed graph it
    returns and [get_edge(u, u)] is then [w]; the graph then has a
    directed cycle, and [kahns_algorithm] raises the cycle exception on
    it. *)
Theorem self_loop_is_a_cycle {W : Type} `{EqDecision W}
    (pick : nat → nat) (fuel : nat) (g : Wdgraph W) (u : string) (w : W) :
  wf g → (len (set_edge' g u u w) < fuel)%nat →
  (set_edge g u u w).2 = Ok tt ∧
  get_edge (set_edge' g u u w) u u = Ok w ∧
  has_cycle (set_edge' g u u w) ∧
  kahns_algorithm pick fuel (set_edge' g u u w) = Raise GraphHasCycle.
Proof.
  intros Hwf Hfuel. unfold set_edge' in *.
  destruct (set_edge_spec g u u w Hwf) as (g' & Hset & Hwf' & He).
  rewrite Hset in *. simpl in *.
  assert (get_edge g' u u = Ok w) as Hw by (apply He; by left).
  assert (has_cycle g') as Hcyc.
  { exists u. apply tc_once. by exists w. }
  split_and!; try done. by apply kahn_cycle_Raise.
Qed.

Lemma self_loop_is_a_cycle_witness :
  wf (empty_graph (W := Z)) ∧
  (len (set_edge' (W := Z) empty_graph "a" "a" 1%Z) < 2)%nat ∧
  kahns_algorithm pop_first 2 (set_edge' (W := Z) empty_graph "a" "a" 1)
    = Raise GraphHasCycle.
Proof.
  assert (len (set_edge' (W := Z) empty_graph "a" "a" 1%Z) < 2)%nat as Hlen.
  { vm_compute. lia. }
  split; [apply wf_empty|]. split; [exact Hlen|].
  destruct (self_loop_is_a_cycle pop_first 2 (empty_graph (W := Z)) "a" 1
              wf_empty Hlen) as (_ & _ & _ & Hk).
  exact Hk.
Defined.

(** X25. On a well-formed graph [all_edges()] lists pairs of a handle and
    a weight, without the sources: [[n, w]] is listed exactly when some
    node has an edge of weight [w] to the node that [get_nodes()] has at
    position [n]; the list is empty exactly when [get_edge] returns for no
    pair of labels. *)
Theorem all_edges_lists_targets {W : Type} `{EqDecision W} (g : Wdgraph W) :
  wf g →
  (∀ n w, (n, w) ∈ all_edges g ↔
     ∃ u v, get_nodes g !! n = Some v ∧ get_edge g u v = Ok w) ∧
  (all_edges g = [] ↔ ∀ u v w, get_edge g u v ≠ Ok w).
Proof.
  intros Hwf. split; [|by apply all_edges_nil].
  intros n w. unfold all_edges, get_nodes. rewrite elem_of_concat. split.
  - intros (r & Hin & (n1 & Hr)%list_elem_of_lookup_1).
    destruct (lookup_lt_is_Some_2 (directmap g) n1) as [u Hu].
    { rewrite (wf_directmap g Hwf), <- (wf_adj_list g Hwf).
      by eapply lookup_lt_Some. }
    destruct (lookup_lt_is_Some_2 (directmap g) n) as [v Hv].
    { rewrite (wf_directmap g Hwf).
      apply (wf_targets g Hwf n1 r (n, w) Hr Hin). }
    exists u, v. split; [done|]. apply get_edge_Ok.
    exists n1, n, r. split_and!; try done; try by apply (wf_hashmap g Hwf).
    apply find_weight_elem; [|done]. by eapply (wf_single g Hwf).
  - intros (u & v & Hv & (n1 & n2 & r & Hu & Hv' & Hr & Hw)%get_edge_Ok).
    apply (wf_hashmap g Hwf) in Hv. assert (n2 = n) as -> by congruence.
    exists r. split; [by apply find_weight_Some|].
    by eapply list_elem_of_lookup_2.
Qed.

Lemma all_edges_lists_targets_witness :
  wf (set_edge' (W := Z) empty_graph "a" "b" 7) ∧
  all_edges (set_edge' (W := Z) empty_graph "a" "b" 7) = [(1%nat, 7)] ∧
  ∃ u v, get_nodes (set_edge' (W := Z) empty_graph "a" "b" 7) !! 1%nat
           = Some v ∧
         get_edge (set_edge' (W := Z) empty_graph "a" "b" 7) u v = Ok 7.
Proof.
  assert (wf (set_edge' (W := Z) empty_graph "a" "b" 7)) as Hwf.
  { apply set_edge'_wf, wf_empty. }
  split; [exact Hwf|]. split; [reflexivity|].
  destruct (all_edges_lists_targets _ Hwf) as [Hmem _].
  apply Hmem. left.
Defined.

(** X26. A label that [register_node] registers on a well-formed graph is
    an isolated node: its out-neighbours and in-neighbours are empty, its
    out-degree is [0], and the edges of the graph are as before. *)
Theorem new_node_is_isolated {W : Type} `{EqDecision W}
    (g : Wdgraph W) (u : string) :
  wf g → map_value g u = Raise UnregisteredNode →
  get_outneighbors (register_node g u).1 u = Ok [] ∧
  get_inneighbors (register_node g u).1 u = Ok [] ∧
  get_outdegree (register_node g u).1 u = Ok 0%nat ∧
  all_edges (register_node g u).1 = all_edges g ∧
  (∀ a b x, get_edge (register_node g u).1 a b = Ok x ↔
            get_edge g a b = Ok x).
Proof.
  intros Hwf [Hu _]%map_value_Raise.
  pose proof (register_node_wf g u Hwf) as Hwf'.
  pose proof (λ a b x, register_node_get_edge g u a b x Hwf) as He.
  pose proof (register_node_lookup g u) as Hl.
  rewrite (register_node_fresh g u Hu) in *. simpl in *.
  assert ((adj_list g ++ [[]]) !! len g = Some []) as Hrow.
  { rewrite lookup_app_r by (rewrite (wf_adj_list g Hwf); lia).
    by rewrite (wf_adj_list g Hwf), Nat.sub_diag. }
  split_and!; try done.
  - unfold get_outneighbors, map_value. simpl. rewrite Hl. simpl.
    by rewrite (index_lookup _ _ _ Hrow).
  - apply get_inneighbors_Ok_nil; [done|by eexists|].
    intros a x Hx. apply He in Hx.
    apply get_edge_registered in Hx as [_ [n Hn]]. congruence.
  - unfold get_outdegree, map_value. simpl. rewrite Hl. simpl.
    by rewrite (index_lookup _ _ _ Hrow).
  - unfold all_edges. simpl. rewrite concat_app. simpl. by rewrite app_nil_r.
Qed.

Lemma new_node_is_isolated_witness :
  wf (empty_graph (W := Z)) ∧
  map_value (empty_graph (W := Z)) "a" = Raise UnregisteredNode ∧
  get_inneighbors (register_node (empty_graph (W := Z)) "a").1 "a" = Ok [].
Proof.
  split; [apply wf_empty|]. split; [reflexivity|].
  destruct (new_node_is_isolated (empty_graph (W := Z)) "a" wf_empty eq_refl)
    as (_ & Hin & _).
  exact Hin.
Defined.

(* ===================================================================== *)
(** * The list that [get_nodes] returns *)
(* ===================================================================== *)

Section Leak.
Context {W : Type} `{EqDecision W}.
Local Open Scope nat_scope.

Lemma rep_new_labels (h : Heap.heap W) self (g : Wdgraph W) F (l : list string) :
  Heap.rep h self g F →
  Heap.rep (<[Heap.l_dm F := Heap.Labels l]> h) self
    (MkWdgraph (len g) (hashmap g) l (adj_list g)) F.
Proof.
  intros [Hself Hhm Hdm Hadj Hrows Hsep].
  pose proof (sep_facts _ _ Hsep)
    as (Hn1 & Hn2 & Hn3 & Hn4 & Hn5 & Hn6 & Hs1 & Hs2 & Hs3 & Hs4 & Hnd).
  split; simpl.
  - by rewrite lookup_insert_ne.
  - by rewrite lookup_insert_ne.
  - by rewrite lookup_insert_eq.
  - by rewrite lookup_insert_ne.
  - apply Forall3_pointwise in Hrows as (Hl1 & Hl2 & Hrows).
    apply Forall3_pointwise. split; [done|]. split; [done|].
    intros i r ps row Hr Hps Hrow.
    apply (row_at_frame h); [by eapply Hrows| |].
    + apply lookup_insert_ne. intros <-. apply Hs3, elem_of_app. left.
      by eapply list_elem_of_lookup_2.
    + intros p Hp. apply lookup_insert_ne. intros <-.
      apply Hs3, elem_of_app. right.
      exact (elem_of_concat_lookup _ _ _ _ Hps Hp).
  - done.
Qed.

End Leak.

(** X27. [get_nodes()] returns the graph's own list of labels, not a
    copy: the object it returns is the one the graph object refers to as
    its [directmap], and it holds the labels of the graph.  Whatever list
    of labels a caller makes of that object, the graph then has it as its
    labels, with the node count and the dict as before; a list of another
    length breaks the invariant of the store. *)
Theorem get_nodes_returns_the_live_list {W : Type} `{EqDecision W}
    (h : Heap.heap W) (self : Heap.loc) (g : Wdgraph W) (F : Heap.layout) :
  Heap.rep h self g F →
  ∃ nodes hm adj, HeapApp.get_nodes self h = (Ok nodes, h) ∧
    h !! self = Some (Heap.Graph (len g) hm nodes adj) ∧
    h !! nodes = Some (Heap.Labels (get_nodes g)) ∧
    ∀ l : list string,
      Heap.value_of (<[nodes := Heap.Labels l]> h) self
        = Some (MkWdgraph (len g) (hashmap g) l (adj_list g)) ∧
      (length l ≠ len g →
       ¬ wf (MkWdgraph (len g) (hashmap g) l (adj_list g))).
Proof.
  intros Hrep. pose proof Hrep as [Hself Hhm Hdm Hadj Hrows Hsep].
  exists (Heap.l_dm F), (Heap.l_hm F), (Heap.l_adj F). split_and!; try done.
  - unfold HeapApp.get_nodes.
    by rewrite (prog_bind_Ok _ _ _ _ _ (read_graph_Ok _ _ _ _ _ _ Hself)).
  - intros l. split.
    + eapply rep_value. by apply rep_new_labels.
    + intros Hne [Hlen _ _ _ _]. simpl in Hlen. done.
Qed.

Lemma get_nodes_returns_the_live_list_witness :
  Heap.rep demo_heap 3%nat (set_edge' empty_graph "a" "b" 1) demo_layout ∧
  HeapApp.get_nodes 3%nat demo_heap = (Ok 1%nat, demo_heap) ∧
  demo_heap !! 1%nat = Some (Heap.Labels ["a"; "b"]).
Proof.
  split; [exact demo_heap_rep|].
  destruct (get_nodes_returns_the_live_list demo_heap 3%nat _ demo_layout
              demo_heap_rep) as (nodes & hm & adj & Hget & _ & Hlook & _).
  assert (nodes = 1%nat) as Hn.
  { assert ((HeapApp.get_nodes 3%nat demo_heap).1 = Ok 1%nat) as Hc
      by reflexivity.
    rewrite Hget in Hc. simpl in Hc. congruence. }
  rewrite Hn in Hget, Hlook. split; [exact Hget|exact Hlook].
Defined.
